(** * EduVerse leaderboard: the score aggregation and ranking engine

    A shallow embedding of [server/scoreCalculator.js] (class
    [ScoreCalculator]) and of the request handlers that use it, with the
    properties its specification states and further laws of the code.

    - JavaScript numbers are IEEE 754 binary64 values.  They are modelled
      by the Standard Library's executable specification [spec_float] at
      precision 53 and maximal exponent 1024 (module [F64]).
    - JavaScript objects are finite maps from property names to values
      ([gmap string value]); a missing property reads as [undefined].
    - [throw] is an explicit outcome; the loops that push onto an array are
      folds carrying the array.
    - [Array.prototype.sort] is a stable insertion sort; on entries with
      numeric final scores every stable descending sort gives the same
      result ([Array_sort_unique]).  When a final score is NaN the
      comparator is not consistent and ECMAScript leaves the order to the
      engine; every property below that depends on the order assumes
      final scores other than NaN.
    - [calculateRankings] is embedded twice: as a function on values, and
      over a store of arrays and objects reached through references, for
      the question of what a call writes.
    - [processChallengeScores] maps [calculateFinalScore] over the
      submissions and hands the results to [calculateRankings].  Its
      entries carry the nested [breakdown] object beside their flat
      properties; they are pairs of an object and a breakdown, ranked by
      [calculateRankings_carrying], which agrees with [calculateRankings]
      on the object part ([calculateRankings_carrying_fst]).  A throw of
      the callback of [Array.prototype.map] ends the map ([Array_map]).
    - Three request handlers of [server/index.js] that call the
      calculator are embedded over an abstract database: a record of the
      six adapter methods they use, each a state transformer that resolves
      or rejects ([Database], [Db]).  A handler is run on its own, without
      other requests between its awaits.  The adapters themselves (SQL
      and Supabase queries) and the client components are not embedded,
      nor is the handler that deletes a user: it calls
      [deleteUserFromChallenge], which the adapter that [index.js] loads
      does not define.
    - Two abstract operations of the language that the repository does not
      define, the conversions between numbers and strings, are taken as
      parameters (class [Builtins]). *)

From Stdlib Require Import ZArith Lia Bool List String Ascii SpecFloat.
From Stdlib Require Import Permutation Sorted.
From stdpp Require Import base gmap strings list.

(** ** Binary64 arithmetic *)

Module F64.

Local Open Scope Z_scope.

Definition prec : Z := 53.
Definition emax : Z := 1024.

Definition float : Type := spec_float.

Definition NaN : float := S754_nan.
Definition zero : float := S754_zero false.

Definition add : float -> float -> float := SFadd prec emax.
Definition sub : float -> float -> float := SFsub prec emax.
Definition mul : float -> float -> float := SFmul prec emax.
Definition div : float -> float -> float := SFdiv prec emax.
Definition abs : float -> float := SFabs.
Definition ltb : float -> float -> bool := SFltb.
Definition leb : float -> float -> bool := SFleb.
Definition eqb : float -> float -> bool := SFeqb.

(** The number with integer value [z] (exact when [|z| <= 2^53]). *)
Definition of_Z (z : Z) : float := binary_normalize prec emax z 0 false.
Definition of_nat (n : nat) : float := of_Z (Z.of_nat n).

(** The decimal literal [m / 10^k]: the binary64 value nearest to it.
    Both [m] and [10^k] are exact binary64 integers in every use below,
    so the correctly rounded quotient is the value of the literal. *)
Definition lit (m : Z) (k : nat) : float :=
  div (of_Z m) (of_Z (10 ^ Z.of_nat k)).

Definition is_nan (x : float) : bool :=
  match x with S754_nan => true | _ => false end.

(** [x] is a binary64 value: its mantissa and exponent are in range and
    in canonical form. *)
Definition is_double (x : float) : bool := valid_binary prec emax x.

(** [Math.round]: integral values, infinities, NaN and the zeros are
    returned as they are; otherwise the result is the integer
    [floor (x + 1/2)], computed exactly, and a zero result keeps the sign
    of [x]. *)
Definition Math_round (x : float) : float :=
  match x with
  | S754_finite s m e =>
      if 0 <=? e then x
      else
        let n := (2 * cond_Zopp s (Zpos m) + 2 ^ (- e)) / 2 ^ (- e + 1) in
        if n =? 0 then S754_zero s else of_Z n
  | _ => x
  end.

Definition Math_abs : float -> float := abs.

(** Neither an infinity nor NaN. *)
Definition is_finite (x : float) : bool :=
  match x with
  | S754_zero _ | S754_finite _ _ _ => true
  | _ => false
  end.

(** The binary64 numbers on one integer scale: a finite number is a
    multiple of [2^-1074], and the infinities lie beyond every finite one.
    Proofs compare numbers through it. *)
Definition scaled (x : float) : Z :=
  match x with
  | S754_zero _ | S754_nan => 0
  | S754_infinity s => cond_Zopp s (2 ^ 2100)
  | S754_finite s m e => cond_Zopp s (Z.pos m * 2 ^ (e + 1074))
  end.

End F64.

Abbreviation float := F64.float.

(** ** JavaScript values and the operators the engine applies to them *)

Inductive value : Type :=
| VUndefined
| VNull
| VBool (b : bool)
| VNumber (x : float)
| VString (s : string).

#[global] Instance float_eq_dec : EqDecision float.
Proof. solve_decision. Defined.

#[global] Instance value_eq_dec : EqDecision value.
Proof. solve_decision. Defined.

(** Property bags: the score, criteria and result objects. *)
Abbreviation object := (gmap string value).

(** [o[field]] and [o.field]. *)
Definition get (o : object) (field : string) : value :=
  default VUndefined (o !! field).

(** Number::toString and StringToNumber of ECMAScript. *)
Class Builtins : Type := {
  NumberToString : float -> string;
  StringToNumber : string -> float
}.

Definition ToBoolean (v : value) : bool :=
  match v with
  | VUndefined | VNull => false
  | VBool b => b
  | VNumber x =>
      match x with
      | S754_zero _ | S754_nan => false
      | _ => true
      end
  | VString s => negb (String.eqb s "")
  end.

(** [a === b] *)
Definition strict_eq (a b : value) : bool :=
  match a, b with
  | VUndefined, VUndefined => true
  | VNull, VNull => true
  | VBool x, VBool y => Bool.eqb x y
  | VNumber x, VNumber y => F64.eqb x y
  | VString x, VString y => String.eqb x y
  | _, _ => false
  end.

(** [a || b] *)
Definition js_or (a b : value) : value := if ToBoolean a then a else b.

(** A destructuring default [{ field = d } = o]: used when the property is
    [undefined] (not when it is [null]). *)
Definition with_default (d : value) (v : value) : value :=
  match v with VUndefined => d | _ => v end.

Section Operators.
Context `{Builtins}.

Definition ToNumber (v : value) : float :=
  match v with
  | VUndefined => F64.NaN
  | VNull => F64.zero
  | VBool b => if b then F64.of_Z 1 else F64.zero
  | VNumber x => x
  | VString s => StringToNumber s
  end.

Definition ToString (v : value) : string :=
  match v with
  | VUndefined => "undefined"
  | VNull => "null"
  | VBool b => if b then "true" else "false"
  | VNumber x => NumberToString x
  | VString s => s
  end.

(** [a + b]: concatenation when an operand is a string, else addition. *)
Definition js_add (a b : value) : value :=
  match a, b with
  | VString _, _ | _, VString _ => VString (ToString a +:+ ToString b)
  | _, _ => VNumber (F64.add (ToNumber a) (ToNumber b))
  end.

(** [a - b] and [a * b] convert both operands to numbers. *)
Definition js_sub (a b : value) : float := F64.sub (ToNumber a) (ToNumber b).
Definition js_mul (a b : value) : float := F64.mul (ToNumber a) (ToNumber b).

End Operators.

(** ** Outcomes of a call: a returned value or a thrown [Error] *)

Inductive outcome (A : Type) : Type :=
| Returns (a : A)
| Throws (message : string).
Arguments Returns {A} a.
Arguments Throws {A} message.

(** ** ScoreCalculator *)

Record BreakdownEntry : Type := {
  score : value;
  weight : value;
  contribution : float
}.

Record Breakdown : Type := {
  logic : BreakdownEntry;
  clarity : BreakdownEntry;
  testing : BreakdownEntry;
  efficiency : BreakdownEntry;
  apiUi : BreakdownEntry;
  edgeCases : BreakdownEntry;
  creativity : BreakdownEntry
}.

Record ScoreResult : Type := {
  finalScore : float;
  logicContribution : float;
  clarityContribution : float;
  testingContribution : float;
  efficiencyContribution : float;
  apiUiContribution : float;
  edgeCasesContribution : float;
  creativityContribution : float;
  breakdown : Breakdown
}.

Record ValidationResult : Type := {
  isValid : bool;
  errors : list string
}.

(** [Math.round(v * 100) / 100] *)
Definition round2 (v : float) : float :=
  F64.div (F64.Math_round (F64.mul v (F64.of_Z 100))) (F64.of_Z 100).

(** The test [typeof v !== 'number' || v < lo || v > hi]. *)
Definition not_number_in (lo hi : float) (v : value) : bool :=
  match v with
  | VNumber x => F64.ltb x lo || F64.ltb hi x
  | _ => true
  end.

(** [v !== undefined && v !== null] *)
Definition present (v : value) : bool :=
  negb (strict_eq v VUndefined) && negb (strict_eq v VNull).

Definition required : list string :=
  ["user_id"; "challenge_id"; "ai_score"; "code_quality"; "testing_rate";
   "logic_score"; "clarity_score"]%string.

Definition scoreFields : list string :=
  ["ai_score"; "code_quality"; "testing_rate"; "logic_score"; "clarity_score";
   "efficiency_score"; "api_ui_score"; "edge_cases_score";
   "creativity_score"]%string.

Definition weightFields : list string :=
  ["logic_weight"; "clarity_weight"; "testing_weight"; "efficiency_weight";
   "api_ui_weight"; "edge_cases_weight"; "creativity_weight"]%string.

(** One iteration of each [for (const field of ...)] loop; the state is the
    [errors] array. *)
Definition check_required (aiScore : object) (errors : list string)
    (field : string) : list string :=
  if negb (present (get aiScore field))
  then errors ++ ["Missing required field: " +:+ field]
  else errors.

Definition check_score_range (aiScore : object) (errors : list string)
    (field : string) : list string :=
  if present (get aiScore field) then
    if not_number_in (F64.of_Z 0) (F64.of_Z 100) (get aiScore field)
    then errors ++ [field +:+ " must be a number between 0 and 100"]
    else errors
  else errors.

Definition validateAIScore (aiScore : object) : ValidationResult :=
  let errors := [] in
  let errors := fold_left (check_required aiScore) required errors in
  let errors := fold_left (check_score_range aiScore) scoreFields errors in
  {| isValid := Nat.eqb (length errors) 0; errors := errors |}.

Definition check_weight_range (criteria : object) (errors : list string)
    (field : string) : list string :=
  if present (get criteria field) then
    if not_number_in (F64.of_Z 0) (F64.of_Z 1) (get criteria field)
    then errors ++ [field +:+ " must be a number between 0 and 1"]
    else errors
  else errors.

Section Engine.
Context `{Builtins}.

(** [weightFields.reduce((sum, field) => sum + (criteria[field] || 0), 0)] *)
Definition totalWeight (criteria : object) : value :=
  fold_left
    (fun sum field => js_add sum (js_or (get criteria field) (VNumber (F64.of_Z 0))))
    weightFields (VNumber (F64.of_Z 0)).

(** [Math.abs(totalWeight - 1.0) > 0.01] *)
Definition off_by_more_than_tolerance (total : value) : bool :=
  F64.ltb (F64.lit 1 2) (F64.Math_abs (js_sub total (VNumber (F64.of_Z 1)))).

Definition validateCriteria (criteria : object) : ValidationResult :=
  let errors := [] in
  let errors := fold_left (check_weight_range criteria) weightFields errors in
  let total := totalWeight criteria in
  let errors :=
    if off_by_more_than_tolerance total
    then errors ++ ["Total weight must equal 1.0, got " +:+ ToString total]
    else errors in
  {| isValid := Nat.eqb (length errors) 0; errors := errors |}.

Definition entry (s w : value) : BreakdownEntry :=
  {| score := s; weight := w; contribution := js_mul s w |}.

Definition calculateFinalScore (aiScore criteria : object)
    : outcome ScoreResult :=
  let logic_score := get aiScore "logic_score" in
  let clarity_score := get aiScore "clarity_score" in
  let testing_rate := get aiScore "testing_rate" in
  let efficiency_score := with_default (VNumber (F64.of_Z 0)) (get aiScore "efficiency_score") in
  let api_ui_score := with_default (VNumber (F64.of_Z 0)) (get aiScore "api_ui_score") in
  let edge_cases_score := with_default (VNumber (F64.of_Z 0)) (get aiScore "edge_cases_score") in
  let creativity_score := with_default (VNumber (F64.of_Z 0)) (get aiScore "creativity_score") in
  let logic_weight := with_default (VNumber (F64.lit 25 2)) (get criteria "logic_weight") in
  let clarity_weight := with_default (VNumber (F64.lit 30 2)) (get criteria "clarity_weight") in
  let testing_weight := with_default (VNumber (F64.lit 0 1)) (get criteria "testing_weight") in
  let efficiency_weight := with_default (VNumber (F64.lit 0 1)) (get criteria "efficiency_weight") in
  let api_ui_weight := with_default (VNumber (F64.lit 20 2)) (get criteria "api_ui_weight") in
  let edge_cases_weight := with_default (VNumber (F64.lit 15 2)) (get criteria "edge_cases_weight") in
  let creativity_weight := with_default (VNumber (F64.lit 10 2)) (get criteria "creativity_weight") in
  let totalWeight :=
    js_add (js_add (js_add (js_add (js_add (js_add logic_weight clarity_weight)
      testing_weight) efficiency_weight) api_ui_weight) edge_cases_weight)
      creativity_weight in
  if off_by_more_than_tolerance totalWeight then
    Throws ("Weights must sum to 1.0, got " +:+ ToString totalWeight)
  else
    let logicContribution := js_mul logic_score logic_weight in
    let clarityContribution := js_mul clarity_score clarity_weight in
    let testingContribution := js_mul testing_rate testing_weight in
    let efficiencyContribution := js_mul efficiency_score efficiency_weight in
    let apiUiContribution := js_mul api_ui_score api_ui_weight in
    let edgeCasesContribution := js_mul edge_cases_score edge_cases_weight in
    let creativityContribution := js_mul creativity_score creativity_weight in
    let finalScore :=
      F64.add (F64.add (F64.add (F64.add (F64.add (F64.add logicContribution
        clarityContribution) testingContribution) efficiencyContribution)
        apiUiContribution) edgeCasesContribution) creativityContribution in
    Returns {|
      finalScore := round2 finalScore;
      logicContribution := round2 logicContribution;
      clarityContribution := round2 clarityContribution;
      testingContribution := round2 testingContribution;
      efficiencyContribution := round2 efficiencyContribution;
      apiUiContribution := round2 apiUiContribution;
      edgeCasesContribution := round2 edgeCasesContribution;
      creativityContribution := round2 creativityContribution;
      breakdown := {|
        logic := entry logic_score logic_weight;
        clarity := entry clarity_score clarity_weight;
        testing := entry testing_rate testing_weight;
        efficiency := entry efficiency_score efficiency_weight;
        apiUi := entry api_ui_score api_ui_weight;
        edgeCases := entry edge_cases_score edge_cases_weight;
        creativity := entry creativity_score creativity_weight
      |}
    |}.

(** The comparator [(a, b) => b.finalScore - a.finalScore]. *)
Definition byFinalScoreDesc (a b : object) : float :=
  js_sub (get b "finalScore") (get a "finalScore").

End Engine.

(** [Array.prototype.sort(comparefn)].  ECMAScript requires the sort to be
    stable and, for a consistent comparator, this fixes its result (see
    [Array_sort_unique]); the model is the stable insertion sort.  An element [x] stays in front of a
    later element [y] unless [comparefn(x, y) > 0]; a comparator result of
    NaN counts as [+0] (SortCompare), which is what the test [0 < v] does.
    With a comparator that is not consistent (here: a final score that is
    NaN) the order is the engine's choice, and the model's order is one of
    those ECMAScript allows, not necessarily the engine's. *)
Section ArraySort.
Context {A : Type} (comparefn : A -> A -> float).

Definition sorts_after (x y : A) : bool :=
  F64.ltb F64.zero (comparefn x y).

Fixpoint sort_insert (x : A) (sorted : list A) : list A :=
  match sorted with
  | [] => [x]
  | y :: rest =>
      if sorts_after x y then y :: sort_insert x rest else x :: y :: rest
  end.

Definition Array_sort (l : list A) : list A := foldr sort_insert [] l.
End ArraySort.

(** [{ ...score, rank: currentRank }] *)
Definition with_rank (score : object) (currentRank : nat) : object :=
  <["rank" := VNumber (F64.of_nat currentRank)]> score.

(** The update of [currentRank] in iteration [i] of the ranking loop. *)
Definition next_rank (i currentRank : nat) (previousScore : value)
    (score : object) : nat :=
  if negb (strict_eq previousScore VNull)
     && negb (strict_eq (get score "finalScore") previousScore)
  then i + 1
  else currentRank.

(** The loop [for (let i = 0; i < sortedScores.length; i++)], started at
    index [i] with the elements from [i] on; its state is [currentRank],
    [previousScore] and the array [rankedScores]. *)
Fixpoint rank_loop (i : nat) (sortedScores : list object) (currentRank : nat)
    (previousScore : value) (rankedScores : list object) : list object :=
  match sortedScores with
  | [] => rankedScores
  | score :: rest =>
      let currentRank := next_rank i currentRank previousScore score in
      rank_loop (S i) rest currentRank (get score "finalScore")
        (rankedScores ++ [with_rank score currentRank])
  end.

Section Rankings.
Context `{Builtins}.

(** The argument is [None] when the caller passes [undefined] or [null]. *)
Definition calculateRankings (scores : option (list object)) : list object :=
  match scores with
  | None | Some [] => []
  | Some scores =>
      let sortedScores := Array_sort byFinalScoreDesc scores in
      rank_loop 0 sortedScores 1 VNull []
  end.
End Rankings.

(** The ranks the loop assigns, as a sequence of their own: the value of
    [currentRank] at each push. *)
Fixpoint assigned_ranks (i : nat) (sortedScores : list object)
    (currentRank : nat) (previousScore : value) : list nat :=
  match sortedScores with
  | [] => []
  | score :: rest =>
      let currentRank := next_rank i currentRank previousScore score in
      currentRank :: assigned_ranks (S i) rest currentRank (get score "finalScore")
  end.

(** ** The ranking function over a store of shared objects

    Arrays and objects are cells of a store, reached through references, so
    that what a call writes and what it merely reads can be told apart.  An
    array holds references to objects. *)

Abbreviation loc := positive.

Record store : Type := {
  objects : gmap loc object;
  arrays : gmap loc (list loc)
}.

Definition St (A : Type) : Type := store -> A * store.

#[global] Instance St_ret : MRet St := fun A a σ => (a, σ).
#[global] Instance St_bind : MBind St :=
  fun A B k m σ => let '(a, σ') := m σ in k a σ'.

Definition deref (σ : store) (r : loc) : object := default ∅ (objects σ !! r).
Definition elements_of (σ : store) (a : loc) : list loc :=
  default [] (arrays σ !! a).

Definition new_array (elems : list loc) : St loc := fun σ =>
  let a := fresh (dom (arrays σ)) in
  (a, {| objects := objects σ; arrays := <[a := elems]> (arrays σ) |}).

Definition new_object (o : object) : St loc := fun σ =>
  let r := fresh (dom (objects σ)) in
  (r, {| objects := <[r := o]> (objects σ); arrays := arrays σ |}).

Definition read_array (a : loc) : St (list loc) := fun σ => (elements_of σ a, σ).
Definition read_object (r : loc) : St object := fun σ => (deref σ r, σ).

Definition write_array (a : loc) (elems : list loc) : St unit := fun σ =>
  (tt, {| objects := objects σ; arrays := <[a := elems]> (arrays σ) |}).

(** [a.push(r)] *)
Definition push (a r : loc) : St unit :=
  elems ← read_array a; write_array a (elems ++ [r]).

Section StoreRankings.
Context `{Builtins}.

(** [a.sort((x, y) => y.finalScore - x.finalScore)]: sorts the array [a]
    itself; the comparator reads the objects the elements refer to. *)
Definition sort_in_place (a : loc) : St unit := fun σ =>
  write_array a
    (Array_sort (fun x y => byFinalScoreDesc (deref σ x) (deref σ y))
       (elements_of σ a)) σ.

Fixpoint rank_loop_st (i : nat) (sortedScores : list loc) (currentRank : nat)
    (previousScore : value) (rankedScores : loc) : St unit :=
  match sortedScores with
  | [] => mret tt
  | r :: rest =>
      score ← read_object r;
      let currentRank := next_rank i currentRank previousScore score in
      ranked ← new_object (with_rank score currentRank);
      _ ← push rankedScores ranked;
      rank_loop_st (S i) rest currentRank (get score "finalScore") rankedScores
  end.

Definition calculateRankings_st (scores : option loc) : St loc :=
  match scores with
  | None => new_array []
  | Some scores =>
      elems ← read_array scores;
      if Nat.eqb (length elems) 0 then new_array []
      else
        sortedScores ← new_array elems;
        _ ← sort_in_place sortedScores;
        rankedScores ← new_array [];
        sorted ← read_array sortedScores;
        _ ← rank_loop_st 0 sorted 1 VNull rankedScores;
        mret rankedScores
  end.
End StoreRankings.

(** ** Example data *)

(** An interpretation of the two conversions for running closed examples;
    none of the examples has a string among its operands. *)
Definition example_builtins : Builtins :=
  {| NumberToString := fun _ => "NaN"%string;
     StringToNumber := fun _ => F64.NaN |}.

Definition num (m : Z) (k : nat) : value := VNumber (F64.lit m k).

(** Score objects as [processChallengeScores] builds them, reduced to the
    properties the ranking reads. *)
Definition scored (userId : string) (finalScore : float) : object :=
  {[ "userId" := VString userId; "finalScore" := VNumber finalScore ]}.

(** Two users at 95.00 followed by one at 86.50. *)
Definition podium : list object :=
  [ scored "ada" (F64.lit 9500 2);
    scored "bob" (F64.lit 9500 2);
    scored "cyd" (F64.lit 8650 2) ].

(** The violations the two validators look for, field by field. *)
Definition missing (aiScore : object) (field : string) : bool :=
  negb (present (get aiScore field)).

Definition score_out_of_range (aiScore : object) (field : string) : bool :=
  present (get aiScore field)
  && not_number_in (F64.of_Z 0) (F64.of_Z 100) (get aiScore field).

Definition weight_out_of_range (criteria : object) (field : string) : bool :=
  present (get criteria field)
  && not_number_in (F64.of_Z 0) (F64.of_Z 1) (get criteria field).

(** The criteria posted by [test-api.js], and the first score it submits. *)
Definition test_criteria : object :=
  {[ "logic_weight" := num 4 1; "clarity_weight" := num 3 1;
     "testing_weight" := num 3 1; "efficiency_weight" := num 0 1 ]}.

Definition test_score : object :=
  {[ "user_id" := VString "test_user_1";
     "challenge_id" := VString "test-challenge-1";
     "ai_score" := num 950 1; "code_quality" := num 900 1;
     "testing_rate" := num 1000 1; "logic_score" := num 950 1;
     "clarity_score" := num 900 1; "efficiency_score" := num 0 1;
     "email" := VString "test1@example.com" ]}.

(** The same criteria with the three remaining weights written out as 0. *)
Definition test_criteria_explicit : object :=
  <["api_ui_weight" := num 0 1]>
    (<["edge_cases_weight" := num 0 1]>
       (<["creativity_weight" := num 0 1]> test_criteria)).

(** A submission whose logic score is off the scale. *)
Definition off_scale_score : object :=
  <["logic_score" := num 150 0]> test_score.

(** A submission with logic score 0.5: under the default weights its logic
    contribution is 0.5 * 0.25 = 0.125. *)
Definition half_point_score : object :=
  {[ "logic_score" := num 5 1; "clarity_score" := num 0 0;
     "testing_rate" := num 0 0 ]}.

Section AfterDefaults.
Context `{Builtins}.

(** The weights as [calculateFinalScore] reads them: the destructuring
    defaults stand in for the weights that are [undefined]. *)
Definition weights_after_defaults (criteria : object) : list value :=
  [ with_default (VNumber (F64.lit 25 2)) (get criteria "logic_weight");
    with_default (VNumber (F64.lit 30 2)) (get criteria "clarity_weight");
    with_default (VNumber (F64.lit 0 1)) (get criteria "testing_weight");
    with_default (VNumber (F64.lit 0 1)) (get criteria "efficiency_weight");
    with_default (VNumber (F64.lit 20 2)) (get criteria "api_ui_weight");
    with_default (VNumber (F64.lit 15 2)) (get criteria "edge_cases_weight");
    with_default (VNumber (F64.lit 10 2)) (get criteria "creativity_weight") ].

Definition sum_left (ws : list value) : value :=
  match ws with
  | [] => VUndefined
  | w :: ws => fold_left js_add ws w
  end.

End AfterDefaults.

(** The sub-scores of the specification's worked example. *)
Definition example_scores : object :=
  {[ "logic_score" := num 95 0; "clarity_score" := num 90 0;
     "testing_rate" := num 100 0; "efficiency_score" := num 0 0 ]}.

(** A store holding the podium: three score objects and the array of
    references to them that is passed to the ranking. *)
Definition podium_store : store :=
  {| objects := list_to_map (zip [1; 2; 3]%positive podium);
     arrays := {[ 1%positive := [1; 2; 3]%positive ]} |}.

(** ** Collections with numeric final scores *)

(** The entry's [finalScore] is the binary64 number [x]. *)
Definition has_final_score (entry : object) (x : float) : Prop :=
  get entry "finalScore" = VNumber x ∧ F64.is_double x = true.

(** Each number is at most the one before it. *)
Definition descending (xs : list float) : Prop :=
  ∀ k x y, xs !! k = Some x → xs !! S k = Some y → F64.leb y x = true.

(** The entry's final score equals [v], as [===] has it. *)
Definition scored_at (v : float) (entry : object) : bool :=
  strict_eq (get entry "finalScore") (VNumber v).

(** [a] ranks at least as high as [b]: both final scores are numbers and
    [b]'s is at most [a]'s. *)
Definition score_ge (a b : object) : Prop :=
  ∃ x y, get a "finalScore" = VNumber x ∧ get b "finalScore" = VNumber y
         ∧ F64.leb y x = true.

(** The entry's final score is a binary64 number other than NaN. *)
Definition numeric (entry : object) : Prop :=
  ∃ x, has_final_score entry x ∧ F64.is_nan x = false.

(** Three entries that arrive out of order, two of them tied. *)
Definition arrivals : list object :=
  [ scored "cyd" (F64.lit 8650 2);
    scored "ada" (F64.lit 9500 2);
    scored "bob" (F64.lit 9500 2) ].

Definition podium_scores : list float :=
  [F64.lit 9500 2; F64.lit 9500 2; F64.lit 8650 2].

(** ** Weight sets, as the specification words them *)

(** A value that parsed JSON can hold: its numbers are binary64 values
    other than NaN. *)
Definition json_value (v : value) : Prop :=
  match v with
  | VNumber x => F64.is_double x = true ∧ F64.is_nan x = false
  | _ => True
  end.

(** The weights of [criteria] arrived as JSON. *)
Definition json_weights (criteria : object) : Prop :=
  ∀ field, field ∈ weightFields → json_value (get criteria field).

(** [v] is a number in [[lo, hi]]. *)
Definition number_in (lo hi : float) (v : value) : Prop :=
  ∃ x, v = VNumber x ∧ F64.leb lo x = true ∧ F64.leb x hi = true.

(** What a weight contributes to the sum: itself, or 0 when it is missing. *)
Definition weight_or_zero (v : value) : float :=
  match v with
  | VNumber x => x
  | _ => F64.of_Z 0
  end.

(** The sum over the seven canonical weight names, added up in their order
    starting from 0. *)
Definition weight_sum (criteria : object) : float :=
  fold_left (λ sum field, F64.add sum (weight_or_zero (get criteria field)))
    weightFields (F64.of_Z 0).

(** The default weights spelled out, and a weight set that sums to 1.1. *)
Definition default_criteria : object :=
  {[ "logic_weight" := num 25 2; "clarity_weight" := num 30 2;
     "testing_weight" := num 0 1; "efficiency_weight" := num 0 1;
     "api_ui_weight" := num 20 2; "edge_cases_weight" := num 15 2;
     "creativity_weight" := num 10 2 ]}.

Definition heavy_criteria : object :=
  {[ "logic_weight" := num 5 1; "clarity_weight" := num 6 1 ]}.

(** ** processChallengeScores

    The objects [processChallengeScores] builds have, beside their
    primitive properties, the nested [breakdown] of the calculation.  Such
    an object is a pair of a property bag and what it carries along; the
    ranking reads [finalScore] in the bag and copies the rest. *)

Section RankingsCarrying.
Context `{Builtins} {T : Type}.

(** The ranking loop on objects that carry a [T]: [{ ...score, rank }]
    copies what the object carries. *)
Fixpoint rank_loop_carrying (i : nat) (sortedScores : list (object * T))
    (currentRank : nat) (previousScore : value)
    (rankedScores : list (object * T)) : list (object * T) :=
  match sortedScores with
  | [] => rankedScores
  | score :: rest =>
      let currentRank := next_rank i currentRank previousScore score.1 in
      rank_loop_carrying (S i) rest currentRank (get score.1 "finalScore")
        (rankedScores ++ [(with_rank score.1 currentRank, score.2)])
  end.

(** [calculateRankings] on such objects. *)
Definition calculateRankings_carrying (scores : option (list (object * T)))
    : list (object * T) :=
  match scores with
  | None | Some [] => []
  | Some scores =>
      let sortedScores :=
        Array_sort (fun a b => byFinalScoreDesc a.1 b.1) scores in
      rank_loop_carrying 0 sortedScores 1 VNull []
  end.

End RankingsCarrying.

(** [Array.prototype.map] with a callback that may throw: the first throw
    ends the call. *)
Fixpoint Array_map {A B : Type} (callback : A -> outcome B) (l : list A)
    : outcome (list B) :=
  match l with
  | [] => Returns []
  | x :: rest =>
      match callback x with
      | Throws message => Throws message
      | Returns y =>
          match Array_map callback rest with
          | Throws message => Throws message
          | Returns ys => Returns (y :: ys)
          end
      end
  end.

(** The primitive properties that [...calculation] spreads. *)
Definition calculation_properties (calculation : ScoreResult) : object :=
  {[ "finalScore" := VNumber (finalScore calculation);
     "logicContribution" := VNumber (logicContribution calculation);
     "clarityContribution" := VNumber (clarityContribution calculation);
     "testingContribution" := VNumber (testingContribution calculation);
     "efficiencyContribution" := VNumber (efficiencyContribution calculation);
     "apiUiContribution" := VNumber (apiUiContribution calculation);
     "edgeCasesContribution" := VNumber (edgeCasesContribution calculation);
     "creativityContribution" := VNumber (creativityContribution calculation) ]}.

(** [{ userId: aiScore.user_id, challengeId: aiScore.challenge_id,
       finalScore: calculation.finalScore, ...calculation }]: the properties
    spread last win. *)
Definition final_score_object (aiScore : object) (calculation : ScoreResult)
    : object * Breakdown :=
  (calculation_properties calculation
   ∪ {[ "userId" := get aiScore "user_id";
        "challengeId" := get aiScore "challenge_id";
        "finalScore" := VNumber (finalScore calculation) ]},
   breakdown calculation).

Section ProcessChallengeScores.
Context `{Builtins}.

(** The callback of [aiScores.map]. *)
Definition score_one (criteria aiScore : object)
    : outcome (object * Breakdown) :=
  match calculateFinalScore aiScore criteria with
  | Throws message => Throws message
  | Returns calculation => Returns (final_score_object aiScore calculation)
  end.

(** The argument [aiScores] is [None] when the caller passes [undefined] or
    [null]. *)
Definition processChallengeScores (aiScores : option (list object))
    (criteria : object) : outcome (list (object * Breakdown)) :=
  match aiScores with
  | None | Some [] => Returns []
  | Some aiScores =>
      match Array_map (score_one criteria) aiScores with
      | Throws message => Throws message
      | Returns finalScores =>
          let rankings := calculateRankings_carrying (Some finalScores) in
          Returns rankings
      end
  end.

End ProcessChallengeScores.

(** ** Standard competition ranking *)

(** A binary64 number other than NaN. *)
Definition is_number (x : float) : Prop :=
  F64.is_double x = true ∧ F64.is_nan x = false.

(** [a]'s final score is a number strictly above [b]'s. *)
Definition outranks (a b : object) : bool :=
  match get a "finalScore", get b "finalScore" with
  | VNumber x, VNumber y => F64.ltb y x
  | _, _ => false
  end.

(** One more than the number of entries that outrank [entry]. *)
Definition competition_rank (scores : list object) (entry : object) : nat :=
  1 + length (List.filter (λ other, outranks other entry) scores).

(** ** Numbers that validated input can hold *)

(** A number that is zero or above (an infinity included). *)
Definition number_nonneg (x : float) : Prop :=
  is_number x ∧ F64.leb (F64.of_Z 0) x = true.

(** The same, infinities excluded. *)
Definition finite_nonneg (x : float) : Prop :=
  number_nonneg x ∧ F64.is_finite x = true.

(** The sub-scores of [aiScore] arrived as JSON. *)
Definition json_scores (aiScore : object) : Prop :=
  ∀ field, field ∈ scoreFields → json_value (get aiScore field).

(** The second score that [test-api.js] submits, and the two together. *)
Definition test_score_2 : object :=
  {[ "user_id" := VString "test_user_2";
     "challenge_id" := VString "test-challenge-1";
     "ai_score" := num 850 1; "code_quality" := num 800 1;
     "testing_rate" := num 900 1; "logic_score" := num 850 1;
     "clarity_score" := num 850 1; "efficiency_score" := num 0 1;
     "email" := VString "test2@example.com" ]}.

Definition test_scores : list object := [test_score; test_score_2].

(** ** The request handlers of [index.js] that call the engine

    A handler is modelled as run on its own: no other request is served
    between its awaits.  The database is any implementation of the
    adapter's methods: a method takes the database from one state to the
    next and resolves with a value or rejects.  A request body is a property
    bag with primitive values. *)

(** The JSON bodies the handlers send. *)
Inductive body (R : Type) : Type :=
| JsonError (error : string)
| JsonErrorDetails (error : string) (details : list string)
| JsonResult (result : R)
| JsonRankings (message : string) (totalParticipants : nat)
    (rankings : list (object * Breakdown)).
Arguments JsonError {R} error.
Arguments JsonErrorDetails {R} error details.
Arguments JsonResult {R} result.
Arguments JsonRankings {R} message totalParticipants rankings.

(** [res.status(status).json(json)]; [res.json] alone sends status 200. *)
Record response (R : Type) : Type := {
  status : nat;
  json : body R
}.
Arguments status {R} _.
Arguments json {R} _.

(** An awaited call on the database in state [D]. *)
Definition Db (D A : Type) : Type := D -> outcome A * D.

#[global] Instance Db_ret {D : Type} : MRet (Db D) :=
  fun A a σ => (Returns a, σ).
#[global] Instance Db_bind {D : Type} : MBind (Db D) :=
  fun A B k m σ =>
    match m σ with
    | (Returns a, σ') => k a σ'
    | (Throws message, σ') => (Throws message, σ')
    end.

(** A synchronous call that may throw, inside an async function. *)
Definition call {D A : Type} (result : outcome A) : Db D A :=
  fun σ => (result, σ).

(** [try { ... } catch (error) { res.status(500).json({ error: failure }) }]:
    the error caught is logged and not sent. *)
Definition try_catch {D R : Type} (attempt : Db D (response R))
    (failure : string) : D -> response R * D :=
  fun σ =>
    match attempt σ with
    | (Returns sent, σ') => (sent, σ')
    | (Throws _, σ') => ({| status := 500; json := JsonError failure |}, σ')
    end.

(** The methods of the adapter that the three handlers call. *)
Record Database (D R : Type) : Type := {
  setRecruiterCriteria : string -> object -> Db D R;
  getRecruiterCriteria : string -> Db D (option object);
  getAllAIScores : string -> Db D (list object);
  createUser : value -> value -> value -> Db D R;
  submitAIScore : object -> Db D R;
  saveFinalRanking : object -> Db D R
}.
Arguments setRecruiterCriteria {D R} _.
Arguments getRecruiterCriteria {D R} _.
Arguments getAllAIScores {D R} _.
Arguments createUser {D R} _.
Arguments submitAIScore {D R} _.
Arguments saveFinalRanking {D R} _.

(** The object passed to [db.saveFinalRanking] for one ranking. *)
Definition ranking_record (ranking : object * Breakdown) : object :=
  {[ "userId" := get ranking.1 "userId";
     "challengeId" := get ranking.1 "challengeId";
     "finalScore" := get ranking.1 "finalScore";
     "rank" := get ranking.1 "rank";
     "logicContribution" := get ranking.1 "logicContribution";
     "clarityContribution" := get ranking.1 "clarityContribution";
     "testingContribution" := get ranking.1 "testingContribution";
     "efficiencyContribution" := get ranking.1 "efficiencyContribution";
     "apiUiContribution" := get ranking.1 "apiUiContribution";
     "edgeCasesContribution" := get ranking.1 "edgeCasesContribution";
     "creativityContribution" := get ranking.1 "creativityContribution" ]}.

Section Handlers.
Context `{Builtins} {D R : Type} (db : Database D R).

(** [POST /api/challenges/:challengeId/criteria] *)
Definition post_criteria (challengeId : string) (criteria : object)
    : D -> response R * D :=
  try_catch
    (let validation := validateCriteria criteria in
     if negb (isValid validation) then
       mret {| status := 400;
               json := JsonErrorDetails "Invalid criteria" (errors validation) |}
     else
       result ← setRecruiterCriteria db challengeId criteria;
       mret {| status := 201; json := JsonResult result |})
    "Failed to set criteria".

(** [POST /api/scores] *)
Definition post_scores (aiScore : object) : D -> response R * D :=
  try_catch
    (let validation := validateAIScore aiScore in
     if negb (isValid validation) then
       mret {| status := 400;
               json := JsonErrorDetails "Invalid AI score" (errors validation) |}
     else
       _ ← createUser db (get aiScore "user_id") (get aiScore "user_id")
             (get aiScore "email");
       result ← submitAIScore db aiScore;
       mret {| status := 201; json := JsonResult result |})
    "Failed to submit AI score".

(** [for (const ranking of rankings) { await db.saveFinalRanking({...}) }] *)
Fixpoint save_rankings (rankings : list (object * Breakdown)) : Db D unit :=
  match rankings with
  | [] => mret tt
  | ranking :: rest =>
      _ ← saveFinalRanking db (ranking_record ranking);
      save_rankings rest
  end.

(** [POST /api/challenges/:challengeId/calculate-rankings] *)
Definition post_calculate_rankings (challengeId : string)
    : D -> response R * D :=
  try_catch
    (criteria ← getRecruiterCriteria db challengeId;
     match criteria with
     | None =>
         mret {| status := 404;
                 json := JsonError
                           "Recruiter criteria not found for this challenge" |}
     | Some criteria =>
         aiScores ← getAllAIScores db challengeId;
         if Nat.eqb (length aiScores) 0 then
           mret {| status := 404;
                   json := JsonError "No AI scores found for this challenge" |}
         else
           rankings ← call (processChallengeScores (Some aiScores) criteria);
           _ ← save_rankings rankings;
           mret {| status := 200;
                   json := JsonRankings "Rankings calculated successfully"
                             (length rankings) (take 10 rankings) |}
     end)
    "Failed to calculate rankings".

End Handlers.

(** A database for running closed examples: its state is the list of the
    records saved so far, every call resolves, and the reads answer with
    the given criteria and submissions. *)
Definition example_db (criteria : option object) (aiScores : list object)
    : Database (list object) unit :=
  {| setRecruiterCriteria := fun _ _ σ => (Returns tt, σ);
     getRecruiterCriteria := fun _ σ => (Returns criteria, σ);
     getAllAIScores := fun _ σ => (Returns aiScores, σ);
     createUser := fun _ _ _ σ => (Returns tt, σ);
     submitAIScore := fun aiScore σ => (Returns tt, σ ++ [aiScore]);
     saveFinalRanking := fun record σ => (Returns tt, σ ++ [record]) |}.

(** ** The two sums of weights *)

(** What [validateCriteria] adds up, weight by weight. *)
Definition weights_or_zero (criteria : object) : list float :=
  (λ field, weight_or_zero (get criteria field)) <$> weightFields.

Section WeightsAsNumbers.
Context `{Builtins}.

(** What [calculateFinalScore] adds up, weight by weight. *)
Definition weights_as_numbers (criteria : object) : list float :=
  ToNumber <$> weights_after_defaults criteria.

End WeightsAsNumbers.

(** The weights whose default in [calculateFinalScore] is not zero. *)
Definition defaulted_nonzero : list string :=
  ["logic_weight"; "clarity_weight"; "api_ui_weight"; "edge_cases_weight";
   "creativity_weight"]%string.

(** The same number, the sign of a zero apart. *)
Definition same_number (x y : float) : Prop :=
  x = y ∨ ∃ s s', x = S754_zero s ∧ y = S754_zero s'.

(** A weight that is a JSON value and passed the range test. *)
Definition checked_weight (v : value) : Prop :=
  json_value v
  ∧ (present v = true → number_in (F64.of_Z 0) (F64.of_Z 1) v).

(** ** Violations, as the specification words them *)









(** Three entries, the second with the final score NaN that
    [calculateFinalScore] gives a submission without [logic_score]. *)
Definition unscored_between : list object :=
  [ scored "ada" (F64.of_Z 1); scored "bob" F64.NaN;
    scored "cyd" (F64.of_Z 2) ].

(** * Properties *)

(** ** The ranking loop *)

Section RankLoop.

(** The loop pushes, for each element, the element with the rank assigned
    at that iteration. *)
Lemma rank_loop_spec (sortedScores : list object) :
  ∀ i currentRank previousScore rankedScores,
    rank_loop i sortedScores currentRank previousScore rankedScores
    = rankedScores
      ++ zip_with with_rank sortedScores
           (assigned_ranks i sortedScores currentRank previousScore).
Proof.
  induction sortedScores as [|score rest IH]; intros i r p acc; simpl.
  - by rewrite app_nil_r.
  - rewrite IH, <- app_assoc. reflexivity.
Qed.

Lemma assigned_ranks_length (sortedScores : list object) :
  ∀ i currentRank previousScore,
    length (assigned_ranks i sortedScores currentRank previousScore)
    = length sortedScores.
Proof.
  induction sortedScores as [|score rest IH]; intros; simpl; [done|].
  by rewrite IH.
Qed.

Lemma next_rank_first (score : object) : next_rank 0 1 VNull score = 1.
Proof. reflexivity. Qed.

Lemma next_rank_bounds i currentRank previousScore score :
  currentRank ≤ i + 1 →
  currentRank ≤ next_rank i currentRank previousScore score ≤ i + 1.
Proof.
  intros Hle. unfold next_rank.
  destruct (_ && _); lia.
Qed.

(** While [currentRank] is at most the position about to be filled, the
    ranks assigned from there on never fall below it, never decrease, and
    never exceed the position they are assigned at. *)
Lemma assigned_ranks_bounds (sortedScores : list object) :
  ∀ i currentRank previousScore,
    currentRank ≤ i + 1 →
    let ranks := assigned_ranks i sortedScores currentRank previousScore in
    (∀ k r, ranks !! k = Some r → currentRank ≤ r ≤ i + k + 1)
    ∧ (∀ k r r', ranks !! k = Some r → ranks !! S k = Some r' → r ≤ r').
Proof.
  induction sortedScores as [|score rest IH]; intros i cr p Hle; simpl.
  - split; intros k; intros; by rewrite ?lookup_nil in *.
  - pose proof (next_rank_bounds i cr p score Hle) as Hn.
    destruct (IH (S i) (next_rank i cr p score) (get score "finalScore"))
      as [Hb Hm]; [lia|].
    split.
    + intros [|k] r Hk; simpl in Hk.
      * inversion Hk; subst. lia.
      * apply Hb in Hk. lia.
    + intros [|k] r r' Hk Hk'; simpl in Hk, Hk'.
      * inversion Hk; subst. apply Hb in Hk'. lia.
      * eauto.
Qed.

End RankLoop.

Section RankingProperties.
Context `{Builtins}.

(** The output of [calculateRankings] on a non-empty collection: the
    sorted collection, each entry with its assigned rank. *)
Lemma calculateRankings_nonempty (scores : list object) :
  scores ≠ [] →
  calculateRankings (Some scores)
  = zip_with with_rank (Array_sort byFinalScoreDesc scores)
      (assigned_ranks 0 (Array_sort byFinalScoreDesc scores) 1 VNull).
Proof.
  intros Hne. destruct scores as [|s scores]; [done|].
  unfold calculateRankings. by rewrite rank_loop_spec.
Qed.

(** C8: an empty collection (and likewise a missing one) yields an empty
    ranking; no error is raised, the function returns. *)
Theorem C8_empty_input_empty_ranking :
  calculateRankings (Some []) = [] ∧ calculateRankings None = [].
Proof. split; reflexivity. Qed.

End RankingProperties.

(** ** The sort, for any comparator *)

Section ArraySortFacts.
Context {A : Type} (comparefn : A → A → float).

Lemma sort_insert_perm (x : A) (l : list A) :
  sort_insert comparefn x l ≡ₚ x :: l.
Proof.
  induction l as [|y l IH]; simpl; [done|].
  destruct (sorts_after comparefn x y); [|done].
  rewrite IH. apply Permutation_swap.
Qed.

Lemma Array_sort_perm (l : list A) : Array_sort comparefn l ≡ₚ l.
Proof.
  induction l as [|x l IH]; simpl; [done|].
  by rewrite sort_insert_perm, IH.
Qed.

Lemma Array_sort_length (l : list A) :
  length (Array_sort comparefn l) = length l.
Proof. apply Permutation_length, Array_sort_perm. Qed.

Lemma Array_sort_nil_inv (l : list A) : Array_sort comparefn l = [] → l = [].
Proof.
  intros Hs. apply Permutation_nil_r. rewrite <- Hs.
  symmetry. apply Array_sort_perm.
Qed.

(** Elements that the comparator never orders after their successor are
    left where they are. *)
Lemma Array_sort_in_order (l : list A) :
  (∀ k x y, l !! k = Some x → l !! S k = Some y →
     sorts_after comparefn x y = false) →
  Array_sort comparefn l = l.
Proof.
  induction l as [|x l IH]; intros Hadj; simpl; [done|].
  rewrite IH by (intros k; apply (Hadj (S k))).
  destruct l as [|y l]; simpl; [done|].
  by rewrite (Hadj 0 x y).
Qed.

(** Stability: a class of elements that the comparator never orders among
    themselves keeps its order of arrival. *)
Lemma sort_insert_filter (P : A → bool) (x : A) (l : list A) :
  (∀ y, y ∈ l → P x = true → P y = true → sorts_after comparefn x y = false) →
  List.filter P (sort_insert comparefn x l) = List.filter P (x :: l).
Proof.
  induction l as [|y l IH]; intros Hcls; [done|].
  simpl sort_insert.
  destruct (sorts_after comparefn x y) eqn:Hxy; [|done].
  assert (Hl : List.filter P (sort_insert comparefn x l) = List.filter P (x :: l)).
  { apply IH. intros z Hz. apply Hcls. by right. }
  simpl in *. rewrite Hl.
  destruct (P x) eqn:Hx, (P y) eqn:Hy; try done.
  rewrite Hcls in Hxy; [done| by left | done | done].
Qed.

Lemma Array_sort_filter (P : A → bool) (l : list A) :
  (∀ x y, x ∈ l → y ∈ l → P x = true → P y = true →
     sorts_after comparefn x y = false) →
  List.filter P (Array_sort comparefn l) = List.filter P l.
Proof.
  induction l as [|x l IH]; intros Hcls; [done|].
  simpl Array_sort. rewrite sort_insert_filter.
  - simpl. rewrite IH; [done|].
    intros y z Hy Hz. apply Hcls; by right.
  - intros y Hy. apply Hcls; [by left|].
    right. by rewrite <- (Array_sort_perm l).
Qed.

End ArraySortFacts.

(** Sorting references by what they refer to is sorting what they refer
    to. *)
Lemma Array_sort_map {A B : Type} (f : A → B) (comparefn : B → B → float)
    (l : list A) :
  f <$> Array_sort (λ x y, comparefn (f x) (f y)) l
  = Array_sort comparefn (f <$> l).
Proof.
  induction l as [|x l IH]; [done|].
  rewrite fmap_cons.
  change (Array_sort comparefn (f x :: (f <$> l)))
    with (sort_insert comparefn (f x) (Array_sort comparefn (f <$> l))).
  rewrite <- IH.
  change (Array_sort (λ x y, comparefn (f x) (f y)) (x :: l))
    with (sort_insert (λ x y, comparefn (f x) (f y)) x
            (Array_sort (λ x y, comparefn (f x) (f y)) l)).
  generalize (Array_sort (λ x y, comparefn (f x) (f y)) l). intros s.
  induction s as [|y s IHs]; [done|].
  rewrite fmap_cons. simpl sort_insert.
  unfold sorts_after at 1 2.
  destruct (F64.ltb _ _); [by rewrite fmap_cons, IHs | done].
Qed.

(** ** What a ranked entry reads as

    [{ ...score, rank: r }] has [r] as its [rank] and every other property
    as [score] has it. *)

Lemma with_rank_rank (score : object) (r : nat) :
  get (with_rank score r) "rank" = VNumber (F64.of_nat r).
Proof. unfold get, with_rank. by rewrite lookup_insert_eq. Qed.

Lemma with_rank_other (score : object) (r : nat) (property : string) :
  property ≠ "rank"%string →
  get (with_rank score r) property = get score property.
Proof. intros Hp. unfold get, with_rank. by rewrite lookup_insert_ne. Qed.

Lemma ranked_rank_reads (sorted : list object) :
  ∀ ranks, length ranks = length sorted →
  (λ entry, get entry "rank") <$> zip_with with_rank sorted ranks
  = (λ r, VNumber (F64.of_nat r)) <$> ranks.
Proof.
  induction sorted as [|s sorted IH]; intros [|r ranks] Hlen; try done.
  cbn [zip_with fmap list_fmap]. rewrite with_rank_rank. f_equal.
  apply IH. by injection Hlen.
Qed.

Lemma ranked_other_reads (property : string) (sorted : list object) :
  property ≠ "rank"%string →
  ∀ ranks, length ranks = length sorted →
  (λ entry, get entry property) <$> zip_with with_rank sorted ranks
  = (λ score, get score property) <$> sorted.
Proof.
  intros Hp.
  induction sorted as [|s sorted IH]; intros [|r ranks] Hlen; try done.
  cbn [zip_with fmap list_fmap]. rewrite with_rank_other by done. f_equal.
  apply IH. by injection Hlen.
Qed.

Section RankInvariants.
Context `{Builtins}.

(** C9: on a non-empty collection the [rank] properties read off the
    output entries, in output order, are numbers [ranks] of which the first
    is 1, which never decrease along the sequence, and each of which is at
    most the 1-based position of its entry.  The output has one entry for
    each entry of the input: in every property other than [rank] its
    entries read as the input entries do, in some arrangement. *)
Theorem C9_rank_invariants (scores : list object) :
  scores ≠ [] →
  ∃ (sorted : list object) (ranks : list nat),
    (λ entry, get entry "rank") <$> calculateRankings (Some scores)
    = (λ r, VNumber (F64.of_nat r)) <$> ranks
    ∧ length ranks = length scores
    ∧ ranks !! 0 = Some 1
    ∧ (∀ k r r', ranks !! k = Some r → ranks !! S k = Some r' → r ≤ r')
    ∧ (∀ k r, ranks !! k = Some r → r ≤ k + 1)
    ∧ sorted ≡ₚ scores
    ∧ (∀ property, property ≠ "rank"%string →
         (λ entry, get entry property) <$> calculateRankings (Some scores)
         = (λ score, get score property) <$> sorted)
    ∧ calculateRankings (Some scores) = zip_with with_rank sorted ranks.
Proof.
  intros Hne.
  exists (Array_sort byFinalScoreDesc scores),
    (assigned_ranks 0 (Array_sort byFinalScoreDesc scores) 1 VNull).
  rewrite calculateRankings_nonempty by done.
  split; [apply ranked_rank_reads, assigned_ranks_length|].
  split; [by rewrite assigned_ranks_length, Array_sort_length|].
  destruct (assigned_ranks_bounds (Array_sort byFinalScoreDesc scores) 0 1 VNull)
    as [Hb Hm]; [lia|].
  split; [|split; [|split; [|split; [|split]]]].
  - destruct (Array_sort byFinalScoreDesc scores) as [|s sorted] eqn:Hs.
    + by apply Array_sort_nil_inv in Hs.
    + reflexivity.
  - exact Hm.
  - intros k r Hk. apply Hb in Hk. lia.
  - apply Array_sort_perm.
  - intros property Hp.
    apply ranked_other_reads; [done|apply assigned_ranks_length].
  - done.
Qed.

End RankInvariants.

Lemma C9_rank_invariants_witness :
  podium ≠ [] ∧
  ∃ (sorted : list object) (ranks : list nat),
    (λ entry, get entry "rank")
      <$> @calculateRankings example_builtins (Some podium)
    = (λ r, VNumber (F64.of_nat r)) <$> ranks
    ∧ length ranks = length podium
    ∧ ranks !! 0 = Some 1
    ∧ (∀ k r r', ranks !! k = Some r → ranks !! S k = Some r' → r ≤ r')
    ∧ (∀ k r, ranks !! k = Some r → r ≤ k + 1)
    ∧ sorted ≡ₚ podium
    ∧ (∀ property, property ≠ "rank"%string →
         (λ entry, get entry property)
           <$> @calculateRankings example_builtins (Some podium)
         = (λ score, get score property) <$> sorted)
    ∧ @calculateRankings example_builtins (Some podium)
      = zip_with with_rank sorted ranks.
Proof.
  split; [discriminate|].
  apply (@C9_rank_invariants example_builtins podium). discriminate.
Defined.

(** ** The validators collect every violation *)

Section Collecting.

(** A loop that pushes a message for each offending field ends with the
    messages of all offending fields, in field order. *)
Lemma fold_left_push (offends : string → bool) (message : string → string)
    (fields : list string) :
  ∀ errors,
    fold_left
      (λ errors field,
         if offends field then errors ++ [message field] else errors)
      fields errors
    = errors ++ (message <$> List.filter offends fields).
Proof.
  induction fields as [|f fields IH]; intros errors; simpl.
  - by rewrite app_nil_r.
  - rewrite IH. destruct (offends f); simpl; [|done].
    by rewrite <- app_assoc.
Qed.

Lemma fold_left_same {A B : Type} (f g : A → B → A) (l : list B) :
  (∀ a b, f a b = g a b) → ∀ a, fold_left f l a = fold_left g l a.
Proof.
  intros Hfg. induction l as [|b l IH]; intros a; simpl; [done|].
  by rewrite Hfg, IH.
Qed.

Lemma validateAIScore_errors (aiScore : object) :
  errors (validateAIScore aiScore)
  = ((λ field, "Missing required field: " +:+ field)
       <$> List.filter (missing aiScore) required)
    ++ ((λ field, field +:+ " must be a number between 0 and 100")
          <$> List.filter (score_out_of_range aiScore) scoreFields).
Proof.
  unfold validateAIScore; cbn [errors].
  rewrite <- (fold_left_push (score_out_of_range aiScore)).
  rewrite <- (app_nil_l (_ <$> List.filter (missing aiScore) required)).
  rewrite <- (fold_left_push (missing aiScore)).
  apply fold_left_same. intros errs f.
  unfold check_score_range, score_out_of_range.
  by destruct (present _), (not_number_in _ _ _).
Qed.

Context `{Builtins}.

Lemma validateCriteria_errors (criteria : object) :
  errors (validateCriteria criteria)
  = ((λ field, field +:+ " must be a number between 0 and 1")
       <$> List.filter (weight_out_of_range criteria) weightFields)
    ++ (if off_by_more_than_tolerance (totalWeight criteria)
        then ["Total weight must equal 1.0, got "
              +:+ ToString (totalWeight criteria)]
        else []).
Proof.
  unfold validateCriteria; cbn [errors].
  assert (Hrange :
    fold_left (check_weight_range criteria) weightFields []
    = (λ field, field +:+ " must be a number between 0 and 1")
        <$> List.filter (weight_out_of_range criteria) weightFields).
  { rewrite <- (app_nil_l (_ <$> _)).
    rewrite <- (fold_left_push (weight_out_of_range criteria)).
    apply fold_left_same. intros errs f.
    unfold check_weight_range, weight_out_of_range.
    by destruct (present _), (not_number_in _ _ _). }
  rewrite Hrange.
  destruct (off_by_more_than_tolerance _); [done|by rewrite app_nil_r].
Qed.

End Collecting.

(** ** calculateFinalScore *)

Section FinalScore.
Context `{Builtins}.

Lemma calculateFinalScore_throws_iff (aiScore criteria : object) :
  (∃ message, calculateFinalScore aiScore criteria = Throws message)
  ↔ off_by_more_than_tolerance (sum_left (weights_after_defaults criteria))
    = true.
Proof.
  unfold calculateFinalScore, weights_after_defaults, sum_left; cbn [fold_left].
  destruct (off_by_more_than_tolerance _); split; intros Hx; eauto.
  - by destruct Hx.
  - done.
Qed.

End FinalScore.

Section WorkedExample.
Context `{Builtins}.

(** C5 (the code departs from the claim): with the weights
    {logic 0.4, clarity 0.3, testing 0.3, efficiency 0.0} and the three
    other weights absent, [calculateFinalScore] substitutes its defaults
    0.20, 0.15 and 0.10 for them, finds the total 1.45 and throws, although
    [validateCriteria] accepts the same weights.  Only with the three
    weights written out as 0 does it return 95.00 = 38 + 27 + 30 + 0. *)
Theorem C5_example_weights_throw :
  calculateFinalScore example_scores test_criteria
  = Throws ("Weights must sum to 1.0, got " +:+ NumberToString (F64.lit 145 2))
  ∧ isValid (validateCriteria test_criteria) = true
  ∧ ∃ r, calculateFinalScore example_scores test_criteria_explicit = Returns r
      ∧ finalScore r = F64.lit 9500 2
      ∧ logicContribution r = F64.lit 3800 2
      ∧ clarityContribution r = F64.lit 2700 2
      ∧ testingContribution r = F64.lit 3000 2
      ∧ efficiencyContribution r = F64.lit 0 2.
Proof.
  split; [vm_compute; reflexivity|].
  split; [vm_compute; reflexivity|].
  eexists. split; [vm_compute; reflexivity|].
  repeat split; vm_compute; reflexivity.
Qed.

(** What [calculateFinalScore] does with the sub-scores: it uses them as
    given, the four optional ones defaulting to 0 when [undefined]. *)
Lemma calculateFinalScore_returns (aiScore criteria : object) (r : ScoreResult) :
  calculateFinalScore aiScore criteria = Returns r →
  let b := breakdown r in
  score (logic b) = get aiScore "logic_score"
  ∧ score (clarity b) = get aiScore "clarity_score"
  ∧ score (testing b) = get aiScore "testing_rate"
  ∧ score (efficiency b)
    = with_default (VNumber (F64.of_Z 0)) (get aiScore "efficiency_score")
  ∧ score (apiUi b)
    = with_default (VNumber (F64.of_Z 0)) (get aiScore "api_ui_score")
  ∧ score (edgeCases b)
    = with_default (VNumber (F64.of_Z 0)) (get aiScore "edge_cases_score")
  ∧ score (creativity b)
    = with_default (VNumber (F64.of_Z 0)) (get aiScore "creativity_score")
  ∧ Forall (λ e, contribution e = js_mul (score e) (weight e))
      [logic b; clarity b; testing b; efficiency b; apiUi b; edgeCases b;
       creativity b].
Proof.
  unfold calculateFinalScore.
  destruct (off_by_more_than_tolerance _); [discriminate|].
  intros [= <-]. cbn [breakdown logic clarity testing efficiency apiUi
    edgeCases creativity entry score weight contribution].
  repeat split; try reflexivity.
  repeat constructor.
Qed.

(** C4, as the code has it: [calculateFinalScore] does not run the field
    checks.  Whether it throws depends on the weights alone: it throws
    exactly when the weights, after defaults, sum to a value more than 0.01
    away from 1.0, and what it throws is an Error with the one message
    "Weights must sum to 1.0, got <total>", the same whatever the
    sub-scores.  Otherwise it returns a ScoreResult for any sub-scores,
    computed from them as given: no score is clamped, and only the four
    optional sub-scores default to 0 when absent. *)
Theorem C4_no_field_checks_in_aggregation (aiScore criteria : object) :
  (off_by_more_than_tolerance (sum_left (weights_after_defaults criteria))
   = true →
   calculateFinalScore aiScore criteria
   = Throws ("Weights must sum to 1.0, got "
             +:+ ToString (sum_left (weights_after_defaults criteria))))
  ∧ (∀ message,
       calculateFinalScore aiScore criteria = Throws message →
       off_by_more_than_tolerance (sum_left (weights_after_defaults criteria))
       = true
       ∧ message
         = "Weights must sum to 1.0, got "
           +:+ ToString (sum_left (weights_after_defaults criteria)))
  ∧ (∀ aiScore' message,
       calculateFinalScore aiScore criteria = Throws message →
       calculateFinalScore aiScore' criteria = Throws message)
  ∧ (off_by_more_than_tolerance (sum_left (weights_after_defaults criteria))
     = false →
     ∃ r, calculateFinalScore aiScore criteria = Returns r
       ∧ score (logic (breakdown r)) = get aiScore "logic_score"
       ∧ score (clarity (breakdown r)) = get aiScore "clarity_score"
       ∧ score (testing (breakdown r)) = get aiScore "testing_rate"
       ∧ score (efficiency (breakdown r))
         = with_default (VNumber (F64.of_Z 0)) (get aiScore "efficiency_score")
       ∧ score (apiUi (breakdown r))
         = with_default (VNumber (F64.of_Z 0)) (get aiScore "api_ui_score")
       ∧ score (edgeCases (breakdown r))
         = with_default (VNumber (F64.of_Z 0)) (get aiScore "edge_cases_score")
       ∧ score (creativity (breakdown r))
         = with_default (VNumber (F64.of_Z 0)) (get aiScore "creativity_score")
       ∧ Forall (λ e, contribution e = js_mul (score e) (weight e))
           [logic (breakdown r); clarity (breakdown r); testing (breakdown r);
            efficiency (breakdown r); apiUi (breakdown r);
            edgeCases (breakdown r); creativity (breakdown r)]).
Proof.
  split; [|split; [|split]].
  - unfold calculateFinalScore, weights_after_defaults, sum_left;
      cbn [fold_left].
    by destruct (off_by_more_than_tolerance _).
  - intros message. unfold calculateFinalScore, weights_after_defaults,
      sum_left; cbn [fold_left].
    destruct (off_by_more_than_tolerance _); [|discriminate].
    intros Hm. split; [done|].
    exact (f_equal (λ o, match o with
                         | Throws m => m
                         | Returns _ => message
                         end) (eq_sym Hm)).
  - intros aiScore' message. unfold calculateFinalScore.
    destruct (off_by_more_than_tolerance _); [done|discriminate].
  - intros Hok.
    destruct (calculateFinalScore aiScore criteria) as [r|message] eqn:Hr.
    + exists r. split; [done|].
      exact (calculateFinalScore_returns aiScore criteria r Hr).
    + exfalso. assert (Ht : ∃ m, calculateFinalScore aiScore criteria = Throws m)
        by eauto.
      apply (proj1 (calculateFinalScore_throws_iff aiScore criteria)) in Ht.
      congruence.
Qed.

End WorkedExample.

(** C4 as stated fails: a submission with logic score 150 fails the field
    checks of [validateAIScore], and [calculateFinalScore] still returns a
    ScoreResult for it, with the score 150 in its breakdown. *)
Lemma C4_counterexample :
  isValid (validateAIScore off_scale_score) = false
  ∧ errors (validateAIScore off_scale_score)
    = ["logic_score must be a number between 0 and 100"]%string
  ∧ ∃ r, @calculateFinalScore example_builtins off_scale_score ∅ = Returns r
      ∧ score (logic (breakdown r)) = num 150 0
      ∧ logicContribution r = F64.lit 3750 2.
Proof.
  split; [vm_compute; reflexivity|].
  split; [vm_compute; reflexivity|].
  eexists. split; [vm_compute; reflexivity|].
  split; vm_compute; reflexivity.
Qed.

(** ** Rounding to two decimals *)

Section Rounding.

(** [Math.round] rounds half up: on a value [±m / 2^k] that is not stored
    with a non-negative exponent it yields the integer [n] with
    [n - 1/2 <= ±m / 2^k < n + 1/2]. *)
Lemma Math_round_half_up (s : bool) (m : positive) (e : Z) :
  (e < 0)%Z →
  ∃ n : Z,
    F64.Math_round (S754_finite s m e)
    = (if (n =? 0)%Z then S754_zero s else F64.of_Z n)
    ∧ ((2 * n - 1) * 2 ^ (- e) ≤ 2 * cond_Zopp s (Z.pos m)
       < (2 * n + 1) * 2 ^ (- e))%Z.
Proof.
  intros He.
  exists ((2 * cond_Zopp s (Z.pos m) + 2 ^ (- e)) / 2 ^ (- e + 1))%Z.
  split.
  - unfold F64.Math_round.
    destruct (Z.leb_spec 0 e) as [Hle|_]; [lia|reflexivity].
  - assert (Hpos : (0 < 2 ^ (- e))%Z) by (apply Z.pow_pos_nonneg; lia).
    rewrite Z.pow_add_r by lia. rewrite Z.pow_1_r.
    set (D := (2 ^ (- e))%Z) in *.
    set (a := (2 * cond_Zopp s (Z.pos m) + D)%Z).
    pose proof (Z.div_mod a (D * 2) ltac:(lia)) as Hdm.
    pose proof (Z.mod_pos_bound a (D * 2) ltac:(lia)) as Hb.
    nia.
Qed.

Lemma Math_round_integral (s : bool) (m : positive) (e : Z) :
  (0 ≤ e)%Z → F64.Math_round (S754_finite s m e) = S754_finite s m e.
Proof.
  intros He. unfold F64.Math_round.
  destruct (Z.leb_spec 0 e); [done|lia].
Qed.

End Rounding.

Section RoundedResult.
Context `{Builtins}.

(** C3: in a returned ScoreResult the final score is
    [Math.round(v * 100) / 100] of the unrounded sum [v] of the seven
    contributions, and each top-level contribution is
    [Math.round(v * 100) / 100] of its own unrounded contribution [v], kept
    in the breakdown: each is rounded on its own.  [Math.round] rounds
    half up on the scaled value: a scaled value [±m * 2^e] with [e < 0]
    goes to the integer [n] with [n - 1/2 <= ±m * 2^e < n + 1/2], and one
    with [0 <= e], an integer already, stays as it is.  A contribution of
    0.125 is stored as 0.13, not 0.12. *)
Theorem C3_rounding_law :
  (∀ (aiScore criteria : object) (r : ScoreResult),
     calculateFinalScore aiScore criteria = Returns r →
     let b := breakdown r in
     let scaled_round v :=
       F64.div (F64.Math_round (F64.mul v (F64.of_Z 100))) (F64.of_Z 100) in
     finalScore r
     = scaled_round
         (F64.add (F64.add (F64.add (F64.add (F64.add (F64.add
            (contribution (logic b)) (contribution (clarity b)))
            (contribution (testing b))) (contribution (efficiency b)))
            (contribution (apiUi b))) (contribution (edgeCases b)))
            (contribution (creativity b)))
     ∧ logicContribution r = scaled_round (contribution (logic b))
     ∧ clarityContribution r = scaled_round (contribution (clarity b))
     ∧ testingContribution r = scaled_round (contribution (testing b))
     ∧ efficiencyContribution r = scaled_round (contribution (efficiency b))
     ∧ apiUiContribution r = scaled_round (contribution (apiUi b))
     ∧ edgeCasesContribution r = scaled_round (contribution (edgeCases b))
     ∧ creativityContribution r = scaled_round (contribution (creativity b)))
  ∧ (∀ (s : bool) (m : positive) (e : Z),
       ((e < 0)%Z →
        ∃ n : Z,
          F64.Math_round (S754_finite s m e)
          = (if (n =? 0)%Z then S754_zero s else F64.of_Z n)
          ∧ ((2 * n - 1) * 2 ^ (- e) ≤ 2 * cond_Zopp s (Z.pos m)
             < (2 * n + 1) * 2 ^ (- e))%Z)
       ∧ ((0 ≤ e)%Z →
          F64.Math_round (S754_finite s m e) = S754_finite s m e))
  ∧ (∃ r, calculateFinalScore half_point_score ∅ = Returns r
       ∧ contribution (logic (breakdown r)) = F64.lit 125 3
       ∧ logicContribution r = F64.lit 13 2
       ∧ logicContribution r ≠ F64.lit 12 2).
Proof.
  split; [|split].
  - intros aiScore criteria r. unfold calculateFinalScore.
    destruct (off_by_more_than_tolerance _); [discriminate|].
    intros [= <-]. cbn. unfold round2. repeat split.
  - intros s m e. split; [apply Math_round_half_up|apply Math_round_integral].
  - eexists. split; [vm_compute; reflexivity|].
    split; [vm_compute; reflexivity|].
    split; [vm_compute; reflexivity|].
    vm_compute. discriminate.
Qed.

End RoundedResult.

Lemma C3_rounding_law_witness :
  ∃ r, @calculateFinalScore example_builtins half_point_score ∅ = Returns r
    ∧ logicContribution r
      = F64.div
          (F64.Math_round
             (F64.mul (contribution (logic (breakdown r))) (F64.of_Z 100)))
          (F64.of_Z 100).
Proof.
  eexists. split; [vm_compute; reflexivity|].
  refine (proj1 (proj2 (proj1 (@C3_rounding_law example_builtins)
    half_point_score ∅ _ _))).
  vm_compute; reflexivity.
Defined.

(** ** The ranking function leaves its input alone *)

Section Frame.
Context `{Builtins}.

Lemma rank_loop_st_unfold i r rest currentRank previousScore rankedScores σ :
  rank_loop_st i (r :: rest) currentRank previousScore rankedScores σ
  = let score := deref σ r in
    let currentRank := next_rank i currentRank previousScore score in
    let ranked := fresh (dom (objects σ)) in
    rank_loop_st (S i) rest currentRank (get score "finalScore") rankedScores
      {| objects := <[ranked := with_rank score currentRank]> (objects σ);
         arrays := <[rankedScores := elements_of σ rankedScores ++ [ranked]]>
                     (arrays σ) |}.
Proof. reflexivity. Qed.

(** The loop allocates one new object per element, appends the references to
    [rankedScores], and writes nothing else. *)
Lemma rank_loop_st_spec (sortedScores : list loc) :
  ∀ i currentRank previousScore rankedScores σ,
    let σ' := (rank_loop_st i sortedScores currentRank previousScore
                 rankedScores σ).2 in
    objects σ ⊆ objects σ'
    ∧ (∀ a, a ≠ rankedScores → arrays σ' !! a = arrays σ !! a)
    ∧ ∃ news,
        (sortedScores ≠ [] →
         arrays σ' !! rankedScores
         = Some (elements_of σ rankedScores ++ news))
        ∧ length news = length sortedScores
        ∧ Forall (λ r, objects σ !! r = None) news
        ∧ NoDup news
        ∧ (Forall (λ r, is_Some (objects σ !! r)) sortedScores →
           deref σ' <$> news
           = zip_with with_rank (deref σ <$> sortedScores)
               (assigned_ranks i (deref σ <$> sortedScores) currentRank
                  previousScore)).
Proof.
  induction sortedScores as [|r rest IH]; intros i cr p rs σ.
  - simpl. split; [done|]. split; [done|].
    exists []. repeat split; try done; constructor.
  - rewrite rank_loop_st_unfold. cbv zeta.
    set (score := deref σ r).
    set (cr' := next_rank i cr p score).
    set (ℓ := fresh (dom (objects σ))).
    set (σ1 := {| objects := <[ℓ := with_rank score cr']> (objects σ);
                  arrays := <[rs := elements_of σ rs ++ [ℓ]]> (arrays σ) |}).
    assert (Hfresh : objects σ !! ℓ = None).
    { apply not_elem_of_dom. apply is_fresh. }
    destruct (IH (S i) cr' (get score "finalScore") rs σ1)
      as (Hobj & Harr & news & Hrs & Hlen & Hnew & Hnd & Hrefine).
    set (σ' := (rank_loop_st (S i) rest cr' (get score "finalScore") rs σ1).2)
      in *.
    assert (Hsub : objects σ ⊆ objects σ1).
    { subst σ1; simpl. by apply insert_subseteq. }
    assert (Hℓ : objects σ' !! ℓ = Some (with_rank score cr')).
    { eapply lookup_weaken; [|exact Hobj]. subst σ1; simpl.
      apply lookup_insert_eq. }
    split; [by etrans|].
    split.
    { intros a Ha. rewrite Harr by done. subst σ1; simpl.
      by rewrite lookup_insert_ne. }
    exists (ℓ :: news).
    split; [|split; [|split; [|split]]].
    + intros _. destruct rest as [|r' rest'].
      * simpl in *. destruct news; [|done].
        subst σ' σ1. simpl. by rewrite lookup_insert_eq.
      * rewrite Hrs by done. subst σ1. unfold elements_of at 1. simpl.
        rewrite lookup_insert_eq. simpl. by rewrite <- app_assoc.
    + simpl. by rewrite Hlen.
    + constructor; [done|].
      eapply Forall_impl; [exact Hnew|]. intros x Hx.
      subst σ1; simpl in Hx.
      apply lookup_insert_None in Hx. tauto.
    + constructor; [|done].
      intros Hin. rewrite Forall_forall in Hnew.
      apply Hnew in Hin. subst σ1; simpl in Hin.
      by rewrite lookup_insert_eq in Hin.
    + intros Hwf. apply Forall_cons in Hwf as [Hr Hrest].
      assert (Hsame : deref σ1 <$> rest = deref σ <$> rest).
      { apply list_fmap_ext. intros k x Hx. unfold deref.
        rewrite Forall_forall in Hrest.
        destruct (Hrest x) as [o Ho]; [by eapply list_elem_of_lookup_2|].
        rewrite Ho. by rewrite (lookup_weaken _ _ _ _ Ho Hsub). }
      rewrite !fmap_cons. cbn [assigned_ranks zip_with].
      fold score. fold cr'. f_equal.
      * unfold deref. by rewrite Hℓ.
      * rewrite <- Hsame. apply Hrefine.
        eapply Forall_impl; [exact Hrest|]. intros x [o Ho].
        exists o. by apply (lookup_weaken _ _ _ _ Ho Hsub).
Qed.

End Frame.

Section InputPreserved.
Context `{Builtins}.

Lemma elements_of_insert (objs : gmap loc object) (arrs : gmap loc (list loc))
    (a : loc) (elems : list loc) :
  elements_of {| objects := objs; arrays := <[a := elems]> arrs |} a = elems.
Proof. unfold elements_of. cbn. by rewrite lookup_insert_eq. Qed.

Lemma calculateRankings_st_unfold (scores : loc) (σ : store) :
  calculateRankings_st (Some scores) σ
  = let elems := elements_of σ scores in
    if Nat.eqb (length elems) 0 then new_array [] σ
    else
      let sortedScores := fresh (dom (arrays σ)) in
      let sorted :=
        Array_sort (λ x y, byFinalScoreDesc (deref σ x) (deref σ y)) elems in
      let arrays2 := <[sortedScores := sorted]>
                       (<[sortedScores := elems]> (arrays σ)) in
      let rankedScores := fresh (dom arrays2) in
      let σ3 := {| objects := objects σ;
                   arrays := <[rankedScores := []]> arrays2 |} in
      (rankedScores,
       (rank_loop_st 0 (elements_of σ3 sortedScores) 1 VNull rankedScores σ3).2).
Proof.
  unfold calculateRankings_st, mbind, St_bind, read_array, mret, St_ret.
  cbv zeta. destruct (Nat.eqb _ _); [reflexivity|].
  unfold new_array, sort_in_place, write_array.
  cbn [objects arrays]. rewrite elements_of_insert.
  change (deref {| objects := objects σ; arrays := _ |}) with (deref σ).
  by destruct (rank_loop_st _ _ _ _ _ _) as [[] ?].
Qed.

(** C10: a call writes no cell of the store that existed before it.  The
    input array and every object in the store, the score objects among
    them, read after the call as they did before; the array returned is a
    new one, and its entries are new objects, distinct from each other.
    Read through the store, they are the ranking of the objects the input
    array refers to. *)
Theorem C10_input_not_modified (scores : option loc) (σ : store) :
  let out := (calculateRankings_st scores σ).1 in
  let σ' := (calculateRankings_st scores σ).2 in
  (∀ a elems, arrays σ !! a = Some elems → arrays σ' !! a = Some elems)
  ∧ (∀ r o, objects σ !! r = Some o → objects σ' !! r = Some o)
  ∧ arrays σ !! out = None
  ∧ Forall (λ r, objects σ !! r = None) (elements_of σ' out)
  ∧ NoDup (elements_of σ' out)
  ∧ (∀ a, scores = Some a →
       Forall (λ r, is_Some (objects σ !! r)) (elements_of σ a) →
       deref σ' <$> elements_of σ' out
       = calculateRankings (Some (deref σ <$> elements_of σ a))).
Proof.
  assert (Hempty : ∀ σ0 : store,
    let out := (new_array [] σ0).1 in
    let σ' := (new_array [] σ0).2 in
    (∀ a elems, arrays σ0 !! a = Some elems → arrays σ' !! a = Some elems)
    ∧ (∀ r o, objects σ0 !! r = Some o → objects σ' !! r = Some o)
    ∧ arrays σ0 !! out = None
    ∧ elements_of σ' out = []).
  { intros σ0. cbn.
    assert (Hf : arrays σ0 !! fresh (dom (arrays σ0)) = None)
      by apply not_elem_of_dom, is_fresh.
    repeat split; try done.
    - intros a elems Ha. rewrite lookup_insert_ne; [done|]. congruence.
    - unfold elements_of. cbn. by rewrite lookup_insert_eq. }
  destruct scores as [scores|]; cycle 1.
  { destruct (Hempty σ) as (Ha & Ho & Hout & Hel).
    cbn zeta. unfold calculateRankings_st.
    repeat split; try done; rewrite ?Hel; constructor. }
  cbv zeta. rewrite calculateRankings_st_unfold. cbv zeta.
  destruct (Nat.eqb_spec (length (elements_of σ scores)) 0) as [Hlen|Hlen].
  { destruct (Hempty σ) as (Ha & Ho & Hout & Hel).
    repeat split; try done; rewrite ?Hel; try constructor.
    intros a [= <-] _. apply nil_length_inv in Hlen. by rewrite Hlen. }
  set (elems := elements_of σ scores) in *.
  set (ss := fresh (dom (arrays σ))).
  set (sorted := Array_sort _ elems).
  set (arrays2 := <[ss := sorted]> (<[ss := elems]> (arrays σ))).
  set (rs := fresh (dom arrays2)).
  set (σ3 := {| objects := objects σ; arrays := <[rs := []]> arrays2 |}).
  assert (Hss : arrays σ !! ss = None) by apply not_elem_of_dom, is_fresh.
  assert (Hrs : arrays2 !! rs = None) by apply not_elem_of_dom, is_fresh.
  assert (Hrs_ss : rs ≠ ss).
  { intros Heq. rewrite Heq in Hrs. subst arrays2.
    by rewrite lookup_insert_eq in Hrs. }
  assert (Hrs_old : arrays σ !! rs = None).
  { subst arrays2. by rewrite !lookup_insert_ne in Hrs. }
  assert (Hsorted : elements_of σ3 ss = sorted).
  { unfold elements_of, σ3, arrays2. cbn.
    by rewrite lookup_insert_ne, lookup_insert_eq. }
  rewrite Hsorted. cbn [fst snd].
  destruct (rank_loop_st_spec sorted 0 1 VNull rs σ3)
    as (Hobj & Harr & news & Hout & Hnlen & Hnew & Hnd & Hrefine).
  set (σ' := (rank_loop_st 0 sorted 1 VNull rs σ3).2) in *.
  assert (Hne : sorted ≠ []).
  { intros Hs. apply Array_sort_nil_inv in Hs. by rewrite Hs in Hlen. }
  assert (Hel : elements_of σ' rs = news).
  { unfold elements_of at 1. rewrite Hout by done.
    unfold elements_of, σ3. cbn. by rewrite lookup_insert_eq. }
  split; [|split; [|split; [|split; [|split]]]].
  - intros a l Ha.
    assert (a ≠ rs) by congruence. assert (a ≠ ss) by congruence.
    rewrite Harr by done. unfold σ3, arrays2. cbn.
    by rewrite !lookup_insert_ne.
  - intros r o Ho. by eapply lookup_weaken.
  - done.
  - by rewrite Hel.
  - by rewrite Hel.
  - intros a [= <-] Hwf. rewrite Hel.
    rewrite Hrefine; cycle 1.
    { cbn. unfold sorted. rewrite Array_sort_perm. exact Hwf. }
    change (deref σ3) with (deref σ).
    unfold sorted. rewrite Array_sort_map.
    fold elems. symmetry. apply calculateRankings_nonempty.
    intros Hnil. apply fmap_nil_inv in Hnil. by rewrite Hnil in Hlen.
Qed.

End InputPreserved.

Lemma C10_input_not_modified_witness :
  let out := (@calculateRankings_st example_builtins (Some 1%positive)
                podium_store).1 in
  let σ' := (@calculateRankings_st example_builtins (Some 1%positive)
               podium_store).2 in
  Forall (λ r, is_Some (objects podium_store !! r))
    (elements_of podium_store 1%positive)
  ∧ deref σ' <$> elements_of σ' out
    = @calculateRankings example_builtins
        (Some (deref podium_store <$> elements_of podium_store 1%positive)).
Proof.
  assert (Hwf : Forall (λ r, is_Some (objects podium_store !! r))
                  (elements_of podium_store 1%positive)).
  { apply (bool_decide_unpack _). vm_compute. exact I. }
  split; [exact Hwf|].
  exact (proj2 (proj2 (proj2 (proj2 (proj2
    (@C10_input_not_modified example_builtins (Some 1%positive) podium_store)))))
    1%positive eq_refl Hwf).
Defined.

(** ** Binary64 rounding

    What the operations of [SpecFloat] return, as far as the engine's
    properties need it: the result of rounding [±m * 2^e] is a binary64
    value of the same sign, exact when [m * 2^e] is representable, and
    within one unit of the truncated mantissa otherwise. *)

Section Digits.
Local Open Scope Z_scope.

Lemma digits2_pos_size (m : positive) : digits2_pos m = Pos.size m.
Proof. induction m; simpl; congruence. Qed.

Lemma digits2_pos_log2 (m : positive) :
  Z.pos (digits2_pos m) = Z.log2 (Z.pos m) + 1.
Proof.
  rewrite digits2_pos_size. destruct m; simpl; try lia.
Qed.

Lemma digits2_pos_bounds (m : positive) :
  2 ^ (Z.pos (digits2_pos m) - 1) ≤ Z.pos m < 2 ^ Z.pos (digits2_pos m).
Proof.
  rewrite digits2_pos_log2.
  replace (Z.log2 (Z.pos m) + 1 - 1) with (Z.log2 (Z.pos m)) by lia.
  apply (Z.log2_spec (Z.pos m)). lia.
Qed.

Lemma digits2_pos_unique (m : positive) (k : Z) :
  2 ^ (k - 1) ≤ Z.pos m < 2 ^ k → Z.pos (digits2_pos m) = k.
Proof.
  intros Hb. rewrite digits2_pos_log2.
  assert (0 < k).
  { destruct (Z.lt_trichotomy k 0) as [Hk|[Hk|Hk]]; [|subst k|done].
    - rewrite (Z.pow_neg_r 2 k) in Hb by lia. lia.
    - simpl in Hb. lia. }
  rewrite (Z.log2_unique (Z.pos m) (k - 1)); [lia|lia|].
  by replace (Z.succ (k - 1)) with k by lia.
Qed.

Lemma iter_xO_spec (m d : positive) :
  Z.pos (Pos.iter xO m d) = Z.pos m * 2 ^ Z.pos d.
Proof.
  induction d as [|d IH] using Pos.peano_ind.
  - simpl. lia.
  - rewrite Pos.iter_succ, Pos2Z.inj_xO, IH, Pos2Z.inj_succ, Z.pow_succ_r; lia.
Qed.

Lemma digits2_pos_shift (m : positive) (k : Z) (m' : positive) :
  0 ≤ k → Z.pos m' = Z.pos m * 2 ^ k →
  Z.pos (digits2_pos m') = Z.pos (digits2_pos m) + k.
Proof.
  intros Hk Hm'. apply digits2_pos_unique. rewrite Hm'.
  pose proof (digits2_pos_bounds m) as [Hlo Hhi].
  assert (0 < Z.pos (digits2_pos m)) by lia.
  replace (Z.pos (digits2_pos m) + k - 1)
    with ((Z.pos (digits2_pos m) - 1) + k) by lia.
  rewrite !Z.pow_add_r by lia.
  assert (0 < 2 ^ k) by (apply Z.pow_pos_nonneg; lia).
  nia.
Qed.

(** Aligning a mantissa to a smaller exponent multiplies it by the power of
    two that separates the exponents. *)
Lemma shl_align_spec (m : positive) (e e' : Z) :
  e' ≤ e →
  ∃ m', shl_align m e e' = (m', e') ∧ Z.pos m' = Z.pos m * 2 ^ (e - e').
Proof.
  intros Hle. unfold shl_align.
  destruct (e' - e) as [|p|p] eqn:Hd; try lia.
  - assert (e' = e) by lia. subst e'. exists m.
    rewrite Z.sub_diag. split; [done|simpl; lia].
  - exists (Pos.iter xO m p). split; [done|].
    rewrite iter_xO_spec. f_equal. f_equal. lia.
Qed.

Lemma shr_1_m (mrs : shr_record) :
  0 ≤ shr_m mrs → shr_m (shr_1 mrs) = shr_m mrs / 2.
Proof.
  destruct mrs as [m r s]. simpl. intros Hm.
  destruct m as [|[p|p|]|p]; simpl; try lia; try reflexivity.
  - apply (Z.div_unique _ _ _ 1); lia.
  - apply (Z.div_unique _ _ _ 0); lia.
Qed.

Lemma iter_shr_1_m (p : positive) :
  ∀ mrs, 0 ≤ shr_m mrs →
    shr_m (SpecFloat.iter_pos shr_1 p mrs) = shr_m mrs / 2 ^ Z.pos p.
Proof.
  assert (Hpow : ∀ k : positive, 0 < 2 ^ Z.pos k).
  { intros k. apply Z.pow_pos_nonneg; lia. }
  assert (Hnn : ∀ z (k : positive), 0 ≤ z → 0 ≤ z / 2 ^ Z.pos k).
  { intros z k Hz. apply Z.div_pos; [done|apply Hpow]. }
  assert (Hhalf : ∀ mrs, 0 ≤ shr_m mrs → 0 ≤ shr_m (shr_1 mrs)).
  { intros mrs Hm. rewrite shr_1_m by done. apply Z.div_pos; lia. }
  induction p as [p IH|p IH|]; intros mrs Hm; simpl SpecFloat.iter_pos.
  - assert (H1 : 0 ≤ shr_m (SpecFloat.iter_pos shr_1 p (shr_1 mrs))).
    { rewrite IH by auto. apply Hnn. auto. }
    rewrite IH, IH, shr_1_m by auto.
    pose proof (Hpow p).
    rewrite !Z.div_div by lia.
    replace (2 ^ Z.pos p~1) with (2 * (2 ^ Z.pos p * 2 ^ Z.pos p)); [done|].
    rewrite (Pos2Z.inj_xI p).
    replace (2 * Z.pos p + 1) with (1 + Z.pos p + Z.pos p) by lia.
    rewrite !Z.pow_add_r by lia. lia.
  - assert (H1 : 0 ≤ shr_m (SpecFloat.iter_pos shr_1 p mrs)).
    { rewrite IH by auto. apply Hnn. auto. }
    rewrite IH, IH by auto.
    pose proof (Hpow p).
    rewrite Z.div_div by lia.
    replace (2 ^ Z.pos p~0) with (2 ^ Z.pos p * 2 ^ Z.pos p); [done|].
    rewrite (Pos2Z.inj_xO p).
    replace (2 * Z.pos p) with (Z.pos p + Z.pos p) by lia.
    rewrite Z.pow_add_r by lia. lia.
  - rewrite shr_1_m by done. by rewrite Z.pow_1_r.
Qed.

End Digits.

Section Round.
Local Open Scope Z_scope.

Lemma fexp64 (x : Z) : fexp F64.prec F64.emax x = Z.max (x - 53) (-1074).
Proof. reflexivity. Qed.

Lemma shr_m_of_loc (m : Z) (l : location) : shr_m (shr_record_of_loc m l) = m.
Proof. by destruct l as [|[]]. Qed.

Lemma shr_fexp_keep (m e : Z) (l : location) :
  fexp F64.prec F64.emax (Zdigits2 m + e) ≤ e →
  shr_fexp F64.prec F64.emax m e l = (shr_record_of_loc m l, e).
Proof.
  intros Hle. unfold shr_fexp, shr.
  destruct (fexp F64.prec F64.emax (Zdigits2 m + e) - e) eqn:Hd; try done.
  lia.
Qed.

Lemma shr_fexp_shift (m e : Z) (l : location) :
  0 ≤ m →
  e < fexp F64.prec F64.emax (Zdigits2 m + e) →
  ∃ mrs,
    shr_fexp F64.prec F64.emax m e l
    = (mrs, fexp F64.prec F64.emax (Zdigits2 m + e))
    ∧ shr_m mrs = m / 2 ^ (fexp F64.prec F64.emax (Zdigits2 m + e) - e).
Proof.
  intros Hm Hlt. unfold shr_fexp, shr.
  destruct (fexp F64.prec F64.emax (Zdigits2 m + e) - e) as [|p|p] eqn:Hd;
    try lia.
  eexists. split.
  - f_equal. lia.
  - rewrite iter_shr_1_m by (by rewrite shr_m_of_loc).
    by rewrite shr_m_of_loc.
Qed.

Lemma round_nearest_even_bounds (q : Z) (l : location) :
  q ≤ round_nearest_even q l ≤ q + 1.
Proof.
  destruct l as [|[]]; simpl; try lia.
  destruct (Z.even q); lia.
Qed.

(** The last step of rounding: a mantissa below [2^53] at an exponent that
    is canonical for it is kept; the mantissa [2^53], reached by rounding
    up, is renormalised to [2^52] one exponent higher. *)
Lemma round_finish (s : bool) (m1 : positive) (E : Z) :
  -1074 ≤ E →
  Z.pos m1 ≤ 2 ^ 53 →
  (-1074 < E → 2 ^ 52 ≤ Z.pos m1) →
  let r :=
    match shr_m (shr_fexp F64.prec F64.emax (Z.pos m1) E loc_Exact).1 with
    | 0 => S754_zero s
    | Z.pos m =>
        if (shr_fexp F64.prec F64.emax (Z.pos m1) E loc_Exact).2
             <=? F64.emax - F64.prec
        then S754_finite s m
               (shr_fexp F64.prec F64.emax (Z.pos m1) E loc_Exact).2
        else S754_infinity s
    | Z.neg _ => S754_nan
    end in
  r = S754_infinity s
  ∨ ∃ m' e', r = S754_finite s m' e'
      ∧ bounded F64.prec F64.emax m' e' = true
      ∧ E ≤ e' ≤ E + 1
      ∧ Z.pos m' * 2 ^ (e' - E) = Z.pos m1.
Proof.
  intros HE Hle Hnorm.
  pose proof (digits2_pos_bounds m1) as [Hlo Hhi].
  destruct (Z.eq_dec (Z.pos m1) (2 ^ 53)) as [Htop|Hlow].
  - (* carry *)
    assert (Hd : Z.pos (digits2_pos m1) = 54).
    { apply digits2_pos_unique. rewrite Htop. simpl. lia. }
    destruct (shr_fexp_shift (Z.pos m1) E loc_Exact) as (mrs & Hs & Hm).
    { lia. } { rewrite fexp64. simpl Zdigits2. lia. }
    rewrite Hs. cbn [fst snd]. rewrite Hm.
    rewrite fexp64. simpl Zdigits2. rewrite Hd.
    replace (Z.max (54 + E - 53) (-1074)) with (E + 1) by lia.
    replace (E + 1 - E) with 1 by lia. rewrite Htop.
    change (2 ^ 53 / 2 ^ 1) with (Z.pos 4503599627370496).
    destruct (Z.leb_spec (E + 1) (F64.emax - F64.prec)) as [Hfin|Hinf];
      [right|by left].
    change (F64.emax - F64.prec) with 971 in Hfin.
    exists 4503599627370496%positive, (E + 1). split; [done|].
    split; [|split; [lia|]].
    + unfold bounded, canonical_mantissa. rewrite fexp64.
      change (Z.pos (digits2_pos 4503599627370496)) with 53.
      change (F64.emax - F64.prec) with 971.
      apply andb_true_intro. split; [apply Z.eqb_eq|apply Z.leb_le]; lia.
    + replace (E + 1 - E) with 1 by lia. reflexivity.
  - (* no carry *)
    assert (Hd : Z.pos (digits2_pos m1) ≤ 53).
    { destruct (Z.le_gt_cases (Z.pos (digits2_pos m1)) 53) as [|Hgt]; [done|].
      assert (2 ^ 53 ≤ 2 ^ (Z.pos (digits2_pos m1) - 1))
        by (apply Z.pow_le_mono_r; lia).
      lia. }
    assert (Hd' : -1074 < E → Z.pos (digits2_pos m1) = 53).
    { intros HEgt. apply digits2_pos_unique. specialize (Hnorm HEgt).
      change (53 - 1) with 52. lia. }
    assert (Hfexp : fexp F64.prec F64.emax (Z.pos (digits2_pos m1) + E) = E).
    { rewrite fexp64. destruct (Z.eq_dec E (-1074)) as [->|]; [lia|].
      rewrite Hd' by lia. lia. }
    rewrite shr_fexp_keep by (simpl Zdigits2; lia).
    cbn [fst snd shr_record_of_loc shr_m].
    destruct (Z.leb_spec E (F64.emax - F64.prec)) as [Hfin|Hinf];
      [right|by left].
    change (F64.emax - F64.prec) with 971 in Hfin.
    exists m1, E. split; [done|].
    split; [|split; [lia|]].
    + unfold bounded, canonical_mantissa. rewrite Hfexp.
      change (F64.emax - F64.prec) with 971.
      apply andb_true_intro. split; [apply Z.eqb_eq|apply Z.leb_le]; lia.
    + rewrite Z.sub_diag. simpl. lia.
Qed.

End Round.

Section BinaryRound.
Local Open Scope Z_scope.

Lemma binary_round_aux_unfold (s : bool) (m e : Z) (l : location) :
  binary_round_aux F64.prec F64.emax s m e l
  = let p := shr_fexp F64.prec F64.emax m e l in
    let m1 := round_nearest_even (shr_m p.1) (loc_of_shr_record p.1) in
    match shr_m (shr_fexp F64.prec F64.emax m1 p.2 loc_Exact).1 with
    | 0 => S754_zero s
    | Z.pos m' =>
        if (shr_fexp F64.prec F64.emax m1 p.2 loc_Exact).2
             <=? F64.emax - F64.prec
        then S754_finite s m' (shr_fexp F64.prec F64.emax m1 p.2 loc_Exact).2
        else S754_infinity s
    | Z.neg _ => S754_nan
    end.
Proof.
  unfold binary_round_aux. cbv zeta.
  destruct (shr_fexp F64.prec F64.emax m e l) as [mrs' e'].
  cbn [fst snd].
  by destruct (shr_fexp F64.prec F64.emax _ e' loc_Exact) as [mrs'' e''].
Qed.

(** Rounding [m * 2^e] to binary64, with [E] the exponent of the format at
    the magnitude of [m * 2^e]: the result is an infinity (overflow), or a
    zero (underflow, only below the smallest exponent), or a binary64 value
    [m' * 2^e'] of the given sign, equal to [m * 2^e] when that needs no
    more than 53 bits, and otherwise the truncated mantissa or its
    successor. *)
Lemma binary_round_spec (s : bool) (m : positive) (e : Z) :
  let E := Z.max (Z.pos (digits2_pos m) + e - 53) (-1074) in
  let r := binary_round F64.prec F64.emax s m e in
  r = S754_infinity s
  ∨ (r = S754_zero s ∧ e < E ∧ Z.pos m / 2 ^ (E - e) = 0)
  ∨ ∃ m' e',
      r = S754_finite s m' e'
      ∧ bounded F64.prec F64.emax m' e' = true
      ∧ E ≤ e' ≤ E + 1
      ∧ (E ≤ e → Z.pos m' * 2 ^ (e' - E) = Z.pos m * 2 ^ (e - E))
      ∧ (e < E →
         Z.pos m / 2 ^ (E - e) ≤ Z.pos m' * 2 ^ (e' - E)
         ≤ Z.pos m / 2 ^ (E - e) + 1).
Proof.
  intros E r. subst r. unfold binary_round.
  rewrite fexp64. fold E.
  pose proof (digits2_pos_bounds m) as [Hlo Hhi].
  set (d := Z.pos (digits2_pos m)) in *.
  assert (Hd : 0 < d) by (subst d; lia).
  destruct (Z.le_gt_cases E e) as [Hle|Hgt].
  - (* representable: the mantissa is aligned, nothing is cut off *)
    destruct (shl_align_spec m e E Hle) as (mz & -> & Hmz).
    rewrite binary_round_aux_unfold. cbv zeta.
    assert (Hdz : Z.pos (digits2_pos mz) = d + (e - E)).
    { apply (digits2_pos_shift m); [lia|done]. }
    rewrite (shr_fexp_keep (Z.pos mz) E loc_Exact)
      by (rewrite fexp64; simpl Zdigits2; rewrite Hdz; lia).
    cbn [fst snd shr_record_of_loc shr_m loc_of_shr_record round_nearest_even].
    pose proof (digits2_pos_bounds mz) as [Hzlo Hzhi]. rewrite Hdz in Hzlo, Hzhi.
    destruct (round_finish s mz E) as [Hinf|(m' & e' & Hr & Hb & He' & Hval)].
    + lia.
    + assert (2 ^ (d + (e - E)) ≤ 2 ^ 53) by (apply Z.pow_le_mono_r; lia). lia.
    + intros HE. replace (d + (e - E) - 1) with 52 in Hzlo by lia. done.
    + by left.
    + right. right. exists m', e'. repeat split; try done; try lia.
  - (* not representable: the low bits are cut off and the rest rounded *)
    assert (Hal : shl_align m e E = (m, e)).
    { unfold shl_align. destruct (E - e) eqn:HEe; try done. lia. }
    rewrite Hal, binary_round_aux_unfold. cbv zeta.
    destruct (shr_fexp_shift (Z.pos m) e loc_Exact) as (mrs & Hs & Hm).
    { lia. } { rewrite fexp64. simpl Zdigits2. fold d E. lia. }
    rewrite fexp64 in Hs, Hm. simpl Zdigits2 in Hs, Hm. fold d E in Hs, Hm.
    rewrite Hs. cbn [fst snd]. rewrite Hm.
    set (q := Z.pos m / 2 ^ (E - e)).
    assert (Hpow : 0 < 2 ^ (E - e)) by (apply Z.pow_pos_nonneg; lia).
    assert (Hq0 : 0 ≤ q) by (apply Z.div_pos; lia).
    assert (Hq53 : q < 2 ^ 53).
    { apply Z.div_lt_upper_bound; [done|].
      rewrite <- Z.pow_add_r by lia.
      assert (2 ^ d ≤ 2 ^ (E - e + 53)) by (apply Z.pow_le_mono_r; lia). lia. }
    assert (Hq52 : -1074 < E → 2 ^ 52 ≤ q).
    { intros HE. apply Z.div_le_lower_bound; [done|].
      rewrite <- Z.pow_add_r by lia.
      replace (E - e + 52) with (d - 1) by lia. done. }
    pose proof (round_nearest_even_bounds q (loc_of_shr_record mrs)) as Hrne.
    destruct (round_nearest_even q (loc_of_shr_record mrs)) as [|m1|m1] eqn:Hm1;
      [|clear Hm1|lia].
    + (* everything was cut off and rounded down *)
      rewrite (shr_fexp_keep 0 E loc_Exact) by (rewrite fexp64; simpl; lia).
      cbn. right. left. repeat split; try done. fold q. lia.
    + destruct (round_finish s m1 E) as [Hinf|(m' & e' & Hr & Hb & He' & Hval)].
      * lia.
      * lia.
      * intros HE. specialize (Hq52 HE). lia.
      * by left.
      * right. right. exists m', e'. repeat split; try done; try lia.
Qed.

End BinaryRound.

Section Comparison.
Local Open Scope Z_scope.

Lemma bounded_spec (m : positive) (e : Z) :
  bounded F64.prec F64.emax m e = true →
  Z.pos (digits2_pos m) ≤ 53
  ∧ -1074 ≤ e ≤ 971
  ∧ (-1074 < e → Z.pos (digits2_pos m) = 53).
Proof.
  unfold bounded, canonical_mantissa. rewrite fexp64.
  change (F64.emax - F64.prec) with 971.
  intros [Hc He]%andb_prop. apply Z.eqb_eq in Hc. apply Z.leb_le in He. lia.
Qed.

Lemma bounded_mantissa (m : positive) (e : Z) :
  bounded F64.prec F64.emax m e = true →
  Z.pos m < 2 ^ 53 ∧ (-1074 < e → 2 ^ 52 ≤ Z.pos m).
Proof.
  intros (Hd & He & Hn)%bounded_spec.
  pose proof (digits2_pos_bounds m) as [Hlo Hhi].
  split.
  - assert (2 ^ Z.pos (digits2_pos m) ≤ 2 ^ 53)
      by (apply Z.pow_le_mono_r; lia). lia.
  - intros Hgt. rewrite (Hn Hgt) in Hlo. exact Hlo.
Qed.

(** Among binary64 values of one sign, the one with the smaller exponent
    is the smaller in magnitude. *)
Lemma scaled_lt (mx my : positive) (ex ey : Z) :
  bounded F64.prec F64.emax mx ex = true →
  bounded F64.prec F64.emax my ey = true →
  ex < ey →
  Z.pos mx < Z.pos my * 2 ^ (ey - ex).
Proof.
  intros Hbx Hby Hlt.
  destruct (bounded_spec _ _ Hbx) as (_ & Hex & _).
  destruct (bounded_mantissa _ _ Hbx) as [Hx _].
  destruct (bounded_mantissa _ _ Hby) as [_ Hy].
  assert (2 ^ 1 ≤ 2 ^ (ey - ex)) by (apply Z.pow_le_mono_r; lia).
  assert (2 ^ 52 ≤ Z.pos my) by (apply Hy; lia).
  change (2 ^ 1) with 2 in *. change (2 ^ 53) with (2 * 2 ^ 52) in Hx. nia.
Qed.

Lemma compare_magnitudes (mx my : positive) (ex ey : Z) :
  bounded F64.prec F64.emax mx ex = true →
  bounded F64.prec F64.emax my ey = true →
  match ex ?= ey with
  | Lt => Lt
  | Gt => Gt
  | Eq => Pos.compare_cont Eq mx my
  end
  = (Z.pos mx * 2 ^ (ex - Z.min ex ey) ?= Z.pos my * 2 ^ (ey - Z.min ex ey)).
Proof.
  intros Hbx Hby. symmetry.
  destruct (Z.compare_spec ex ey) as [->|Hlt|Hgt].
  - rewrite Z.min_id, Z.sub_diag. simpl (2 ^ 0). rewrite !Z.mul_1_r.
    reflexivity.
  - rewrite Z.min_l, Z.sub_diag by lia. simpl (2 ^ 0). rewrite Z.mul_1_r.
    apply Z.compare_lt_iff. by apply scaled_lt.
  - rewrite Z.min_r, Z.sub_diag by lia. simpl (2 ^ 0). rewrite Z.mul_1_r.
    apply Z.compare_gt_iff. by apply scaled_lt.
Qed.

(** On binary64 values the comparison of [SpecFloat] is the comparison of
    the numbers they stand for, here scaled to a common exponent. *)
Lemma SFcompare_finite (sx sy : bool) (mx my : positive) (ex ey : Z) :
  bounded F64.prec F64.emax mx ex = true →
  bounded F64.prec F64.emax my ey = true →
  SFcompare (S754_finite sx mx ex) (S754_finite sy my ey)
  = Some (cond_Zopp sx (Z.pos mx) * 2 ^ (ex - Z.min ex ey)
          ?= cond_Zopp sy (Z.pos my) * 2 ^ (ey - Z.min ex ey)).
Proof.
  intros Hbx Hby.
  pose proof (compare_magnitudes mx my ex ey Hbx Hby) as Hmag.
  assert (Hpx : 0 < 2 ^ (ex - Z.min ex ey)) by (apply Z.pow_pos_nonneg; lia).
  assert (Hpy : 0 < 2 ^ (ey - Z.min ex ey)) by (apply Z.pow_pos_nonneg; lia).
  unfold SFcompare. f_equal.
  destruct sx, sy; cbn [cond_Zopp].
  - rewrite !Z.mul_opp_l, Z.compare_opp.
    rewrite (Z.compare_antisym (Z.pos mx * 2 ^ (ex - Z.min ex ey))
               (Z.pos my * 2 ^ (ey - Z.min ex ey))), <- Hmag.
    by destruct (ex ?= ey).
  - symmetry. apply Z.compare_lt_iff. nia.
  - symmetry. apply Z.compare_gt_iff. nia.
  - exact Hmag.
Qed.

End Comparison.

Section AddSub.
Local Open Scope Z_scope.

Lemma binary_normalize_is_double (M ez : Z) (szero : bool) :
  F64.is_double (binary_normalize F64.prec F64.emax M ez szero) = true
  ∧ F64.is_nan (binary_normalize F64.prec F64.emax M ez szero) = false.
Proof.
  destruct M as [|p|p]; simpl; [done| |].
  - destruct (binary_round_spec false p ez)
      as [->|[(-> & _)|(m' & e' & -> & Hb & _)]]; done.
  - destruct (binary_round_spec true p ez)
      as [->|[(-> & _)|(m' & e' & -> & Hb & _)]]; done.
Qed.

(** At an exponent of the format nothing underflows: the result of rounding
    [M * 2^ez] has the sign of [M]. *)
Lemma binary_normalize_sign (M ez : Z) :
  -1074 ≤ ez →
  SFcompare (S754_zero false) (binary_normalize F64.prec F64.emax M ez false)
  = Some (0 ?= M).
Proof.
  intros Hez.
  assert (Hnz : ∀ s p, binary_round F64.prec F64.emax s p ez ≠ S754_zero s).
  { intros s p Hz.
    destruct (binary_round_spec s p ez)
      as [Hr|[(_ & Hlt & Hq)|(m' & e' & Hr & _)]]; try congruence.
    pose proof (digits2_pos_bounds p) as [Hlo _].
    set (d := Z.pos (digits2_pos p)) in *.
    assert (HE : Z.max (d + ez - 53) (-1074) = d + ez - 53) by lia.
    rewrite HE in Hq, Hlt.
    assert (0 < 2 ^ (d + ez - 53 - ez)) by (apply Z.pow_pos_nonneg; lia).
    apply Z.div_small_iff in Hq; [|lia].
    assert (2 ^ (d + ez - 53 - ez) ≤ 2 ^ (d - 1))
      by (apply Z.pow_le_mono_r; lia).
    lia. }
  destruct M as [|p|p]; simpl; [done| |].
  - specialize (Hnz false p).
    destruct (binary_round_spec false p ez)
      as [->|[(Hr & _)|(m' & e' & -> & _)]]; done.
  - specialize (Hnz true p).
    destruct (binary_round_spec true p ez)
      as [->|[(Hr & _)|(m' & e' & -> & _)]]; done.
Qed.

Lemma sub_finite (sx sy : bool) (mx my : positive) (ex ey : Z) :
  F64.sub (S754_finite sy my ey) (S754_finite sx mx ex)
  = binary_normalize F64.prec F64.emax
      (cond_Zopp sy (Z.pos my * 2 ^ (ey - Z.min ey ex))
       - cond_Zopp sx (Z.pos mx * 2 ^ (ex - Z.min ey ex)))
      (Z.min ey ex) false.
Proof.
  unfold F64.sub, SFsub. cbv zeta.
  destruct (shl_align_spec my ey (Z.min ey ex)) as (my' & Hy & Hy'); [lia|].
  destruct (shl_align_spec mx ex (Z.min ey ex)) as (mx' & Hx & Hx'); [lia|].
  rewrite Hx, Hy. cbn [fst]. by rewrite Hx', Hy'.
Qed.

Lemma add_finite (sx sy : bool) (mx my : positive) (ex ey : Z) :
  F64.add (S754_finite sx mx ex) (S754_finite sy my ey)
  = binary_normalize F64.prec F64.emax
      (cond_Zopp sx (Z.pos mx * 2 ^ (ex - Z.min ex ey))
       + cond_Zopp sy (Z.pos my * 2 ^ (ey - Z.min ex ey)))
      (Z.min ex ey) false.
Proof.
  unfold F64.add, SFadd. cbv zeta.
  destruct (shl_align_spec mx ex (Z.min ex ey)) as (mx' & Hx & Hx'); [lia|].
  destruct (shl_align_spec my ey (Z.min ex ey)) as (my' & Hy & Hy'); [lia|].
  rewrite Hx, Hy. cbn [fst]. by rewrite Hx', Hy'.
Qed.

(** The sign of a difference of binary64 values is the order of its
    operands: [0 < y - x] exactly when [x < y]. *)
Lemma sub_positive_iff_lt (x y : float) :
  F64.is_double x = true → F64.is_double y = true →
  F64.is_nan x = false → F64.is_nan y = false →
  F64.ltb F64.zero (F64.sub y x) = F64.ltb x y.
Proof.
  intros Hx Hy Hnx Hny.
  destruct x as [sx|sx| |sx mx ex], y as [sy|sy| |sy my ey]; try done;
    try (by destruct sx, sy).
  unfold F64.ltb, SFltb, F64.zero. rewrite sub_finite.
  destruct (bounded_spec _ _ Hx) as (_ & Hex & _).
  destruct (bounded_spec _ _ Hy) as (_ & Hey & _).
  rewrite binary_normalize_sign by lia.
  rewrite (SFcompare_finite sx sy mx my ex ey Hx Hy).
  rewrite (Z.min_comm ey ex).
  set (X := cond_Zopp sx (Z.pos mx) * 2 ^ (ex - Z.min ex ey)).
  set (Y := cond_Zopp sy (Z.pos my) * 2 ^ (ey - Z.min ex ey)).
  assert (HX : cond_Zopp sx (Z.pos mx * 2 ^ (ex - Z.min ex ey)) = X)
    by (subst X; destruct sx; simpl; lia).
  assert (HY : cond_Zopp sy (Z.pos my * 2 ^ (ey - Z.min ex ey)) = Y)
    by (subst Y; destruct sy; simpl; lia).
  rewrite HX, HY.
  destruct (Z.compare_spec 0 (Y - X)), (Z.compare_spec X Y); done || lia.
Qed.

Lemma add_is_double (x y : float) :
  F64.is_double x = true → F64.is_double y = true →
  F64.is_double (F64.add x y) = true.
Proof.
  intros Hx Hy.
  destruct x as [sx|sx| |sx mx ex], y as [sy|sy| |sy my ey]; try done;
    try (by destruct sx, sy).
  rewrite add_finite. apply binary_normalize_is_double.
Qed.

Lemma add_not_nan (x y : float) :
  F64.is_nan x = false → F64.is_finite y = true →
  F64.is_nan (F64.add x y) = false.
Proof.
  intros Hx Hy.
  destruct x as [sx|sx| |sx mx ex], y as [sy|sy| |sy my ey]; try done;
    try (by destruct sx, sy).
  rewrite add_finite. apply binary_normalize_is_double.
Qed.

End AddSub.

Section Order.
Local Open Scope Z_scope.

Lemma SFcompare_antisym (x y : float) :
  SFcompare y x = CompOpp <$> SFcompare x y.
Proof.
  destruct x as [sx|sx| |sx mx ex], y as [sy|sy| |sy my ey]; try done;
    try (by destruct sx, sy); try (by destruct sx); try (by destruct sy).
  unfold SFcompare. cbn [fmap option_fmap option_map]. f_equal.
  assert (Hm : Pos.compare_cont Eq my mx = CompOpp (Pos.compare_cont Eq mx my))
    by (by rewrite Pos.compare_cont_antisym).
  rewrite (Z.compare_antisym ex ey).
  change (PosDef.Pos.compare_cont Eq my mx) with (Pos.compare_cont Eq my mx).
  rewrite Hm.
  destruct sx, sy; try done;
    by destruct (ex ?= ey), (Pos.compare_cont Eq mx my).
Qed.

Lemma SFcompare_not_nan (x y : float) :
  F64.is_nan x = false → F64.is_nan y = false → is_Some (SFcompare x y).
Proof.
  destruct x as [sx|sx| |sx mx ex], y as [sy|sy| |sy my ey]; try done;
    intros _ _; eexists; reflexivity.
Qed.

Lemma leb_not_nan (x y : float) :
  F64.leb x y = true → F64.is_nan x = false ∧ F64.is_nan y = false.
Proof.
  destruct x as [sx|sx| |sx mx ex], y as [sy|sy| |sy my ey]; try done.
Qed.

(** [x < y] fails exactly when [y <= x], NaN aside. *)
Lemma ltb_false_iff_leb (x y : float) :
  F64.is_nan x = false → F64.is_nan y = false →
  F64.ltb x y = false ↔ F64.leb y x = true.
Proof.
  intros Hx Hy. unfold F64.ltb, SFltb, F64.leb, SFleb.
  rewrite (SFcompare_antisym x y).
  destruct (SFcompare_not_nan x y Hx Hy) as [c ->].
  by destruct c.
Qed.

Lemma SFcompare_Eq_inv (x y : float) :
  SFcompare x y = Some Eq →
  x = y ∨ (∃ sx sy, x = S754_zero sx ∧ y = S754_zero sy).
Proof.
  destruct x as [sx|sx| |sx mx ex], y as [sy|sy| |sy my ey]; try done;
    try (by destruct sx, sy); try (by destruct sx); try (by destruct sy).
  - intros _. right. eauto.
  - by destruct sx, sy; try done; left.
  - unfold SFcompare.
    destruct sx, sy; try done; destruct (Z.compare_spec ex ey) as [->| |];
      try done; intros [= Hm]; left; f_equal.
    + apply Pos.compare_eq. unfold Pos.compare.
      by destruct (Pos.compare_cont Eq mx my).
    + by apply Pos.compare_eq.
Qed.

(** On binary64 numbers [SFcompare] compares the scaled integers. *)
Lemma SFcompare_scaled (x y : float) :
  F64.is_double x = true → F64.is_double y = true →
  F64.is_nan x = false → F64.is_nan y = false →
  SFcompare x y = Some (F64.scaled x ?= F64.scaled y).
Proof.
  assert (Hfin : ∀ m e, bounded F64.prec F64.emax m e = true →
            0 < Z.pos m * 2 ^ (e + 1074) < 2 ^ 2100).
  { intros m e Hb.
    destruct (bounded_spec _ _ Hb) as (_ & He & _).
    destruct (bounded_mantissa _ _ Hb) as [Hm _].
    assert (0 < 2 ^ (e + 1074)) by (apply Z.pow_pos_nonneg; lia).
    assert (2 ^ (e + 1074) ≤ 2 ^ 2045) by (apply Z.pow_le_mono_r; lia).
    change (2 ^ 2100) with (2 ^ 53 * 2 ^ 2045 * 2 ^ 2). nia. }
  assert (Hinf : 0 < 2 ^ 2100) by (by apply Z.pow_pos_nonneg).
  set (top := 2 ^ 2100) in *.
  intros Hx Hy Hnx Hny.
  destruct x as [sx|sx| |sx mx ex], y as [sy|sy| |sy my ey]; try done;
    cbn [F64.scaled]; fold top;
    try pose proof (Hfin _ _ Hx); try pose proof (Hfin _ _ Hy).
  8: { rewrite (SFcompare_finite sx sy mx my ex ey Hx Hy). f_equal.
    destruct (bounded_spec _ _ Hx) as (_ & Hex & _).
    destruct (bounded_spec _ _ Hy) as (_ & Hey & _).
    assert (Hp : 0 < 2 ^ (Z.min ex ey + 1074))
      by (apply Z.pow_pos_nonneg; lia).
    replace (ex + 1074) with ((ex - Z.min ex ey) + (Z.min ex ey + 1074))
      by lia.
    replace (ey + 1074) with ((ey - Z.min ex ey) + (Z.min ex ey + 1074))
      by lia.
    rewrite (Z.pow_add_r 2 (ex - Z.min ex ey)) by lia.
    rewrite (Z.pow_add_r 2 (ey - Z.min ex ey)) by lia.
    rewrite (Zmult_compare_compat_r _ _ (2 ^ (Z.min ex ey + 1074))) by lia.
    f_equal; [destruct sx|destruct sy]; cbn [cond_Zopp]; lia. }
  all: clearbody top.
  all: cbn [SFcompare]; f_equal; symmetry.
  all: try destruct sx; try destruct sy; cbn [cond_Zopp].
  all: first [ apply Z.compare_eq_iff; lia
             | apply Z.compare_lt_iff; lia
             | apply Z.compare_gt_iff; lia ].
Qed.

Lemma leb_trans (x y z : float) :
  F64.is_double x = true → F64.is_double y = true → F64.is_double z = true →
  F64.leb x y = true → F64.leb y z = true → F64.leb x z = true.
Proof.
  intros Hx Hy Hz Hxy Hyz.
  destruct (leb_not_nan _ _ Hxy) as [Hnx Hny].
  destruct (leb_not_nan _ _ Hyz) as [_ Hnz].
  unfold F64.leb, SFleb in *.
  rewrite SFcompare_scaled in * by done.
  destruct (Z.compare_spec (F64.scaled x) (F64.scaled y)); try done;
    destruct (Z.compare_spec (F64.scaled y) (F64.scaled z)); try done;
    destruct (Z.compare_spec (F64.scaled x) (F64.scaled z)); try done; lia.
Qed.

Lemma SFcompare_refl (x : float) :
  F64.is_nan x = false → SFcompare x x = Some Eq.
Proof.
  destruct x as [sx|sx| |sx mx ex]; try done; try (by destruct sx).
  intros _. unfold SFcompare.
  rewrite Z.compare_refl, Pos.compare_cont_refl. by destruct sx.
Qed.

(** Numbers that [===] identifies with one and the same number are not
    ordered by [<]. *)
Lemma eqb_same_not_ltb (x y v : float) :
  F64.eqb x v = true → F64.eqb y v = true → F64.ltb x y = false.
Proof.
  unfold F64.eqb, SFeqb, F64.ltb, SFltb. intros Hx Hy.
  destruct (SFcompare x v) as [[]|] eqn:Hxv; try done.
  destruct (SFcompare y v) as [[]|] eqn:Hyv; try done.
  assert (Hv : F64.is_nan v = false).
  { destruct v; try done. by destruct x. }
  apply SFcompare_Eq_inv in Hxv as [->|(sx & sv & -> & ->)];
    apply SFcompare_Eq_inv in Hyv as [->|(sy & sv' & -> & Hv')]; try done.
  - by rewrite SFcompare_refl.
  - by subst v.
Qed.

End Order.

(** ** Ranking collections with numeric final scores *)

Section NumericRanking.
Context `{Builtins}.

(** On numbers the comparator orders [a] after [b] exactly when [a]'s final
    score is the smaller one. *)
Lemma sorts_after_numeric (a b : object) (x y : float) :
  has_final_score a x → has_final_score b y →
  F64.is_nan x = false → F64.is_nan y = false →
  sorts_after byFinalScoreDesc a b = F64.ltb x y.
Proof.
  intros [Ha Hx] [Hb Hy] Hnx Hny.
  unfold sorts_after, byFinalScoreDesc, js_sub. rewrite Ha, Hb.
  cbn [ToNumber]. by apply sub_positive_iff_lt.
Qed.

Lemma sorted_input_kept (scores : list object) (xs : list float) :
  Forall2 has_final_score scores xs → descending xs →
  Array_sort byFinalScoreDesc scores = scores.
Proof.
  intros Hxs Hdesc. apply Array_sort_in_order. intros k a b Ha Hb.
  destruct (Forall2_lookup_l _ _ _ _ _ Hxs Ha) as (x & Hx & Hax).
  destruct (Forall2_lookup_l _ _ _ _ _ Hxs Hb) as (y & Hy & Hby).
  pose proof (Hdesc k x y Hx Hy) as Hle.
  destruct (leb_not_nan _ _ Hle) as [Hny Hnx].
  rewrite (sorts_after_numeric a b x y) by done.
  by apply ltb_false_iff_leb.
Qed.

Lemma assigned_ranks_step (scores : list object) (xs : list float) :
  Forall2 has_final_score scores xs →
  ∀ i currentRank previousScore k x y r,
    xs !! k = Some x → xs !! S k = Some y →
    assigned_ranks i scores currentRank previousScore !! S k = Some r →
    if F64.eqb y x
    then assigned_ranks i scores currentRank previousScore !! k = Some r
    else r = i + S k + 1.
Proof.
  induction 1 as [|s x0 rest xs' [Hs _] Hrest IH];
    intros i cr p k x y r Hx Hy Hr; [done|].
  cbn [assigned_ranks] in *. destruct k as [|k].
  - cbn in Hx, Hy, Hr |- *. injection Hx as ->.
    destruct Hrest as [|s' y' rest' xs'' [Hs' _] _]; [done|].
    cbn in Hy, Hr. injection Hy as ->. injection Hr as <-.
    generalize (next_rank i cr p s). intros r0.
    unfold next_rank. rewrite Hs, Hs'. cbn [strict_eq].
    destruct (F64.eqb y x); cbn; [done|lia].
  - cbn in Hx, Hy, Hr |- *.
    specialize (IH (S i) _ _ k x y r Hx Hy Hr).
    destruct (F64.eqb y x); [done|lia].
Qed.

(** C2: on a collection that arrives sorted descending by final score the
    entries keep their places, and the [rank] properties read off the
    output entries are these: the first is 1, and every later entry has its
    1-based position as rank when its final score differs from the
    previous entry's and the previous entry's rank otherwise.  For final
    scores 95.00, 95.00, 86.50 the ranks read off the output are
    1, 1, 3. *)
Theorem C2_ranking_law :
  (∀ (scores : list object) (xs : list float),
     Forall2 has_final_score scores xs → descending xs →
     ∃ ranks : list nat,
       (λ entry, get entry "rank") <$> calculateRankings (Some scores)
       = (λ r, VNumber (F64.of_nat r)) <$> ranks
       ∧ (∀ property, property ≠ "rank"%string →
            (λ entry, get entry property) <$> calculateRankings (Some scores)
            = (λ score, get score property) <$> scores)
       ∧ length ranks = length scores
       ∧ (scores ≠ [] → ranks !! 0 = Some 1)
       ∧ (∀ k x y r,
            xs !! k = Some x → xs !! S k = Some y → ranks !! S k = Some r →
            if F64.eqb y x then ranks !! k = Some r else r = S k + 1)
       ∧ calculateRankings (Some scores) = zip_with with_rank scores ranks)
  ∧ (λ entry, get entry "finalScore") <$> calculateRankings (Some podium)
    = [num 9500 2; num 9500 2; num 8650 2]
  ∧ (λ entry, get entry "rank") <$> calculateRankings (Some podium)
    = [VNumber (F64.of_Z 1); VNumber (F64.of_Z 1); VNumber (F64.of_Z 3)]
  ∧ calculateRankings (Some podium) = zip_with with_rank podium [1; 1; 3].
Proof.
  split; [|split; [|split]];
    [|apply (bool_decide_unpack _); vm_compute; exact I..].
  intros scores xs Hxs Hdesc.
  exists (assigned_ranks 0 scores 1 VNull).
  assert (Hout : calculateRankings (Some scores)
                 = zip_with with_rank scores (assigned_ranks 0 scores 1 VNull)).
  { destruct scores as [|s scores]; [done|].
    rewrite calculateRankings_nonempty by done.
    by rewrite (sorted_input_kept _ xs). }
  split; [rewrite Hout; apply ranked_rank_reads, assigned_ranks_length|].
  split.
  { intros property Hp. rewrite Hout.
    apply ranked_other_reads; [done|apply assigned_ranks_length]. }
  split; [apply assigned_ranks_length|].
  split; [by destruct scores|]. split; [|exact Hout].
  intros k x y r Hx Hy Hr.
  pose proof (assigned_ranks_step scores xs Hxs 0 1 VNull k x y r Hx Hy Hr).
  by destruct (F64.eqb y x).
Qed.

End NumericRanking.

Lemma podium_has_final_scores : Forall2 has_final_score podium podium_scores.
Proof. repeat constructor; vm_compute; reflexivity. Qed.

Lemma podium_scores_descending : descending podium_scores.
Proof.
  intros k x y Hx Hy.
  destruct k as [|[|[|k]]]; cbn in Hx, Hy; [| |discriminate..];
    injection Hx as <-; injection Hy as <-; vm_compute; reflexivity.
Qed.

Lemma C2_ranking_law_witness :
  Forall2 has_final_score podium podium_scores
  ∧ descending podium_scores
  ∧ ∃ ranks : list nat,
      (λ entry, get entry "rank")
        <$> @calculateRankings example_builtins (Some podium)
      = (λ r, VNumber (F64.of_nat r)) <$> ranks
      ∧ (∀ property, property ≠ "rank"%string →
           (λ entry, get entry property)
             <$> @calculateRankings example_builtins (Some podium)
           = (λ score, get score property) <$> podium)
      ∧ length ranks = length podium
      ∧ (podium ≠ [] → ranks !! 0 = Some 1)
      ∧ (∀ k x y r,
           podium_scores !! k = Some x → podium_scores !! S k = Some y →
           ranks !! S k = Some r →
           if F64.eqb y x then ranks !! k = Some r else r = S k + 1)
      ∧ @calculateRankings example_builtins (Some podium)
        = zip_with with_rank podium ranks.
Proof.
  split; [exact podium_has_final_scores|].
  split; [exact podium_scores_descending|].
  exact (proj1 (@C2_ranking_law example_builtins) podium podium_scores
           podium_has_final_scores podium_scores_descending).
Defined.

Section StableDescending.
Context `{Builtins}.

Lemma ltb_leb (x y : float) : F64.ltb x y = true → F64.leb x y = true.
Proof.
  unfold F64.ltb, SFltb, F64.leb, SFleb. by destruct (SFcompare x y) as [[]|].
Qed.

Lemma HdRel_sort_insert (a x : object) (l : list object) :
  score_ge a x → HdRel score_ge a l →
  HdRel score_ge a (sort_insert byFinalScoreDesc x l).
Proof.
  intros Hax Hal. destruct l as [|y l]; simpl; [by constructor|].
  destruct (sorts_after byFinalScoreDesc x y); constructor; [|done].
  by inversion Hal.
Qed.

Lemma sort_insert_sorted (x : object) (l : list object) :
  numeric x → Forall numeric l → Sorted score_ge l →
  Sorted score_ge (sort_insert byFinalScoreDesc x l).
Proof.
  intros (vx & Hx & Hnx) Hnum Hsorted.
  induction l as [|y l IH]; simpl; [by repeat constructor|].
  apply Forall_cons in Hnum as [(vy & Hy & Hny) Hnum].
  apply Sorted_inv in Hsorted as [Hsorted Hhd].
  rewrite (sorts_after_numeric x y vx vy) by done.
  destruct (F64.ltb vx vy) eqn:Hlt.
  - constructor; [by apply IH|].
    apply HdRel_sort_insert; [|done].
    exists vy, vx. destruct Hx, Hy. by auto using ltb_leb.
  - constructor; [by constructor|]. constructor.
    exists vx, vy. destruct Hx, Hy. repeat split; try done.
    by apply ltb_false_iff_leb.
Qed.

Lemma Array_sort_sorted (l : list object) :
  Forall numeric l → Sorted score_ge (Array_sort byFinalScoreDesc l).
Proof.
  induction l as [|x l IH]; intros Hnum; simpl; [constructor|].
  apply Forall_cons in Hnum as [Hx Hnum].
  apply sort_insert_sorted; [done| |by apply IH].
  by rewrite Array_sort_perm.
Qed.

Lemma with_rank_final_score (entry : object) (r : nat) :
  get (with_rank entry r) "finalScore" = get entry "finalScore".
Proof. unfold get, with_rank. by rewrite lookup_insert_ne. Qed.

Lemma zip_with_rank_sorted (l : list object) :
  Sorted score_ge l → ∀ ranks, Sorted score_ge (zip_with with_rank l ranks).
Proof.
  induction 1 as [|a l Hsorted IH Hhd]; intros [|r ranks]; simpl;
    try constructor; [apply IH|].
  destruct Hhd as [|b l' (x & y & Ha & Hb & Hle)]; [constructor|].
  destruct ranks as [|r' ranks]; constructor.
  exists x, y. by rewrite !with_rank_final_score.
Qed.

(** Entries tied under [===] keep their arrival order. *)
Lemma Array_sort_stable (l : list object) (v : float) :
  Forall numeric l →
  List.filter (scored_at v) (Array_sort byFinalScoreDesc l)
  = List.filter (scored_at v) l.
Proof.
  intros Hnum. apply Array_sort_filter. intros a b Ha Hb Pa Pb.
  rewrite Forall_forall in Hnum.
  destruct (Hnum a Ha) as (x & Hx & Hnx).
  destruct (Hnum b Hb) as (y & Hy & Hny).
  rewrite (sorts_after_numeric a b x y) by done.
  unfold scored_at in Pa, Pb.
  destruct Hx as [Hx _], Hy as [Hy _]. rewrite Hx in Pa. rewrite Hy in Pb.
  by apply (eqb_same_not_ltb x y v).
Qed.

Lemma leb_antisym (x y : float) :
  F64.leb x y = true → F64.leb y x = true → F64.eqb x y = true.
Proof.
  unfold F64.leb, SFleb, F64.eqb, SFeqb. rewrite (SFcompare_antisym x y).
  by destruct (SFcompare x y) as [[]|].
Qed.

Lemma score_ge_trans (a b c : object) :
  numeric a → numeric b → numeric c →
  score_ge a b → score_ge b c → score_ge a c.
Proof.
  intros (va & [Ha Hda] & _) (vb & [Hb Hdb] & _) (vc & [Hc Hdc] & _).
  intros (x & y & Hx & Hy & Hyx) (y' & z & Hy' & Hz & Hzy).
  exists va, vc. repeat split; try done.
  rewrite Ha in Hx. rewrite Hb in Hy, Hy'. rewrite Hc in Hz.
  injection Hx as <-. injection Hy as <-. injection Hy' as <-.
  injection Hz as <-. by apply (leb_trans vc vb va).
Qed.

(** In a descending collection the first entry ranks at least as high as
    every later one. *)
Lemma sorted_head_ge (a : object) (l : list object) :
  Forall numeric (a :: l) → Sorted score_ge (a :: l) →
  ∀ b, b ∈ l → score_ge a b.
Proof.
  revert a. induction l as [|c l IH]; intros a Hnum Hs b Hb.
  { by apply elem_of_nil in Hb. }
  apply Sorted_inv in Hs as [Hs Hhd]. apply HdRel_inv in Hhd.
  apply elem_of_cons in Hb as [->|Hb]; [done|].
  apply Forall_cons in Hnum as [Ha Hnum].
  pose proof (IH c Hnum Hs b Hb) as Hcb.
  apply Forall_cons in Hnum as [Hc Hnum].
  rewrite Forall_forall in Hnum.
  by apply (score_ge_trans a c b); auto.
Qed.

Lemma scored_at_own (a : object) (v : float) :
  has_final_score a v → F64.is_nan v = false → scored_at v a = true.
Proof.
  intros [Ha _] Hv. unfold scored_at. rewrite Ha. cbn [strict_eq].
  unfold F64.eqb, SFeqb. by rewrite SFcompare_refl.
Qed.

(** Two descending arrangements that keep tied entries in the same order
    are the same arrangement. *)
Lemma sorted_stable_eq (l1 l2 : list object) :
  Forall numeric l1 → Forall numeric l2 → length l1 = length l2 →
  Sorted score_ge l1 → Sorted score_ge l2 →
  (∀ v, List.filter (scored_at v) l1 = List.filter (scored_at v) l2) →
  l1 = l2.
Proof.
  revert l2. induction l1 as [|a l1 IH]; intros [|b l2]; try done.
  intros Hn1 Hn2 Hlen Hs1 Hs2 Hf.
  assert (a = b) as <-.
  { pose proof Hn1 as Hn1'. pose proof Hn2 as Hn2'.
    apply Forall_cons in Hn1' as [(va & Hva & Hna) _].
    apply Forall_cons in Hn2' as [(vb & Hvb & Hnb) _].
    pose proof (Hf va) as Hfa. pose proof (Hf vb) as Hfb.
    cbn [List.filter] in Hfa, Hfb.
    rewrite (scored_at_own a va) in Hfa by done.
    rewrite (scored_at_own b vb) in Hfb by done.
    assert (Hab : a ∈ b :: l2).
    { destruct (scored_at va b).
      - injection Hfa as -> _. by left.
      - right. apply list_elem_of_In.
        apply (proj1 (filter_In (scored_at va) a l2)).
        rewrite <- Hfa. by left. }
    assert (Hba : b ∈ a :: l1).
    { destruct (scored_at vb a).
      - injection Hfb as -> _. by left.
      - right. apply list_elem_of_In.
        apply (proj1 (filter_In (scored_at vb) b l1)).
        rewrite Hfb. by left. }
    apply elem_of_cons in Hab as [->|Hab]; [done|].
    apply elem_of_cons in Hba as [->|Hba]; [done|].
    destruct (sorted_head_ge b l2 Hn2 Hs2 a Hab)
      as (x & y & Hx & Hy & Hyx).
    destruct (sorted_head_ge a l1 Hn1 Hs1 b Hba)
      as (y' & x' & Hy' & Hx' & Hxy).
    destruct Hva as [Hva _], Hvb as [Hvb _].
    rewrite Hva in Hy, Hy'. rewrite Hvb in Hx, Hx'.
    injection Hy as <-. injection Hy' as <-.
    injection Hx as <-. injection Hx' as <-.
    assert (Hb : scored_at va b = true).
    { unfold scored_at. rewrite Hvb. cbn [strict_eq].
      by apply leb_antisym. }
    rewrite Hb in Hfa. by injection Hfa. }
  f_equal. apply IH.
  - by apply Forall_cons in Hn1 as [_ ?].
  - by apply Forall_cons in Hn2 as [_ ?].
  - by injection Hlen.
  - by apply Sorted_inv in Hs1 as [? _].
  - by apply Sorted_inv in Hs2 as [? _].
  - intros v. specialize (Hf v). cbn [List.filter] in Hf.
    destruct (scored_at v a); [by injection Hf|done].
Qed.

(** The sort model is no choice among several: on entries with numeric
    final scores, every arrangement of the collection that is descending and
    keeps tied entries in arrival order, which is what ECMAScript asks of
    [Array.prototype.sort], is the one [Array_sort] builds. *)
Lemma Array_sort_unique (l sorted : list object) :
  Forall numeric l → sorted ≡ₚ l → Sorted score_ge sorted →
  (∀ v, List.filter (scored_at v) sorted = List.filter (scored_at v) l) →
  sorted = Array_sort byFinalScoreDesc l.
Proof.
  intros Hnum Hperm Hs Hf. apply sorted_stable_eq; try done.
  - by rewrite Hperm.
  - by rewrite Array_sort_perm.
  - by rewrite Hperm, Array_sort_length.
  - by apply Array_sort_sorted.
  - intros v. by rewrite Array_sort_stable.
Qed.

(** The entries of the output with a given final score read, rank apart,
    as the entries of the sorted collection with that final score. *)
Lemma ranked_filter_reads (v : float) (property : string)
    (sorted : list object) :
  property ≠ "rank"%string →
  ∀ ranks, length ranks = length sorted →
  (λ entry, get entry property)
    <$> List.filter (scored_at v) (zip_with with_rank sorted ranks)
  = (λ score, get score property) <$> List.filter (scored_at v) sorted.
Proof.
  intros Hp.
  induction sorted as [|s sorted IH]; intros [|r ranks] Hlen; try done.
  cbn [zip_with List.filter].
  assert (Hsame : scored_at v (with_rank s r) = scored_at v s)
    by (unfold scored_at; by rewrite with_rank_final_score).
  rewrite Hsame. injection Hlen as Hlen.
  destruct (scored_at v s); cbn [fmap list_fmap];
    [rewrite with_rank_other by done; f_equal|]; by apply IH.
Qed.

(** C6, for final scores that are numbers (NaN apart): the output is in
    descending order of final score and has one entry for each entry of
    the input; for every final score [v], the output entries whose final
    score is [v] read, in every property other than [rank], as the input
    entries whose final score is [v], in the order in which these
    arrived. *)
Theorem C6_descending_and_stable (scores : list object) :
  Forall numeric scores →
  Sorted score_ge (calculateRankings (Some scores))
  ∧ length (calculateRankings (Some scores)) = length scores
  ∧ (∀ (v : float) (property : string), property ≠ "rank"%string →
       (λ entry, get entry property)
         <$> List.filter (scored_at v) (calculateRankings (Some scores))
       = (λ score, get score property) <$> List.filter (scored_at v) scores)
  ∧ ∃ (sorted : list object) (ranks : list nat),
      calculateRankings (Some scores) = zip_with with_rank sorted ranks
      ∧ length ranks = length sorted
      ∧ sorted ≡ₚ scores
      ∧ ∀ v, List.filter (scored_at v) sorted = List.filter (scored_at v) scores.
Proof.
  intros Hnum.
  destruct scores as [|s scores'] eqn:Hscores.
  { split; [constructor|]. split; [done|]. split; [done|].
    exists [], []. by repeat split. }
  rewrite <- Hscores in *. assert (Hne : scores ≠ []) by (by subst).
  clear Hscores.
  rewrite calculateRankings_nonempty by done.
  split; [|split; [|split]].
  - apply zip_with_rank_sorted. by apply Array_sort_sorted.
  - rewrite length_zip_with, assigned_ranks_length, Array_sort_length. lia.
  - intros v property Hp.
    rewrite ranked_filter_reads by (done || apply assigned_ranks_length).
    by rewrite Array_sort_stable.
  - exists (Array_sort byFinalScoreDesc scores),
      (assigned_ranks 0 (Array_sort byFinalScoreDesc scores) 1 VNull).
    split; [done|]. split; [apply assigned_ranks_length|].
    split; [apply Array_sort_perm|].
    intros v. by apply Array_sort_stable.
Qed.

End StableDescending.

(** ** The tolerance test on the total weight *)

Section Tolerance.
Local Open Scope Z_scope.

Lemma lit_0_01 : F64.lit 1 2 = S754_finite false 5764607523034235 (-59).
Proof. reflexivity. Qed.

Lemma lit_0_99 : F64.lit 99 2 = S754_finite false 8917127262193582 (-53).
Proof. reflexivity. Qed.

Lemma lit_1_01 : F64.lit 101 2 = S754_finite false 4548635623644201 (-52).
Proof. reflexivity. Qed.

Lemma of_Z_1 : F64.of_Z 1 = S754_finite false 4503599627370496 (-52).
Proof. reflexivity. Qed.

(** A difference of magnitude at least [2^-6] rounds to more than 0.01. *)
Lemma far_from_tolerance (s : bool) (p : positive) (ez : Z) :
  -1074 ≤ ez → 2 ^ (-6 - ez) ≤ Z.pos p →
  F64.ltb (F64.lit 1 2) (F64.abs (binary_round F64.prec F64.emax s p ez))
  = true.
Proof.
  intros Hez Hp. rewrite lit_0_01.
  pose proof (digits2_pos_bounds p) as [Hlo Hhi].
  set (d := Z.pos (digits2_pos p)) in *.
  assert (Hd : -6 - ez < d).
  { apply (Z.pow_lt_mono_r_iff 2); lia. }
  destruct (binary_round_spec s p ez)
    as [->|[(_ & Hlt & Hq)|(m' & e' & -> & Hb & HE & _)]]; [done| |].
  - exfalso. fold d in Hlt, Hq.
    assert (HE : Z.max (d + ez - 53) (-1074) = d + ez - 53) by lia.
    rewrite HE in Hq.
    assert (0 < 2 ^ (d + ez - 53 - ez)) by (apply Z.pow_pos_nonneg; lia).
    apply Z.div_small_iff in Hq; [|lia].
    assert (2 ^ (d + ez - 53 - ez) ≤ 2 ^ (d - 1))
      by (apply Z.pow_le_mono_r; lia).
    lia.
  - fold d in HE. unfold F64.ltb, SFltb, F64.abs, SFabs, SFcompare.
    destruct (Z.compare_spec (-59) e'); [lia|done|lia].
Qed.

(** A magnitude [p * 2^ez] of at most 53 bits that does not round to more
    than 0.01 is at most 0.01. *)
Lemma within_tolerance_exact (s : bool) (p : positive) (ez : Z) :
  -59 ≤ ez → Z.pos p < 2 ^ 53 →
  F64.ltb (F64.lit 1 2) (F64.abs (binary_round F64.prec F64.emax s p ez))
  = false →
  Z.pos p * 2 ^ (ez + 59) ≤ 5764607523034235.
Proof.
  intros Hez Hp. rewrite lit_0_01.
  pose proof (digits2_pos_bounds p) as [Hlo Hhi].
  set (d := Z.pos (digits2_pos p)) in *.
  assert (Hd : d ≤ 53).
  { destruct (Z.le_gt_cases d 53); [done|].
    assert (2 ^ 53 ≤ 2 ^ (d - 1)) by (apply Z.pow_le_mono_r; lia). lia. }
  destruct (binary_round_spec s p ez)
    as [->|[(_ & Hlt & _)|(m' & e' & -> & Hb & HE & Hex & _)]];
    [done|fold d in Hlt; lia|].
  fold d in HE, Hex.
  set (E := Z.max (d + ez - 53) (-1074)) in *.
  assert (HEez : E ≤ ez) by lia. specialize (Hex HEez).
  destruct (bounded_mantissa _ _ Hb) as [Hm' _].
  unfold F64.ltb, SFltb, F64.abs, SFabs, SFcompare.
  destruct (Z.compare_spec (-59) e') as [He'|He'|He']; [|done|].
  - (* same exponent as 0.01: the mantissas decide *)
    subst e'. intros Hcmp.
    assert (Hle : Z.pos m' ≤ 5764607523034235).
    { apply Pos.compare_ge_iff. unfold Pos.compare.
      by destruct (Pos.compare_cont Eq 5764607523034235 m'). }
    assert (0 < 2 ^ (-59 - E)) by (apply Z.pow_pos_nonneg; lia).
    replace (ez - E) with ((ez + 59) + (-59 - E)) in Hex by lia.
    rewrite Z.pow_add_r in Hex by lia.
    assert (Z.pos m' = Z.pos p * 2 ^ (ez + 59)) by nia.
    lia.
  - (* a smaller exponent: the value is below 2^-6 *)
    intros _.
    assert (0 < 2 ^ (-60 - E)) by (apply Z.pow_pos_nonneg; lia).
    assert (0 < 2 ^ (ez + 59)) by (apply Z.pow_pos_nonneg; lia).
    assert (Hpow : 2 ^ (e' - E) ≤ 2 ^ (-60 - E))
      by (apply Z.pow_le_mono_r; lia).
    replace (ez - E) with ((ez + 59) + (1 + (-60 - E))) in Hex by lia.
    rewrite (Z.pow_add_r 2 (ez + 59)), (Z.pow_add_r 2 1), Z.pow_1_r in Hex
      by lia.
    set (K := Z.pos p * 2 ^ (ez + 59)) in *.
    set (R := 2 ^ (-60 - E)) in *.
    assert (K * 2 * R ≤ Z.pos m' * R) by nia.
    assert (K * 2 ≤ Z.pos m') by nia.
    change (2 ^ 53) with 9007199254740992 in Hm'. lia.
Qed.

Lemma leb_mantissas (m1 m2 : positive) (e : Z) :
  Z.pos m1 ≤ Z.pos m2 →
  F64.leb (S754_finite false m1 e) (S754_finite false m2 e) = true.
Proof.
  intros Hle. change (m1 ≤ m2)%positive in Hle.
  unfold F64.leb, SFleb, SFcompare. rewrite Z.compare_refl.
  apply Pos.compare_le_iff in Hle. unfold Pos.compare in Hle.
  by destruct (Pos.compare_cont Eq m1 m2).
Qed.

Lemma leb_exponents (m1 m2 : positive) (e1 e2 : Z) :
  e1 < e2 →
  F64.leb (S754_finite false m1 e1) (S754_finite false m2 e2) = true.
Proof.
  intros Hlt. unfold F64.leb, SFleb, SFcompare.
  by destruct (Z.compare_spec e1 e2); try lia.
Qed.

(** A binary64 total that passes the test [Math.abs(t - 1.0) > 0.01] lies
    between the numbers 0.99 and 1.01. *)
Lemma tolerance_bounds (t : float) :
  F64.is_double t = true → F64.is_nan t = false →
  F64.ltb (F64.lit 1 2) (F64.Math_abs (F64.sub t (F64.of_Z 1))) = false →
  F64.leb (F64.lit 99 2) t = true ∧ F64.leb t (F64.lit 101 2) = true.
Proof.
  intros Ht Hnan Hoff. unfold F64.Math_abs in Hoff.
  destruct t as [s|s| |s m e];
    [destruct s; vm_compute in Hoff; discriminate..|discriminate|].
  rewrite of_Z_1, sub_finite in Hoff. rewrite lit_0_99, lit_1_01.
  destruct (bounded_spec _ _ Ht) as (_ & He & _).
  destruct (bounded_mantissa _ _ Ht) as [Hm Hnorm].
  set (ez := Z.min e (-52)) in *.
  assert (Ha : 0 < 2 ^ (e - ez)) by (apply Z.pow_pos_nonneg; lia).
  assert (Hb : 0 < 2 ^ (-52 - ez)) by (apply Z.pow_pos_nonneg; lia).
  assert (Hez : -1074 ≤ ez) by lia.
  assert (Hone : 4503599627370496 * 2 ^ (-52 - ez) = 2 ^ (- ez)).
  { change 4503599627370496 with (2 ^ 52).
    rewrite <- Z.pow_add_r by lia. f_equal. lia. }
  assert (Hsmall : 2 ^ (-6 - ez) ≤ 2 ^ (- ez))
    by (apply Z.pow_le_mono_r; lia).
  cbn [cond_Zopp] in Hoff. rewrite Hone in Hoff.
  destruct s.
  { (* negative totals *)
    exfalso. cbn [cond_Zopp] in Hoff.
    destruct (- (Z.pos m * 2 ^ (e - ez)) - 2 ^ (- ez)) as [|p|p] eqn:HM;
      [lia|lia|].
    try rewrite HM in Hoff. cbn [binary_normalize] in Hoff.
    rewrite far_from_tolerance in Hoff; [done|done|lia]. }
  cbn [cond_Zopp] in Hoff.
  destruct (Z.le_gt_cases (-51) e) as [Hbig|Hlt2].
  { (* totals of 2 and more *)
    exfalso. assert (Hezv : ez = -52) by lia. rewrite Hezv in *.
    assert (2 ^ 1 ≤ 2 ^ (e - -52)) by (apply Z.pow_le_mono_r; lia).
    assert (2 ^ 52 ≤ Z.pos m) by (apply Hnorm; lia).
    change (2 ^ 1) with 2 in *. change (2 ^ (- -52)) with (2 ^ 52) in *.
    change (2 ^ (-6 - -52)) with (2 ^ 46) in *.
    destruct (Z.pos m * 2 ^ (e - -52) - 2 ^ 52) as [|p|p] eqn:HM; [nia| |nia].
    try rewrite HM in Hoff. cbn [binary_normalize] in Hoff.
    rewrite far_from_tolerance in Hoff; [done|done|].
    change (2 ^ (-6 - -52)) with (2 ^ 46). change (2 ^ 46) with 70368744177664.
    change (2 ^ 52) with 4503599627370496 in *. nia. }
  destruct (Z.le_gt_cases e (-54)) as [Hlow|Hgt].
  { (* totals below one half *)
    exfalso. assert (Hezv : ez = e) by lia. rewrite Hezv in *.
    rewrite Z.sub_diag in *. change (2 ^ 0) with 1 in *.
    rewrite Z.mul_1_r in Hoff.
    assert (2 ^ 54 ≤ 2 ^ (- e)) by (apply Z.pow_le_mono_r; lia).
    assert (Hhalf : 2 ^ (- e) = 2 * 2 ^ (- e - 1)).
    { rewrite <- (Z.pow_succ_r 2) by lia. f_equal. lia. }
    assert (2 ^ (-6 - e) ≤ 2 ^ (- e - 1)) by (apply Z.pow_le_mono_r; lia).
    change (2 ^ 53) with 9007199254740992 in *.
    change (2 ^ 54) with 18014398509481984 in *.
    destruct (Z.pos m - 2 ^ (- e)) as [|p|p] eqn:HM; [lia|lia|].
    try rewrite HM in Hoff. cbn [binary_normalize] in Hoff.
    rewrite far_from_tolerance in Hoff; [done|done|lia]. }
  assert (Hcases : e = -53 ∨ e = -52) by lia.
  assert (Hm52 : 2 ^ 52 ≤ Z.pos m) by (apply Hnorm; lia).
  change (2 ^ 52) with 4503599627370496 in Hm52.
  change (2 ^ 53) with 9007199254740992 in Hm.
  destruct Hcases as [-> | ->].
  - (* from one half up to one *)
    change ez with (-53) in *.
    change (2 ^ (-53 - -53)) with 1 in Hoff.
    change (2 ^ (- -53)) with 9007199254740992 in Hoff.
    rewrite Z.mul_1_r in Hoff.
    destruct (Z.pos m - 9007199254740992) as [|p|p] eqn:HM; [lia|lia|].
    try rewrite HM in Hoff. cbn [binary_normalize] in Hoff.
    apply within_tolerance_exact in Hoff; [|lia|lia].
    change (2 ^ (-53 + 59)) with 64 in Hoff.
    split; [apply leb_mantissas|by apply leb_exponents].
    clear -Hoff HM. lia.
  - (* from one up to two *)
    change ez with (-52) in *.
    change (2 ^ (-52 - -52)) with 1 in Hoff.
    change (2 ^ (- -52)) with 4503599627370496 in Hoff.
    rewrite Z.mul_1_r in Hoff.
    destruct (Z.pos m - 4503599627370496) as [|p|p] eqn:HM; [|clear Hb|lia].
    + assert (Hm1 : m = 4503599627370496%positive) by lia. subst m.
      split; reflexivity.
    + try rewrite HM in Hoff. cbn [binary_normalize] in Hoff.
      apply within_tolerance_exact in Hoff; [|lia|lia].
      change (2 ^ (-52 + 59)) with 128 in Hoff.
      split; [by apply leb_exponents|apply leb_mantissas].
      clear -Hoff HM. lia.
Qed.

End Tolerance.

(** ** validateCriteria *)

Section TotalWeight.
Local Open Scope Z_scope.

(** Adding a zero of either sign leaves a sum as it is, the sum [-0]
    apart. *)
Lemma add_zero_r (s : float) (sx : bool) :
  s ≠ S754_zero true → F64.add s (S754_zero sx) = s.
Proof.
  intros Hs. destruct s as [[]|ss| |ss m e]; try done; by destruct sx.
Qed.

Lemma add_not_neg_zero (s x : float) :
  F64.is_double s = true → F64.is_double x = true →
  s ≠ S754_zero true → x ≠ S754_zero true →
  F64.add s x ≠ S754_zero true.
Proof.
  intros Hs Hx Hsz Hxz.
  destruct s as [[]|ss| |ss ms es], x as [[]|sx| |sx mx ex]; try done;
    try (by destruct ss); try (by destruct ss, sx).
  rewrite add_finite. intros Hz.
  destruct (bounded_spec _ _ Hs) as (_ & Hes & _).
  destruct (bounded_spec _ _ Hx) as (_ & Hex & _).
  pose proof (binary_normalize_sign
    (cond_Zopp ss (Z.pos ms * 2 ^ (es - Z.min es ex))
     + cond_Zopp sx (Z.pos mx * 2 ^ (ex - Z.min es ex)))
    (Z.min es ex) ltac:(lia)) as Hsign.
  rewrite Hz in Hsign. cbn in Hsign.
  destruct (cond_Zopp ss (Z.pos ms * 2 ^ (es - Z.min es ex))
            + cond_Zopp sx (Z.pos mx * 2 ^ (ex - Z.min es ex))) eqn:HM;
    done.
Qed.


End TotalWeight.

Section AcceptedWeights.
Context `{Builtins}.

(** One step of the [reduce]: on a weight that is missing or a number in
    [0,1] the code adds what the specification's sum adds, and the sum stays
    a binary64 number. *)
Lemma weight_step (s : float) (v : value) :
  F64.is_double s = true → F64.is_nan s = false → s ≠ S754_zero true →
  json_value v →
  (present v = true → number_in (F64.of_Z 0) (F64.of_Z 1) v) →
  js_add (VNumber s) (js_or v (VNumber (F64.of_Z 0)))
  = VNumber (F64.add s (weight_or_zero v))
  ∧ F64.is_double (F64.add s (weight_or_zero v)) = true
  ∧ F64.is_nan (F64.add s (weight_or_zero v)) = false
  ∧ F64.add s (weight_or_zero v) ≠ S754_zero true.
Proof.
  intros Hs Hn Hz Hjson Hin.
  assert (Hkeep : F64.add s (F64.of_Z 0) = s) by (by apply add_zero_r).
  destruct v as [| |b|x|str];
    try (cbn [js_or ToBoolean weight_or_zero js_add ToNumber];
         rewrite Hkeep; by repeat split);
    try (by destruct Hin as (x & Hx & _)).
  destruct Hin as (x' & [= <-] & Hlo & Hhi); [done|].
  destruct Hjson as [Hdx Hnx].
  destruct x as [sx|sx| |sx m e]; try done.
  - cbn [js_or ToBoolean weight_or_zero js_add ToNumber].
    rewrite Hkeep, add_zero_r by done. by repeat split.
  - by destruct sx.
  - destruct sx; [done|].
    cbn [js_or ToBoolean weight_or_zero js_add ToNumber].
    repeat split.
    + by apply add_is_double.
    + by apply add_not_nan.
    + by apply add_not_neg_zero.
Qed.

Lemma total_fold (criteria : object) (fields : list string) :
  (∀ field, field ∈ fields →
     json_value (get criteria field)
     ∧ (present (get criteria field) = true →
        number_in (F64.of_Z 0) (F64.of_Z 1) (get criteria field))) →
  ∀ s, F64.is_double s = true → F64.is_nan s = false → s ≠ S754_zero true →
    let total :=
      fold_left
        (λ sum field, F64.add sum (weight_or_zero (get criteria field)))
        fields s in
    fold_left
      (λ sum field,
         js_add sum (js_or (get criteria field) (VNumber (F64.of_Z 0))))
      fields (VNumber s)
    = VNumber total
    ∧ F64.is_double total = true ∧ F64.is_nan total = false.
Proof.
  induction fields as [|f fields IH]; intros Hfields s Hs Hn Hz;
    cbv zeta; cbn [fold_left].
  - done.
  - destruct (Hfields f) as [Hjson Hin]; [by left|].
    destruct (weight_step s (get criteria f) Hs Hn Hz Hjson Hin)
      as (-> & Hs' & Hn' & Hz').
    apply IH; try done. intros g Hg. apply Hfields. by right.
Qed.

Lemma totalWeight_weight_sum (criteria : object) :
  json_weights criteria →
  (∀ field, field ∈ weightFields → present (get criteria field) = true →
     number_in (F64.of_Z 0) (F64.of_Z 1) (get criteria field)) →
  totalWeight criteria = VNumber (weight_sum criteria)
  ∧ F64.is_double (weight_sum criteria) = true
  ∧ F64.is_nan (weight_sum criteria) = false.
Proof.
  intros Hjson Hin. unfold totalWeight, weight_sum.
  apply total_fold; try done. intros f Hf. split; [by apply Hjson|by apply Hin].
Qed.

Lemma filter_nil_iff {A : Type} (P : A → bool) (l : list A) :
  List.filter P l = [] ↔ ∀ x, x ∈ l → P x = false.
Proof.
  induction l as [|a l IH]; simpl.
  - split; [intros _ x Hx; by apply elem_of_nil in Hx|done].
  - destruct (P a) eqn:Ha; split.
    + done.
    + intros Hall. specialize (Hall a ltac:(by left)). congruence.
    + intros Hnil x [->|Hx]%elem_of_cons; [done|]. by apply IH.
    + intros Hall. apply IH. intros x Hx. apply Hall. by right.
Qed.

Lemma weight_in_range_iff (criteria : object) (field : string) :
  json_value (get criteria field) →
  weight_out_of_range criteria field = false
  ↔ (present (get criteria field) = true →
     number_in (F64.of_Z 0) (F64.of_Z 1) (get criteria field)).
Proof.
  intros Hjson. unfold weight_out_of_range.
  destruct (present (get criteria field)); cbn [andb]; [|done].
  destruct (get criteria field) as [| |b|x|str]; cbn [not_number_in];
    try (split; [done|]; by intros (x & Hx & _)).
  destruct Hjson as [_ Hnx].
  assert (Hn0 : F64.is_nan (F64.of_Z 0) = false) by done.
  assert (Hn1 : F64.is_nan (F64.of_Z 1) = false) by done.
  rewrite orb_false_iff, !ltb_false_iff_leb by done. split.
  - intros [Hlo Hhi] _. by exists x.
  - intros Hin. by destruct Hin as (x' & [= <-] & Hlo & Hhi).
Qed.

Lemma validateCriteria_accepts (criteria : object) :
  isValid (validateCriteria criteria) = true
  ↔ (∀ field, field ∈ weightFields →
       weight_out_of_range criteria field = false)
    ∧ off_by_more_than_tolerance (totalWeight criteria) = false.
Proof.
  assert (Hvalid : isValid (validateCriteria criteria)
                   = Nat.eqb (length (errors (validateCriteria criteria))) 0).
  { unfold validateCriteria. cbv zeta. cbn [isValid errors]. reflexivity. }
  rewrite Hvalid, validateCriteria_errors, Nat.eqb_eq, length_zero_iff_nil.
  rewrite <- filter_nil_iff.
  destruct (off_by_more_than_tolerance _); split.
  - intros Hnil. by apply app_eq_nil in Hnil as [_ Hnil].
  - by intros [_ ?].
  - rewrite app_nil_r. intros Hnil%fmap_nil_inv. by split.
  - intros [-> _]. reflexivity.
Qed.

End AcceptedWeights.

Section CriteriaValidator.
Context `{Builtins}.

Lemma off_by_more_than_tolerance_number (t : float) :
  off_by_more_than_tolerance (VNumber t)
  = F64.ltb (F64.lit 1 2) (F64.Math_abs (F64.sub t (F64.of_Z 1))).
Proof. reflexivity. Qed.


(** Outside JSON: a weight that is NaN passes the range test, since both
    [NaN < 0] and [NaN > 1] are false, and counts as 0 in the sum, since
    [NaN || 0] is 0. *)
Lemma validateCriteria_accepts_NaN :
  isValid
    (validateCriteria
       {[ "logic_weight" := VNumber F64.NaN; "clarity_weight" := num 1 0 ]})
  = true.
Proof. vm_compute. reflexivity. Qed.

End CriteriaValidator.


(** ** The validators report every violation *)

Section AllViolations.
Context `{Builtins}.








End AllViolations.






Lemma default_criteria_json : json_weights default_criteria.
Proof.
  intros field Hfield. unfold weightFields in Hfield.
  repeat (apply elem_of_cons in Hfield as [->|Hfield];
          [vm_compute; by split|]).
  by apply elem_of_nil in Hfield.
Qed.


Lemma arrivals_numeric : Forall numeric arrivals.
Proof.
  repeat constructor; eexists; (split; [split|]); vm_compute; reflexivity.
Qed.

Lemma C6_descending_and_stable_witness :
  Forall numeric arrivals
  ∧ Sorted score_ge (@calculateRankings example_builtins (Some arrivals))
  ∧ length (@calculateRankings example_builtins (Some arrivals))
    = length arrivals
  ∧ (∀ (v : float) (property : string), property ≠ "rank"%string →
       (λ entry, get entry property)
         <$> List.filter (scored_at v)
               (@calculateRankings example_builtins (Some arrivals))
       = (λ score, get score property)
           <$> List.filter (scored_at v) arrivals)
  ∧ ∃ (sorted : list object) (ranks : list nat),
      @calculateRankings example_builtins (Some arrivals)
      = zip_with with_rank sorted ranks
      ∧ length ranks = length sorted
      ∧ sorted ≡ₚ arrivals
      ∧ ∀ v, List.filter (scored_at v) sorted
             = List.filter (scored_at v) arrivals.
Proof.
  split; [exact arrivals_numeric|].
  exact (@C6_descending_and_stable example_builtins arrivals arrivals_numeric).
Defined.

(** C6 as stated fails for a collection with a final score that is NaN:
    the entries with final scores 1, NaN, 2 come out in that order, the 2
    behind the 1; and no arrangement of these entries is in descending
    order, whatever order a sort leaves them in. *)
Lemma C6_counterexample :
  (λ entry, get entry "userId")
    <$> @calculateRankings example_builtins (Some unscored_between)
  = [VString "ada"; VString "bob"; VString "cyd"]
  ∧ (λ entry, get entry "finalScore")
      <$> @calculateRankings example_builtins (Some unscored_between)
    = [VNumber (F64.of_Z 1); VNumber F64.NaN; VNumber (F64.of_Z 2)]
  ∧ F64.ltb (F64.of_Z 1) (F64.of_Z 2) = true
  ∧ ¬ Sorted score_ge
        (@calculateRankings example_builtins (Some unscored_between))
  ∧ ∀ arranged, arranged ≡ₚ unscored_between → ¬ Sorted score_ge arranged.
Proof.
  assert (Hnan : ∀ a b : object,
            get a "finalScore" = VNumber F64.NaN
            ∨ get b "finalScore" = VNumber F64.NaN →
            ¬ score_ge a b).
  { intros a b Hab (x & y & Ha & Hb & Hle).
    destruct Hab as [Hn|Hn]; [rewrite Hn in Ha|rewrite Hn in Hb].
    - assert (Hx : x = F64.NaN) by congruence. subst x. by destruct y.
    - assert (Hy : y = F64.NaN) by congruence. subst y. by destruct x. }
  split; [vm_compute; reflexivity|]. split; [vm_compute; reflexivity|].
  split; [vm_compute; reflexivity|].
  assert (Hall : ∀ arranged,
            length arranged = 3 →
            (∃ entry, entry ∈ arranged
                      ∧ get entry "finalScore" = VNumber F64.NaN) →
            ¬ Sorted score_ge arranged).
  { intros [|a [|b [|c [|]]]] Hlen (e & He & Hn) Hsorted; try done.
    apply Sorted_inv in Hsorted as [Hrest Hab].
    apply HdRel_inv in Hab.
    apply Sorted_inv in Hrest as [_ Hbc]. apply HdRel_inv in Hbc.
    apply elem_of_cons in He as [Heq|He];
      [subst e; exact (Hnan a b (or_introl Hn) Hab)|].
    apply elem_of_cons in He as [Heq|He];
      [subst e; exact (Hnan a b (or_intror Hn) Hab)|].
    apply elem_of_cons in He as [Heq|He];
      [subst e; exact (Hnan b c (or_intror Hn) Hbc)|].
    by apply elem_of_nil in He. }
  split.
  - apply Hall; [vm_compute; reflexivity|].
    exists (with_rank (scored "bob" F64.NaN) 2).
    split; [|vm_compute; reflexivity].
    apply list_elem_of_lookup. exists 1. vm_compute. reflexivity.
  - intros arranged Hperm. apply Hall.
    + by rewrite Hperm.
    + exists (scored "bob" F64.NaN). split; [|vm_compute; reflexivity].
      rewrite Hperm. unfold unscored_between. by right; left.
Qed.

Lemma C4_no_field_checks_in_aggregation_witness :
  @off_by_more_than_tolerance example_builtins
    (@sum_left example_builtins (weights_after_defaults ∅)) = false
  ∧ (∃ r, @calculateFinalScore example_builtins off_scale_score ∅ = Returns r
       ∧ score (logic (breakdown r)) = get off_scale_score "logic_score")
  ∧ @off_by_more_than_tolerance example_builtins
      (@sum_left example_builtins (weights_after_defaults test_criteria))
    = true
  ∧ @calculateFinalScore example_builtins off_scale_score test_criteria
    = Throws ("Weights must sum to 1.0, got "
              +:+ @ToString example_builtins
                    (@sum_left example_builtins
                       (weights_after_defaults test_criteria))).
Proof.
  assert (Hok : @off_by_more_than_tolerance example_builtins
                  (@sum_left example_builtins (weights_after_defaults ∅))
                = false) by (vm_compute; reflexivity).
  assert (Hoff : @off_by_more_than_tolerance example_builtins
                   (@sum_left example_builtins
                      (weights_after_defaults test_criteria))
                 = true) by (vm_compute; reflexivity).
  split; [exact Hok|]. split; [|split; [exact Hoff|]].
  - destruct (proj2 (proj2 (proj2
                (@C4_no_field_checks_in_aggregation example_builtins
                   off_scale_score ∅))) Hok) as (r & Hr & Hlogic & _).
    exists r. by split.
  - exact (proj1 (@C4_no_field_checks_in_aggregation example_builtins
                    off_scale_score test_criteria) Hoff).
Defined.

(** ** The order of binary64 numbers on the integer scale *)

Section OrderOnScale.
Local Open Scope Z_scope.

Lemma ltb_scaled (x y : float) :
  is_number x → is_number y →
  F64.ltb x y = (F64.scaled x <? F64.scaled y).
Proof.
  intros [Hx Hnx] [Hy Hny]. unfold F64.ltb, SFltb, Z.ltb.
  by rewrite SFcompare_scaled.
Qed.

Lemma leb_scaled (x y : float) :
  is_number x → is_number y →
  F64.leb x y = (F64.scaled x <=? F64.scaled y).
Proof.
  intros [Hx Hnx] [Hy Hny]. unfold F64.leb, SFleb, Z.leb.
  by rewrite SFcompare_scaled.
Qed.

Lemma eqb_scaled (x y : float) :
  is_number x → is_number y →
  F64.eqb x y = (F64.scaled x =? F64.scaled y).
Proof.
  intros [Hx Hnx] [Hy Hny]. unfold F64.eqb, SFeqb.
  rewrite SFcompare_scaled by done.
  destruct (Z.compare_spec (F64.scaled x) (F64.scaled y));
    symmetry; [apply Z.eqb_eq|apply Z.eqb_neq..]; lia.
Qed.

End OrderOnScale.

(** ** Ranks count the entries that score higher *)

Section Counting.

Lemma filter_all {A : Type} (P : A → bool) (l : list A) :
  Forall (λ x, P x = true) l → List.filter P l = l.
Proof.
  induction 1 as [|x l Hx _ IH]; simpl; [done|]. by rewrite Hx, IH.
Qed.

Lemma filter_none {A : Type} (P : A → bool) (l : list A) :
  Forall (λ x, P x = false) l → List.filter P l = [].
Proof.
  induction 1 as [|x l Hx _ IH]; simpl; [done|]. by rewrite Hx, IH.
Qed.

Lemma filter_same {A : Type} (P Q : A → bool) (l : list A) :
  Forall (λ x, P x = Q x) l → List.filter P l = List.filter Q l.
Proof.
  induction 1 as [|x l Hx _ IH]; simpl; [done|]. by rewrite Hx, IH.
Qed.

Lemma filter_length_perm {A : Type} (P : A → bool) (l l' : list A) :
  l ≡ₚ l' → length (List.filter P l) = length (List.filter P l').
Proof.
  induction 1 as [|x l l' _ IH|x y l|l l' l'' _ IH _ IH']; simpl.
  - done.
  - destruct (P x); simpl; by rewrite IH.
  - by destruct (P x), (P y).
  - by rewrite IH.
Qed.

(** In a descending sequence of numbers an earlier one is at least a later
    one. *)
Lemma descending_le (xs : list float) :
  Forall is_number xs → descending xs →
  ∀ j k a b, j ≤ k → xs !! j = Some a → xs !! k = Some b →
    F64.leb b a = true.
Proof.
  intros Hnum Hdesc j k. induction k as [|k IH]; intros a b Hjk Ha Hb.
  - assert (j = 0) as -> by lia. rewrite Ha in Hb. injection Hb as ->.
    assert (Hb : is_number b) by (by eapply Forall_lookup_1).
    rewrite leb_scaled by done. apply Z.leb_le. lia.
  - destruct (decide (j = S k)) as [->|Hne].
    + rewrite Ha in Hb. injection Hb as ->.
      assert (Hb : is_number b) by (by eapply Forall_lookup_1).
      rewrite leb_scaled by done. apply Z.leb_le. lia.
    + destruct (xs !! k) as [c|] eqn:Hc.
      2: { apply lookup_ge_None in Hc. apply lookup_lt_Some in Hb. lia. }
      assert (Hca : F64.leb c a = true) by (apply IH; [lia|done..]).
      pose proof (Hdesc k c b Hc Hb) as Hbc.
      assert (is_number a) by (by eapply Forall_lookup_1).
      assert (is_number b) by (by eapply Forall_lookup_1).
      assert (is_number c) by (by eapply Forall_lookup_1).
      rewrite leb_scaled in * by done.
      apply Z.leb_le in Hca, Hbc. apply Z.leb_le. lia.
Qed.

(** The ranking law, read from the top: when the first rank is 1 and each
    later rank is the previous one on a tie and the position otherwise, the
    rank of a number is one more than how many numbers exceed it. *)
Lemma ranks_count (xs : list float) (ranks : list nat) :
  Forall is_number xs → descending xs →
  (∀ x, xs !! 0 = Some x → ranks !! 0 = Some 1) →
  (∀ k x y r, xs !! k = Some x → xs !! S k = Some y →
     ranks !! S k = Some r →
     if F64.eqb y x then ranks !! k = Some r else r = S k + 1) →
  ∀ k x r, xs !! k = Some x → ranks !! k = Some r →
    r = 1 + length (List.filter (F64.ltb x) xs).
Proof.
  intros Hnum Hdesc Hfirst Hstep.
  assert (Hlow : ∀ k x, xs !! k = Some x →
    List.filter (F64.ltb x) (drop k xs) = []).
  { intros k x Hx. apply filter_none, Forall_forall. intros y Hy.
    apply list_elem_of_lookup in Hy as [j Hj]. rewrite lookup_drop in Hj.
    assert (is_number x) by (by eapply Forall_lookup_1).
    assert (is_number y) by (by eapply Forall_lookup_1).
    pose proof (descending_le xs Hnum Hdesc k (k + j) x y ltac:(lia) Hx Hj)
      as Hle.
    rewrite leb_scaled in Hle by done. rewrite ltb_scaled by done.
    apply Z.leb_le in Hle. apply Z.ltb_ge. lia. }
  assert (Hcount : ∀ k x, xs !! k = Some x →
    length (List.filter (F64.ltb x) xs)
    = length (List.filter (F64.ltb x) (take k xs))).
  { intros k x Hx. rewrite <- (take_drop k xs) at 1.
    by rewrite List.filter_app, length_app, (Hlow k x Hx), Nat.add_0_r. }
  induction k as [|k IH]; intros x r Hx Hr.
  - rewrite (Hcount 0 x Hx), take_0. simpl.
    rewrite (Hfirst x Hx) in Hr. by injection Hr.
  - destruct (xs !! k) as [c|] eqn:Hc.
    2: { apply lookup_ge_None in Hc. apply lookup_lt_Some in Hx. lia. }
    assert (Hnx : is_number x) by (by eapply Forall_lookup_1).
    assert (Hnc : is_number c) by (by eapply Forall_lookup_1).
    pose proof (Hstep k c x r Hc Hx Hr) as Hlaw.
    pose proof (Hdesc k c x Hc Hx) as Hxc.
    rewrite leb_scaled in Hxc by done. apply Z.leb_le in Hxc.
    rewrite eqb_scaled in Hlaw by done.
    destruct (Z.eqb_spec (F64.scaled x) (F64.scaled c)) as [Heq|Hneq].
    + rewrite (IH c r eq_refl Hlaw). do 2 f_equal.
      apply filter_same, Forall_forall. intros y Hy.
      assert (is_number y) by (by eapply (proj1 (Forall_forall _ _) Hnum)).
      rewrite !ltb_scaled by done. by rewrite Heq.
    + subst r. rewrite (Hcount (S k) x Hx).
      rewrite filter_all.
      * rewrite length_take. apply lookup_lt_Some in Hx. lia.
      * apply Forall_forall. intros y Hy.
        apply list_elem_of_lookup in Hy as [j Hj].
        apply lookup_take_Some in Hj as [Hj Hjk].
        assert (is_number y) by (by eapply Forall_lookup_1).
        pose proof (descending_le xs Hnum Hdesc j k y c ltac:(lia) Hj Hc)
          as Hle.
        rewrite leb_scaled in Hle by done. rewrite ltb_scaled by done.
        apply Z.leb_le in Hle. apply Z.ltb_lt. lia.
Qed.

End Counting.

Section CompetitionRanking.
Context `{Builtins}.

Lemma numeric_scores (l : list object) :
  Forall numeric l →
  ∃ xs, Forall2 has_final_score l xs ∧ Forall is_number xs.
Proof.
  induction 1 as [|e l (x & Hx & Hnx) _ (xs & Hxs & Hnum)].
  - exists []. by split.
  - exists (x :: xs). split; constructor; try done. split; [apply Hx|done].
Qed.

Lemma sorted_descending (l : list object) (xs : list float) :
  Forall2 has_final_score l xs → Sorted score_ge l → descending xs.
Proof.
  induction 1 as [|e x l xs [He _] Hrest IH]; intros Hs k a b Ha Hb; [done|].
  apply Sorted_inv in Hs as [Hs Hhd].
  destruct k as [|k]; [|by apply (IH Hs k)].
  cbn in Ha, Hb. injection Ha as <-.
  destruct Hrest as [|e' y l' xs' [He' _] _]; [done|].
  cbn in Hb. injection Hb as <-.
  apply HdRel_inv in Hhd as (x' & y' & Hx' & Hy' & Hle).
  rewrite He in Hx'. rewrite He' in Hy'.
  injection Hx' as <-. by injection Hy' as <-.
Qed.

Lemma outranking_count (l : list object) (xs : list float) (e : object)
    (x : float) :
  Forall2 has_final_score l xs → get e "finalScore" = VNumber x →
  length (List.filter (λ other, outranks other e) l)
  = length (List.filter (F64.ltb x) xs).
Proof.
  intros Hxs He. induction Hxs as [|o y l xs [Ho _] _ IH]; [done|].
  simpl. unfold outranks at 1. rewrite Ho, He.
  destruct (F64.ltb x y); simpl; by rewrite IH.
Qed.

(** The loop assigns each entry of the sorted collection its standard
    competition rank. *)
Lemma assigned_ranks_competition (scores : list object) :
  Forall numeric scores →
  assigned_ranks 0 (Array_sort byFinalScoreDesc scores) 1 VNull
  = competition_rank scores <$> Array_sort byFinalScoreDesc scores.
Proof.
  intros Hnum.
  set (sorted := Array_sort byFinalScoreDesc scores).
  assert (Hperm : sorted ≡ₚ scores) by apply Array_sort_perm.
  assert (Hnum' : Forall numeric sorted) by (by rewrite Hperm).
  destruct (numeric_scores sorted Hnum') as (xs & Hxs & Hnx).
  assert (Hdesc : descending xs).
  { apply (sorted_descending sorted); [done|]. by apply Array_sort_sorted. }
  apply list_eq. intros k. rewrite list_lookup_fmap.
  destruct (sorted !! k) as [e|] eqn:He; cbn.
  2: { apply lookup_ge_None. rewrite assigned_ranks_length.
       by apply lookup_ge_None. }
  destruct (assigned_ranks 0 sorted 1 VNull !! k) as [r|] eqn:Hr.
  2: { apply lookup_ge_None in Hr. rewrite assigned_ranks_length in Hr.
       apply lookup_lt_Some in He. lia. }
  f_equal.
  destruct (Forall2_lookup_l _ _ _ _ _ Hxs He) as (x & Hx & [Hex _]).
  unfold competition_rank.
  rewrite <- (filter_length_perm _ _ _ Hperm).
  rewrite (outranking_count sorted xs e x Hxs Hex).
  apply (ranks_count xs (assigned_ranks 0 sorted 1 VNull) Hnx Hdesc)
    with (k := k); try done.
  - intros x0 Hx0. destruct sorted; [done|reflexivity].
  - intros k0 x0 y0 r0 Hx0 Hy0 Hr0.
    pose proof (assigned_ranks_step sorted xs Hxs 0 1 VNull k0 x0 y0 r0
                  Hx0 Hy0 Hr0) as Hlaw.
    by destruct (F64.eqb y0 x0).
Qed.

(** Each entry of the ranking carries its standard competition rank among
    the entries ranked. *)
Lemma calculateRankings_competition (scores : list object) :
  Forall numeric scores →
  calculateRankings (Some scores)
  = (λ entry, with_rank entry (competition_rank scores entry))
      <$> Array_sort byFinalScoreDesc scores.
Proof.
  intros Hnum. destruct (decide (scores = [])) as [->|Hne]; [done|].
  rewrite calculateRankings_nonempty by done.
  rewrite assigned_ranks_competition by done.
  by rewrite zip_with_fmap_r, zip_with_diag.
Qed.

End CompetitionRanking.

Section RankingLaws.
Context `{Builtins}.

Lemma competition_rank_same (l l' : list object) (e e' : object) :
  Forall2 (λ a b, get a "finalScore" = get b "finalScore") l l' →
  get e "finalScore" = get e' "finalScore" →
  competition_rank l e = competition_rank l' e'.
Proof.
  intros Hl He. unfold competition_rank. f_equal.
  induction Hl as [|a b l l' Hab _ IH]; [done|].
  simpl.
  assert (Ho : outranks a e = outranks b e')
    by (unfold outranks; by rewrite Hab, He).
  rewrite Ho. destruct (outranks b e'); simpl; by rewrite IH.
Qed.

Lemma competition_rank_perm (l l' : list object) (e : object) :
  l ≡ₚ l' → competition_rank l e = competition_rank l' e.
Proof.
  intros Hperm. unfold competition_rank. f_equal.
  by apply filter_length_perm.
Qed.

Lemma with_rank_numeric (e : object) (r : nat) :
  numeric e → numeric (with_rank e r).
Proof.
  intros (x & [Hx Hd] & Hn). exists x. repeat split; try done.
  by rewrite with_rank_final_score.
Qed.

Lemma with_rank_twice (e : object) (r r' : nat) :
  with_rank (with_rank e r) r' = with_rank e r'.
Proof. unfold with_rank. apply insert_insert_eq. Qed.

(** X1: on entries with numeric final scores the ranking is the standard
    competition ranking.  The [rank] read off an output entry is one more
    than the number of entries of the input whose final score is strictly
    higher than the entry's; in every other property the output entries
    read as the input entries do, in some arrangement. *)
Theorem X1_competition_ranking (scores : list object) :
  Forall numeric scores →
  (∀ entry, entry ∈ calculateRankings (Some scores) →
     get entry "rank" = VNumber (F64.of_nat (competition_rank scores entry)))
  ∧ ∃ sorted : list object,
      sorted ≡ₚ scores
      ∧ (∀ property, property ≠ "rank"%string →
           (λ entry, get entry property) <$> calculateRankings (Some scores)
           = (λ score, get score property) <$> sorted)
      ∧ (λ entry, get entry "rank") <$> calculateRankings (Some scores)
        = (λ score, VNumber (F64.of_nat (competition_rank scores score)))
            <$> sorted
      ∧ calculateRankings (Some scores)
        = (λ entry, with_rank entry (competition_rank scores entry))
            <$> sorted.
Proof.
  intros Hnum. rewrite calculateRankings_competition by done. split.
  - intros entry (score & -> & _)%list_elem_of_fmap.
    rewrite with_rank_rank. do 2 f_equal.
    apply competition_rank_same; [|by rewrite with_rank_final_score].
    by apply Forall_Forall2_diag, Forall_forall.
  - exists (Array_sort byFinalScoreDesc scores).
    split; [apply Array_sort_perm|]. split; [|split; [|done]].
    + intros property Hp. rewrite <- list_fmap_compose.
      apply list_fmap_ext. intros _ score _. by apply with_rank_other.
    + rewrite <- list_fmap_compose.
      apply list_fmap_ext. intros _ score _. apply with_rank_rank.
Qed.

(** X2: the rank of an entry does not depend on the order of arrival.  Two
    arrangements of the same entries yield the same ranked entries, up to
    the arrangement of the output. *)
Theorem X2_ranks_independent_of_arrival (scores scores' : list object) :
  Forall numeric scores → scores ≡ₚ scores' →
  calculateRankings (Some scores) ≡ₚ calculateRankings (Some scores').
Proof.
  intros Hnum Hperm.
  assert (Hnum' : Forall numeric scores') by (by rewrite <- Hperm).
  rewrite !calculateRankings_competition by done.
  rewrite !Array_sort_perm, Hperm.
  apply eq_subrelation; [apply _|].
  apply Forall_fmap_ext_1, Forall_forall. intros e _.
  by rewrite (competition_rank_perm scores scores').
Qed.

(** X3: ranking a ranking changes nothing.  The output is in descending
    order already and every entry receives the rank it carries. *)
Theorem X3_ranking_idempotent (scores : list object) :
  Forall numeric scores →
  calculateRankings (Some (calculateRankings (Some scores)))
  = calculateRankings (Some scores).
Proof.
  intros Hnum.
  rewrite (calculateRankings_competition scores Hnum).
  set (sorted := Array_sort byFinalScoreDesc scores).
  set (ranked := (λ e, with_rank e (competition_rank scores e)) <$> sorted).
  assert (Hperm : sorted ≡ₚ scores) by apply Array_sort_perm.
  assert (Hnum' : Forall numeric sorted) by (by rewrite Hperm).
  assert (Hranked : Forall numeric ranked).
  { apply Forall_fmap. eapply Forall_impl; [exact Hnum'|].
    intros e He. by apply with_rank_numeric. }
  rewrite (calculateRankings_competition ranked Hranked).
  destruct (numeric_scores sorted Hnum') as (xs & Hxs & Hnx).
  assert (Hsame : Forall2 (λ a b, get a "finalScore" = get b "finalScore")
                    ranked sorted).
  { apply Forall2_fmap_l, Forall_Forall2_diag, Forall_forall.
    intros e _. apply with_rank_final_score. }
  assert (Hxs' : Forall2 has_final_score ranked xs).
  { apply Forall2_fmap_l. eapply Forall2_impl; [exact Hxs|].
    intros e x [He Hd]. split; [|done]. by rewrite with_rank_final_score. }
  assert (Hdesc : descending xs).
  { apply (sorted_descending sorted); [done|]. by apply Array_sort_sorted. }
  rewrite (sorted_input_kept ranked xs Hxs' Hdesc).
  subst ranked. rewrite <- list_fmap_compose.
  apply Forall_fmap_ext_1, Forall_forall. intros e _. unfold compose.
  rewrite with_rank_twice. f_equal.
  rewrite (competition_rank_same _ sorted _ e Hsame)
    by apply with_rank_final_score.
  by apply competition_rank_perm.
Qed.

End RankingLaws.

Lemma X1_competition_ranking_witness :
  Forall numeric arrivals
  ∧ (∀ entry, entry ∈ @calculateRankings example_builtins (Some arrivals) →
       get entry "rank"
       = VNumber (F64.of_nat (competition_rank arrivals entry)))
  ∧ ∃ sorted : list object,
      sorted ≡ₚ arrivals
      ∧ (∀ property, property ≠ "rank"%string →
           (λ entry, get entry property)
             <$> @calculateRankings example_builtins (Some arrivals)
           = (λ score, get score property) <$> sorted)
      ∧ (λ entry, get entry "rank")
          <$> @calculateRankings example_builtins (Some arrivals)
        = (λ score, VNumber (F64.of_nat (competition_rank arrivals score)))
            <$> sorted
      ∧ @calculateRankings example_builtins (Some arrivals)
        = (λ entry, with_rank entry (competition_rank arrivals entry))
            <$> sorted.
Proof.
  split; [exact arrivals_numeric|].
  exact (@X1_competition_ranking example_builtins arrivals arrivals_numeric).
Defined.

Lemma X2_ranks_independent_of_arrival_witness :
  Forall numeric arrivals ∧ arrivals ≡ₚ podium
  ∧ @calculateRankings example_builtins (Some arrivals)
    ≡ₚ @calculateRankings example_builtins (Some podium).
Proof.
  assert (Hperm : arrivals ≡ₚ podium).
  { unfold arrivals, podium.
    etrans; [apply Permutation_swap|]. apply Permutation_skip.
    apply Permutation_swap. }
  split; [exact arrivals_numeric|]. split; [exact Hperm|].
  exact (@X2_ranks_independent_of_arrival example_builtins arrivals podium
           arrivals_numeric Hperm).
Defined.

Lemma X3_ranking_idempotent_witness :
  Forall numeric arrivals
  ∧ @calculateRankings example_builtins
      (Some (@calculateRankings example_builtins (Some arrivals)))
    = @calculateRankings example_builtins (Some arrivals).
Proof.
  split; [exact arrivals_numeric|].
  exact (@X3_ranking_idempotent example_builtins arrivals arrivals_numeric).
Defined.

(** ** processChallengeScores *)

Section CarryingFacts.
Context `{Builtins} {T : Type}.

Lemma rank_loop_carrying_spec (sortedScores : list (object * T)) :
  ∀ i currentRank previousScore rankedScores,
    rank_loop_carrying i sortedScores currentRank previousScore rankedScores
    = rankedScores
      ++ zip_with (λ score r, (with_rank score.1 r, score.2)) sortedScores
           (assigned_ranks i sortedScores.*1 currentRank previousScore).
Proof.
  induction sortedScores as [|score rest IH]; intros i r p acc; simpl.
  - by rewrite app_nil_r.
  - rewrite IH, <- app_assoc. reflexivity.
Qed.

Lemma calculateRankings_carrying_nonempty (scores : list (object * T)) :
  scores ≠ [] →
  calculateRankings_carrying (Some scores)
  = zip_with (λ score r, (with_rank score.1 r, score.2))
      (Array_sort (λ a b, byFinalScoreDesc a.1 b.1) scores)
      (assigned_ranks 0
         (Array_sort (λ a b, byFinalScoreDesc a.1 b.1) scores).*1 1 VNull).
Proof.
  intros Hne. destruct scores as [|s scores]; [done|].
  unfold calculateRankings_carrying. by rewrite rank_loop_carrying_spec.
Qed.

(** Ranking objects that carry something is ranking the objects: what they
    carry plays no part. *)
Lemma calculateRankings_carrying_fst (scores : list (object * T)) :
  (calculateRankings_carrying (Some scores)).*1
  = calculateRankings (Some scores.*1).
Proof.
  destruct (decide (scores = [])) as [->|Hne]; [done|].
  rewrite calculateRankings_carrying_nonempty by done.
  rewrite calculateRankings_nonempty by (by destruct scores).
  rewrite <- (Array_sort_map fst byFinalScoreDesc scores).
  generalize (Array_sort (λ x y, byFinalScoreDesc x.1 y.1) scores).
  intros sorted. generalize (assigned_ranks 0 sorted.*1 1 VNull).
  induction sorted as [|s sorted IH]; intros [|r ranks]; simpl; try done.
  by rewrite IH.
Qed.

End CarryingFacts.

Section ProcessFacts.
Context `{Builtins}.

Lemma score_one_throws (criteria aiScore : object) :
  off_by_more_than_tolerance (sum_left (weights_after_defaults criteria))
  = true →
  score_one criteria aiScore
  = Throws ("Weights must sum to 1.0, got "
            +:+ ToString (sum_left (weights_after_defaults criteria))).
Proof.
  unfold score_one, calculateFinalScore, weights_after_defaults, sum_left.
  cbn [fold_left]. by intros ->.
Qed.

Lemma score_one_returns (criteria aiScore : object) :
  off_by_more_than_tolerance (sum_left (weights_after_defaults criteria))
  = false →
  ∃ calculation,
    calculateFinalScore aiScore criteria = Returns calculation
    ∧ score_one criteria aiScore
      = Returns (final_score_object aiScore calculation).
Proof.
  intros Hok. unfold score_one.
  destruct (calculateFinalScore aiScore criteria) as [c|m] eqn:Hc; [eauto|].
  assert (Ht : ∃ m, calculateFinalScore aiScore criteria = Throws m) by eauto.
  apply (proj1 (calculateFinalScore_throws_iff aiScore criteria)) in Ht.
  congruence.
Qed.

Lemma Array_map_score_one (criteria : object) (aiScores : list object) :
  off_by_more_than_tolerance (sum_left (weights_after_defaults criteria))
  = false →
  ∃ finalScores,
    Array_map (score_one criteria) aiScores = Returns finalScores
    ∧ Forall2 (λ aiScore scored,
         ∃ calculation,
           calculateFinalScore aiScore criteria = Returns calculation
           ∧ scored = final_score_object aiScore calculation)
        aiScores finalScores.
Proof.
  intros Hok. induction aiScores as [|a l (fs & Hfs & Hall)].
  - exists []. by split.
  - destruct (score_one_returns criteria a Hok) as (c & Hc & Hone).
    exists (final_score_object a c :: fs). split.
    + cbn [Array_map]. by rewrite Hone, Hfs.
    + constructor; [eauto|done].
Qed.

End ProcessFacts.

(** ** Products and quotients are binary64 values *)

Section RoundAny.
Local Open Scope Z_scope.

Lemma Zdigits2_bounds (m : Z) :
  0 ≤ m →
  0 ≤ Zdigits2 m ∧ m < 2 ^ Zdigits2 m
  ∧ (0 < m → 2 ^ (Zdigits2 m - 1) ≤ m).
Proof.
  intros Hm. destruct m as [|p|p]; [done| |lia].
  pose proof (digits2_pos_bounds p). simpl Zdigits2. lia.
Qed.

(** The end of every rounding: a truncated mantissa [q] below [2^53] at
    the exponent [E] of the format, rounded to [q] or [q + 1]. *)
Lemma round_tail (s : bool) (q E : Z) (l : location) :
  0 ≤ q < 2 ^ 53 → -1074 ≤ E → (-1074 < E → 2 ^ 52 ≤ q) →
  let m1 := round_nearest_even q l in
  let r :=
    match shr_m (shr_fexp F64.prec F64.emax m1 E loc_Exact).1 with
    | 0 => S754_zero s
    | Z.pos m =>
        if (shr_fexp F64.prec F64.emax m1 E loc_Exact).2
             <=? F64.emax - F64.prec
        then S754_finite s m (shr_fexp F64.prec F64.emax m1 E loc_Exact).2
        else S754_infinity s
    | Z.neg _ => S754_nan
    end in
  r = S754_infinity s ∨ r = S754_zero s
  ∨ ∃ m' e', r = S754_finite s m' e'
      ∧ bounded F64.prec F64.emax m' e' = true
      ∧ E ≤ e' ≤ E + 1
      ∧ q ≤ Z.pos m' * 2 ^ (e' - E) ≤ q + 1.
Proof.
  intros Hq HE Hnorm. cbv zeta.
  pose proof (round_nearest_even_bounds q l) as Hrne.
  destruct (round_nearest_even q l) as [|m1|m1] eqn:Hm1; [| |lia].
  - rewrite (shr_fexp_keep 0 E loc_Exact) by (rewrite fexp64; simpl; lia).
    cbn. by right; left.
  - destruct (round_finish s m1 E) as [Hinf|(m' & e' & Hr & Hb & He' & Hval)].
    + done.
    + lia.
    + intros HEgt. specialize (Hnorm HEgt). lia.
    + by left.
    + right. right. exists m', e'. repeat split; try done; lia.
Qed.

(** Rounding [m * 2^e], with a note [l] of what was cut off before, when
    [e] is at most the exponent of the format at that magnitude: the
    result is a binary64 value of the given sign. *)
Lemma binary_round_aux_valid (s : bool) (m e : Z) (l : location) :
  0 ≤ m → e ≤ fexp F64.prec F64.emax (Zdigits2 m + e) →
  let r := binary_round_aux F64.prec F64.emax s m e l in
  r = S754_infinity s ∨ r = S754_zero s
  ∨ ∃ m' e', r = S754_finite s m' e'
      ∧ bounded F64.prec F64.emax m' e' = true.
Proof.
  intros Hm He. cbv zeta. rewrite binary_round_aux_unfold. cbv zeta.
  destruct (Zdigits2_bounds m Hm) as (Hd0 & Hhi & Hlo).
  rewrite fexp64 in He.
  set (d := Zdigits2 m) in *.
  set (E := Z.max (d + e - 53) (-1074)) in *.
  destruct (Z.eq_dec e E) as [HeE|HeE].
  - rewrite (shr_fexp_keep m e l) by (rewrite fexp64; fold d E; lia).
    cbn [fst snd]. rewrite shr_m_of_loc.
    assert (Hm53 : m < 2 ^ 53).
    { assert (2 ^ d ≤ 2 ^ 53) by (apply Z.pow_le_mono_r; lia). lia. }
    assert (Hm52 : -1074 < e → 2 ^ 52 ≤ m).
    { intros Hgt. assert (d = 53) as Hd by lia.
      rewrite Hd in Hlo. apply Hlo.
      destruct (Z.eq_dec m 0) as [->|]; [done|lia]. }
    destruct (round_tail s m e (loc_of_shr_record (shr_record_of_loc m l)))
      as [Hr|[Hr|(m' & e' & Hr & Hb & _)]]; try done; try lia; eauto.
    right. right. eauto.
  - destruct (shr_fexp_shift m e l) as (mrs & Hs & Hq); [done| |].
    { rewrite fexp64. fold d E. lia. }
    rewrite fexp64 in Hs, Hq. fold d E in Hs, Hq.
    rewrite Hs. cbn [fst snd]. rewrite Hq.
    set (q := m / 2 ^ (E - e)).
    assert (Hpow : 0 < 2 ^ (E - e)) by (apply Z.pow_pos_nonneg; lia).
    assert (Hq0 : 0 ≤ q) by (apply Z.div_pos; lia).
    assert (Hq53 : q < 2 ^ 53).
    { apply Z.div_lt_upper_bound; [done|].
      rewrite <- Z.pow_add_r by lia.
      assert (2 ^ d ≤ 2 ^ (E - e + 53)) by (apply Z.pow_le_mono_r; lia). lia. }
    assert (Hq52 : -1074 < E → 2 ^ 52 ≤ q).
    { intros HE. apply Z.div_le_lower_bound; [done|].
      rewrite <- Z.pow_add_r by lia.
      replace (E - e + 52) with (d - 1) by lia.
      apply Hlo. destruct (Z.eq_dec m 0) as [Hz|]; [|lia].
      assert (d = 0) by (subst d; by rewrite Hz). lia. }
    destruct (round_tail s q E (loc_of_shr_record mrs))
      as [Hr|[Hr|(m' & e' & Hr & Hb & _)]]; try done; try lia; eauto.
    right. right. eauto.
Qed.

End RoundAny.

Section MulDiv.
Local Open Scope Z_scope.

Lemma digits2_pos_mul (mx my : positive) :
  Z.pos (digits2_pos mx) + Z.pos (digits2_pos my) - 1
  ≤ Z.pos (digits2_pos (mx * my)).
Proof.
  pose proof (digits2_pos_bounds mx) as [Hx _].
  pose proof (digits2_pos_bounds my) as [Hy _].
  pose proof (digits2_pos_bounds (mx * my)) as [_ Hxy].
  set (dx := Z.pos (digits2_pos mx)) in *.
  set (dy := Z.pos (digits2_pos my)) in *.
  set (d := Z.pos (digits2_pos (mx * my))) in *.
  assert (0 < dx ∧ 0 < dy ∧ 0 < d) as (? & ? & ?) by (subst dx dy d; lia).
  assert (Hlow : 2 ^ (dx + dy - 2) ≤ Z.pos mx * Z.pos my).
  { replace (dx + dy - 2) with ((dx - 1) + (dy - 1)) by lia.
    rewrite Z.pow_add_r by lia.
    assert (0 < 2 ^ (dx - 1)) by (apply Z.pow_pos_nonneg; lia).
    assert (0 < 2 ^ (dy - 1)) by (apply Z.pow_pos_nonneg; lia). nia. }
  rewrite Pos2Z.inj_mul in Hxy.
  assert (Hlt : 2 ^ (dx + dy - 2) < 2 ^ d) by lia.
  apply Z.pow_lt_mono_r_iff in Hlt; lia.
Qed.

(** The product of two finite binary64 values is a binary64 value with the
    product of their signs. *)
Lemma mul_finite (sx sy : bool) (mx my : positive) (ex ey : Z) :
  bounded F64.prec F64.emax mx ex = true →
  bounded F64.prec F64.emax my ey = true →
  let r := F64.mul (S754_finite sx mx ex) (S754_finite sy my ey) in
  r = S754_infinity (xorb sx sy) ∨ r = S754_zero (xorb sx sy)
  ∨ ∃ m' e', r = S754_finite (xorb sx sy) m' e'
      ∧ bounded F64.prec F64.emax m' e' = true.
Proof.
  intros Hx Hy. cbv zeta. unfold F64.mul, SFmul.
  apply binary_round_aux_valid; [lia|].
  rewrite fexp64. simpl Zdigits2.
  destruct (bounded_spec _ _ Hx) as (Hdx & Hex & Hnx).
  destruct (bounded_spec _ _ Hy) as (Hdy & Hey & Hny).
  pose proof (digits2_pos_mul mx my).
  lia.
Qed.

(** The quotient of two finite binary64 values is a binary64 value with
    the product of their signs. *)
Lemma div_finite (sx sy : bool) (mx my : positive) (ex ey : Z) :
  let r := F64.div (S754_finite sx mx ex) (S754_finite sy my ey) in
  r = S754_infinity (xorb sx sy) ∨ r = S754_zero (xorb sx sy)
  ∨ ∃ m' e', r = S754_finite (xorb sx sy) m' e'
      ∧ bounded F64.prec F64.emax m' e' = true.
Proof.
  cbv zeta. unfold F64.div, SFdiv, SFdiv_core_binary. cbv zeta.
  simpl Zdigits2. rewrite fexp64.
  pose proof (digits2_pos_bounds mx) as [Hxlo Hxhi].
  pose proof (digits2_pos_bounds my) as [Hylo Hyhi].
  set (d1 := Z.pos (digits2_pos mx)) in *.
  set (d2 := Z.pos (digits2_pos my)) in *.
  assert (0 < d1 ∧ 0 < d2) as [Hd1 Hd2] by (subst d1 d2; lia).
  set (e' := Z.min (Z.max (d1 + ex - (d2 + ey) - 53) (-1074)) (ex - ey)).
  set (s := ex - ey - e').
  assert (Hs : 0 ≤ s) by (subst s e'; lia).
  set (m' := match s with
             | 0 => Z.pos mx
             | Z.pos _ => Z.shiftl (Z.pos mx) s
             | Z.neg _ => 0
             end).
  assert (Hm' : m' = Z.pos mx * 2 ^ s).
  { subst m'. destruct s as [|p|p] eqn:Hsp; [lia| |lia].
    by rewrite Z.shiftl_mul_pow2. }
  pose proof (Z_div_mod m' (Z.pos my) ltac:(lia)) as Hdm.
  destruct (Z.div_eucl m' (Z.pos my)) as [q r] eqn:Hqr.
  destruct Hdm as [Hdm Hr].
  assert (Hps : 0 < 2 ^ s) by (apply Z.pow_pos_nonneg; lia).
  assert (Hq0 : 0 ≤ q) by nia.
  apply binary_round_aux_valid; [done|].
  rewrite fexp64.
  destruct (Zdigits2_bounds q Hq0) as (Hdq0 & Hqhi & Hqlo).
  set (dq := Zdigits2 q) in *.
  assert (Hdq : d1 + s - d2 ≤ dq).
  { destruct (Z.le_gt_cases (d1 + s - d2) 0) as [|Hk]; [lia|].
    assert (Hlow : 2 ^ (d1 + s - d2 - 1) ≤ q).
    { assert (Hm'lo : 2 ^ (d1 + s - 1) ≤ m').
      { rewrite Hm'. replace (d1 + s - 1) with ((d1 - 1) + s) by lia.
        rewrite Z.pow_add_r by lia. nia. }
      assert (Hsplit : 2 ^ (d1 + s - 1) = 2 ^ (d1 + s - d2 - 1) * 2 ^ d2).
      { rewrite <- Z.pow_add_r by lia. f_equal. lia. }
      assert (0 < 2 ^ (d1 + s - d2 - 1)) by (apply Z.pow_pos_nonneg; lia).
      nia. }
    assert (0 < 2 ^ (d1 + s - d2 - 1)) by (apply Z.pow_pos_nonneg; lia).
    assert (Hlt : 2 ^ (d1 + s - d2 - 1) < 2 ^ dq) by lia.
    apply Z.pow_lt_mono_r_iff in Hlt; lia. }
  subst s e'. lia.
Qed.

End MulDiv.

(** ** Arithmetic on numbers that are zero or above *)

Section NonNegative.
Local Open Scope Z_scope.

Lemma number_nonneg_inv (x : float) :
  number_nonneg x →
  (∃ s, x = S754_zero s) ∨ x = S754_infinity false
  ∨ ∃ m e, x = S754_finite false m e
      ∧ bounded F64.prec F64.emax m e = true.
Proof.
  intros [[Hd Hn] Hle].
  destruct x as [s|[]| |[] m e]; try done; eauto.
  right. right. eauto.
Qed.

Lemma zero_nonneg (s : bool) : number_nonneg (S754_zero s).
Proof. done. Qed.

Lemma infinity_nonneg : number_nonneg (S754_infinity false).
Proof. done. Qed.

Lemma finite_is_nonneg (m : positive) (e : Z) :
  bounded F64.prec F64.emax m e = true →
  number_nonneg (S754_finite false m e).
Proof. intros Hb. by repeat split. Qed.

(** What rounding a value of positive sign can give is zero or above. *)
Lemma rounded_nonneg (r : float) :
  r = S754_infinity false ∨ r = S754_zero false
  ∨ (∃ m' e', r = S754_finite false m' e'
       ∧ bounded F64.prec F64.emax m' e' = true) →
  number_nonneg r.
Proof.
  intros [->|[->|(m & e & -> & Hb)]];
    auto using zero_nonneg, infinity_nonneg, finite_is_nonneg.
Qed.

Lemma binary_round_nonneg (m : positive) (e : Z) :
  number_nonneg (binary_round F64.prec F64.emax false m e).
Proof.
  apply rounded_nonneg.
  destruct (binary_round_spec false m e)
    as [Hr|[(Hr & _)|(m' & e' & Hr & Hb & _)]]; eauto 10.
Qed.

Lemma mul_finite_nonneg (x y : float) :
  finite_nonneg x → finite_nonneg y → number_nonneg (F64.mul x y).
Proof.
  intros [Hx Hfx] [Hy Hfy].
  destruct (number_nonneg_inv x Hx) as [[sx ->]|[->|(mx & ex & -> & Hbx)]];
    destruct (number_nonneg_inv y Hy) as [[sy ->]|[->|(my & ey & -> & Hby)]];
    try done; try apply zero_nonneg.
  apply rounded_nonneg. apply (mul_finite false false); done.
Qed.

Lemma mul_nonneg_positive (x : float) (m : positive) (e : Z) :
  bounded F64.prec F64.emax m e = true →
  number_nonneg x → number_nonneg (F64.mul x (S754_finite false m e)).
Proof.
  intros Hb Hx.
  destruct (number_nonneg_inv x Hx) as [[sx ->]|[->|(mx & ex & -> & Hbx)]].
  - apply zero_nonneg.
  - apply infinity_nonneg.
  - apply rounded_nonneg. apply (mul_finite false false); done.
Qed.

Lemma div_nonneg_positive (x : float) (m : positive) (e : Z) :
  number_nonneg x → number_nonneg (F64.div x (S754_finite false m e)).
Proof.
  intros Hx.
  destruct (number_nonneg_inv x Hx) as [[sx ->]|[->|(mx & ex & -> & Hbx)]].
  - apply zero_nonneg.
  - apply infinity_nonneg.
  - apply rounded_nonneg. apply (div_finite false false).
Qed.

Lemma add_nonneg (x y : float) :
  number_nonneg x → number_nonneg y → number_nonneg (F64.add x y).
Proof.
  intros Hx Hy.
  destruct (number_nonneg_inv x Hx) as [[sx ->]|[->|(mx & ex & -> & Hbx)]];
    destruct (number_nonneg_inv y Hy) as [[sy ->]|[->|(my & ey & -> & Hby)]];
    try done; try (by destruct sx, sy).
  rewrite add_finite. cbn [cond_Zopp].
  assert (0 < 2 ^ (ex - Z.min ex ey)) by (apply Z.pow_pos_nonneg; lia).
  assert (0 < 2 ^ (ey - Z.min ex ey)) by (apply Z.pow_pos_nonneg; lia).
  destruct (Z.pos mx * 2 ^ (ex - Z.min ex ey)
            + Z.pos my * 2 ^ (ey - Z.min ex ey)) as [|p|p] eqn:Hsum;
    [nia| |nia].
  apply binary_round_nonneg.
Qed.

Lemma Math_round_nonneg (x : float) :
  number_nonneg x → number_nonneg (F64.Math_round x).
Proof.
  intros Hx.
  destruct (number_nonneg_inv x Hx) as [[sx ->]|[->|(mx & ex & -> & Hbx)]];
    try done.
  unfold F64.Math_round. destruct (Z.leb_spec 0 ex) as [|Hneg]; [done|].
  cbn [cond_Zopp].
  assert (0 < 2 ^ (- ex + 1)) by (apply Z.pow_pos_nonneg; lia).
  assert (0 ≤ 2 ^ (- ex)) by (apply Z.pow_nonneg; lia).
  assert (Hn : 0 ≤ (2 * Z.pos mx + 2 ^ (- ex)) / 2 ^ (- ex + 1))
    by (apply Z.div_pos; lia).
  destruct ((2 * Z.pos mx + 2 ^ (- ex)) / 2 ^ (- ex + 1)) as [|n|n];
    [apply zero_nonneg| |lia].
  cbn [Z.eqb]. unfold F64.of_Z. cbn [binary_normalize].
  apply binary_round_nonneg.
Qed.

End NonNegative.

(** ** Validated input gives numeric results *)

Section ScoreValidator.

Lemma validateAIScore_accepts (aiScore : object) :
  isValid (validateAIScore aiScore) = true
  ↔ (∀ field, field ∈ required → missing aiScore field = false)
    ∧ (∀ field, field ∈ scoreFields →
         score_out_of_range aiScore field = false).
Proof.
  assert (Hvalid : isValid (validateAIScore aiScore)
                   = Nat.eqb (length (errors (validateAIScore aiScore))) 0).
  { reflexivity. }
  rewrite Hvalid, validateAIScore_errors, Nat.eqb_eq, length_zero_iff_nil.
  rewrite <- !filter_nil_iff. split.
  - intros [H1%fmap_nil_inv H2%fmap_nil_inv]%app_eq_nil. by split.
  - intros [-> ->]. reflexivity.
Qed.

Lemma score_in_range_iff (aiScore : object) (field : string) :
  json_value (get aiScore field) →
  score_out_of_range aiScore field = false
  ↔ (present (get aiScore field) = true →
     number_in (F64.of_Z 0) (F64.of_Z 100) (get aiScore field)).
Proof.
  intros Hjson. unfold score_out_of_range.
  destruct (present (get aiScore field)); cbn [andb]; [|done].
  destruct (get aiScore field) as [| |b|x|str]; cbn [not_number_in];
    try (split; [done|]; by intros (x & Hx & _)).
  destruct Hjson as [_ Hnx].
  assert (Hn0 : F64.is_nan (F64.of_Z 0) = false) by done.
  assert (Hn1 : F64.is_nan (F64.of_Z 100) = false) by done.
  rewrite orb_false_iff, !ltb_false_iff_leb by done. split.
  - intros [Hlo Hhi] _. by exists x.
  - intros Hin. by destruct Hin as (x' & [= <-] & Hlo & Hhi).
Qed.

End ScoreValidator.

Section Operands.
Context `{Builtins}.

Lemma in_range_finite_nonneg (hi x : float) :
  F64.is_finite hi = true → is_number x →
  F64.leb (F64.of_Z 0) x = true → F64.leb x hi = true →
  finite_nonneg x.
Proof.
  intros Hhi Hx Hlo Hle. repeat split; try apply Hx; try done.
  destruct x as [s|[]| |s m e]; try done. by destruct hi.
Qed.

(** A property that passed a range check, read as a number: absent or
    [null] it counts as the default or as 0, otherwise it is a finite
    number that is zero or above. *)
Lemma checked_operand (hi d : float) (v : value) :
  F64.is_finite hi = true → finite_nonneg d → json_value v →
  (present v = true → number_in (F64.of_Z 0) hi v) →
  finite_nonneg (ToNumber (with_default (VNumber d) v)).
Proof.
  intros Hhi Hd Hjson Hin.
  destruct v as [| |b|x|str]; cbn [with_default ToNumber];
    try done; try (by destruct Hin as (x & Hx & _)).
  destruct Hin as (x' & [= <-] & Hlo & Hle); [done|].
  by apply (in_range_finite_nonneg hi).
Qed.

Lemma checked_required (hi : float) (v : value) :
  F64.is_finite hi = true → json_value v → present v = true →
  number_in (F64.of_Z 0) hi v →
  finite_nonneg (ToNumber v).
Proof.
  intros Hhi Hjson Hp (x & -> & Hlo & Hle).
  by apply (in_range_finite_nonneg hi).
Qed.

Lemma of_Z_100 : F64.of_Z 100 = S754_finite false 7036874417766400 (-46).
Proof. vm_compute. reflexivity. Qed.

Lemma round2_nonneg (v : float) : number_nonneg v → number_nonneg (round2 v).
Proof.
  intros Hv. unfold round2. rewrite of_Z_100.
  apply div_nonneg_positive, Math_round_nonneg.
  by apply mul_nonneg_positive.
Qed.

End Operands.

(** Membership in a list that is written out. *)
Ltac listed :=
  repeat first [ apply list_elem_of_here | apply list_elem_of_further ].

Section ValidatedAggregation.
Context `{Builtins}.

Lemma default_weights_finite_nonneg :
  Forall finite_nonneg
    [F64.lit 25 2; F64.lit 30 2; F64.lit 0 1; F64.lit 20 2; F64.lit 15 2;
     F64.lit 10 2; F64.of_Z 0].
Proof. repeat constructor. Qed.

(** What validation gives about the operands of the aggregation: every
    sub-score and every weight, read as a number after the defaults, is
    finite and zero or above. *)
Lemma validated_operands (aiScore criteria : object) :
  json_scores aiScore → json_weights criteria →
  isValid (validateAIScore aiScore) = true →
  (∀ field, field ∈ weightFields →
     weight_out_of_range criteria field = false) →
  Forall (λ v, finite_nonneg (ToNumber v))
    [ get aiScore "logic_score"; get aiScore "clarity_score";
      get aiScore "testing_rate";
      with_default (VNumber (F64.of_Z 0)) (get aiScore "efficiency_score");
      with_default (VNumber (F64.of_Z 0)) (get aiScore "api_ui_score");
      with_default (VNumber (F64.of_Z 0)) (get aiScore "edge_cases_score");
      with_default (VNumber (F64.of_Z 0)) (get aiScore "creativity_score") ]
  ∧ Forall (λ v, finite_nonneg (ToNumber v)) (weights_after_defaults criteria).
Proof.
  intros Hjs Hjw [Hreq Hrange]%validateAIScore_accepts Hweights.
  pose proof default_weights_finite_nonneg as Hdef.
  rewrite !Forall_cons in Hdef.
  destruct Hdef as (D25 & D30 & D0 & D20 & D15 & D10 & DZ & _).
  assert (Hscore : ∀ field, field ∈ scoreFields →
    finite_nonneg
      (ToNumber (with_default (VNumber (F64.of_Z 0)) (get aiScore field)))).
  { intros f Hf. apply (checked_operand (F64.of_Z 100)); try done.
    - by apply Hjs.
    - apply score_in_range_iff; [by apply Hjs|by apply Hrange]. }
  assert (Hrequired : ∀ field, field ∈ required → field ∈ scoreFields →
    finite_nonneg (ToNumber (get aiScore field))).
  { intros f Hf Hf'. specialize (Hreq f Hf). unfold missing in Hreq.
    apply negb_false_iff in Hreq.
    apply (checked_required (F64.of_Z 100)); try done.
    - by apply Hjs.
    - apply score_in_range_iff; [by apply Hjs|by apply Hrange|done]. }
  assert (Hweight : ∀ field d, field ∈ weightFields → finite_nonneg d →
    finite_nonneg (ToNumber (with_default (VNumber d) (get criteria field)))).
  { intros f d Hf Hd. apply (checked_operand (F64.of_Z 1)); try done.
    - by apply Hjw.
    - apply weight_in_range_iff; [by apply Hjw|by apply Hweights]. }
  split.
  - repeat apply Forall_cons_2; try apply Forall_nil_2;
      first [ apply Hrequired; unfold required, scoreFields; listed
            | apply Hscore; unfold scoreFields; listed ].
  - unfold weights_after_defaults.
    repeat apply Forall_cons_2; try apply Forall_nil_2;
      apply Hweight; try done; unfold weightFields; listed.
Qed.

Lemma js_mul_nonneg (s w : value) :
  finite_nonneg (ToNumber s) → finite_nonneg (ToNumber w) →
  number_nonneg (js_mul s w).
Proof. apply mul_finite_nonneg. Qed.

Lemma validated_result_nonneg (aiScore criteria : object)
    (r : ScoreResult) :
  json_scores aiScore → json_weights criteria →
  isValid (validateAIScore aiScore) = true →
  (∀ field, field ∈ weightFields →
     weight_out_of_range criteria field = false) →
  calculateFinalScore aiScore criteria = Returns r →
  Forall number_nonneg
    [ finalScore r; logicContribution r; clarityContribution r;
      testingContribution r; efficiencyContribution r; apiUiContribution r;
      edgeCasesContribution r; creativityContribution r ].
Proof.
  intros Hjs Hjw Hvalid Hweights.
  destruct (validated_operands aiScore criteria Hjs Hjw Hvalid Hweights)
    as [Hs Hw].
  unfold weights_after_defaults in Hw. rewrite !Forall_cons in Hs, Hw.
  destruct Hs as (S1 & S2 & S3 & S4 & S5 & S6 & S7 & _).
  destruct Hw as (W1 & W2 & W3 & W4 & W5 & W6 & W7 & _).
  unfold calculateFinalScore.
  destruct (off_by_more_than_tolerance _); [discriminate|].
  intros [= <-].
  cbn [finalScore logicContribution clarityContribution testingContribution
       efficiencyContribution apiUiContribution edgeCasesContribution
       creativityContribution].
  repeat constructor; apply round2_nonneg;
    repeat apply add_nonneg; by apply js_mul_nonneg.
Qed.

(** X4: validated input never yields NaN or a negative value.  When the
    submission passes [validateAIScore], the weights pass the range test of
    [validateCriteria], and all of them are JSON numbers, every value of a
    returned ScoreResult, the final score and the seven contributions, is a
    binary64 number other than NaN that is zero or above. *)
Theorem X4_validated_scores_are_numbers (aiScore criteria : object)
    (r : ScoreResult) :
  json_scores aiScore → json_weights criteria →
  isValid (validateAIScore aiScore) = true →
  (∀ field, field ∈ weightFields →
     weight_out_of_range criteria field = false) →
  calculateFinalScore aiScore criteria = Returns r →
  Forall number_nonneg
    [ finalScore r; logicContribution r; clarityContribution r;
      testingContribution r; efficiencyContribution r; apiUiContribution r;
      edgeCasesContribution r; creativityContribution r ].
Proof. apply validated_result_nonneg. Qed.

End ValidatedAggregation.

Section FinalScoreObjects.

(** What the ranking and the callers read in a final-score object. *)
Lemma final_score_object_reads (aiScore : object) (calculation : ScoreResult) :
  let o := (final_score_object aiScore calculation).1 in
  get o "userId" = get aiScore "user_id"
  ∧ get o "challengeId" = get aiScore "challenge_id"
  ∧ get o "finalScore" = VNumber (finalScore calculation)
  ∧ get o "logicContribution" = VNumber (logicContribution calculation)
  ∧ get o "clarityContribution" = VNumber (clarityContribution calculation)
  ∧ get o "testingContribution" = VNumber (testingContribution calculation)
  ∧ get o "efficiencyContribution"
    = VNumber (efficiencyContribution calculation)
  ∧ get o "apiUiContribution" = VNumber (apiUiContribution calculation)
  ∧ get o "edgeCasesContribution"
    = VNumber (edgeCasesContribution calculation)
  ∧ get o "creativityContribution"
    = VNumber (creativityContribution calculation)
  ∧ (final_score_object aiScore calculation).2 = breakdown calculation.
Proof.
  destruct calculation. cbv zeta.
  unfold final_score_object, calculation_properties. cbn [fst snd].
  generalize (get aiScore "user_id") (get aiScore "challenge_id").
  intros u c.
  cbn [finalScore logicContribution clarityContribution testingContribution
       efficiencyContribution apiUiContribution edgeCasesContribution
       creativityContribution breakdown].
  repeat split; vm_compute; reflexivity.
Qed.

End FinalScoreObjects.

Section ProcessChallengeScoresLaws.
Context `{Builtins}.

Lemma Array_map_returns {A B : Type} (callback : A → outcome B)
    (l : list A) (ys : list B) :
  Array_map callback l = Returns ys →
  Forall2 (λ x y, callback x = Returns y) l ys.
Proof.
  revert ys. induction l as [|x l IH]; intros ys; cbn [Array_map].
  - intros [= <-]. constructor.
  - destruct (callback x) as [y|m] eqn:Hx; [|discriminate].
    destruct (Array_map callback l) as [ys'|m]; [|discriminate].
    intros [= <-]. constructor; [done|by apply IH].
Qed.

Lemma Array_map_throws {A B : Type} (callback : A → outcome B)
    (l : list A) (message : string) :
  l ≠ [] → (∀ x, callback x = Throws message) →
  Array_map callback l = Throws message.
Proof.
  intros Hne Hall. destruct l as [|x l]; [done|].
  cbn [Array_map]. by rewrite Hall.
Qed.

Lemma Throws_inj {A : Type} (m m' : string) :
  @Throws A m = Throws m' → m = m'.
Proof.
  intros Heq.
  exact (f_equal (λ o, match o with Throws x => x | Returns _ => m end) Heq).
Qed.

Lemma score_one_inv (criteria aiScore : object) (scored : object * Breakdown) :
  score_one criteria aiScore = Returns scored →
  ∃ calculation,
    calculateFinalScore aiScore criteria = Returns calculation
    ∧ scored = final_score_object aiScore calculation.
Proof.
  unfold score_one.
  destruct (calculateFinalScore aiScore criteria) as [c|m]; [|discriminate].
  intros [= <-]. eauto.
Qed.

Lemma processChallengeScores_total (aiScores : list object)
    (criteria : object) :
  off_by_more_than_tolerance (sum_left (weights_after_defaults criteria))
  = false →
  ∃ ranked, processChallengeScores (Some aiScores) criteria = Returns ranked.
Proof.
  intros Hok. destruct aiScores as [|a l]; [by exists []|].
  destruct (Array_map_score_one criteria (a :: l) Hok) as (fs & Hfs & _).
  unfold processChallengeScores. rewrite Hfs. eauto.
Qed.

(** X5: [processChallengeScores] throws exactly when there is at least one
    submission and the weights, after the defaults, sum to a value more
    than 0.01 away from 1.0; the message is that of [calculateFinalScore].
    Without submissions it returns the empty ranking and the weights are
    not looked at. *)
Theorem X5_processChallengeScores_throws (aiScores : option (list object))
    (criteria : object) :
  processChallengeScores None criteria = Returns []
  ∧ processChallengeScores (Some []) criteria = Returns []
  ∧ ∀ message,
      processChallengeScores aiScores criteria = Throws message
      ↔ (∃ l, aiScores = Some l ∧ l ≠ [])
        ∧ off_by_more_than_tolerance
            (sum_left (weights_after_defaults criteria)) = true
        ∧ message
          = "Weights must sum to 1.0, got "
            +:+ ToString (sum_left (weights_after_defaults criteria)).
Proof.
  split; [done|]. split; [done|]. intros message.
  destruct aiScores as [[|a l]|].
  { split; [done|]. intros [(l & [= <-] & Hne) _]. done. }
  2: { split; [done|]. by intros [(l & ? & _) _]. }
  destruct (off_by_more_than_tolerance
              (sum_left (weights_after_defaults criteria))) eqn:Hoff.
  - unfold processChallengeScores.
    rewrite (Array_map_throws (score_one criteria) (a :: l) _ ltac:(done)
               (λ x, score_one_throws criteria x Hoff)).
    split.
    + intros Hm%Throws_inj. split; [by exists (a :: l)|]. by split.
    + intros (_ & _ & Hm). by rewrite Hm.
  - destruct (Array_map_score_one criteria (a :: l) Hoff) as (fs & Hfs & _).
    unfold processChallengeScores. rewrite Hfs.
    split; [done|]. by intros (_ & ? & _).
Qed.

Lemma processChallengeScores_returns (aiScores : list object)
    (criteria : object) (ranked : list (object * Breakdown)) :
  processChallengeScores (Some aiScores) criteria = Returns ranked →
  ∃ finalScores,
    Forall2 (λ aiScore scored,
       ∃ calculation,
         calculateFinalScore aiScore criteria = Returns calculation
         ∧ scored = final_score_object aiScore calculation)
      aiScores finalScores
    ∧ ranked = calculateRankings_carrying (Some finalScores).
Proof.
  destruct aiScores as [|a l].
  { intros [= <-]. exists []. split; [constructor|done]. }
  unfold processChallengeScores.
  destruct (Array_map (score_one criteria) (a :: l)) as [fs|m] eqn:Hfs;
    [|discriminate].
  intros [= <-]. exists fs. split; [|done].
  apply Array_map_returns in Hfs.
  eapply Forall2_impl; [exact Hfs|].
  intros x y. apply score_one_inv.
Qed.

(** What the ranked entries of [processChallengeScores] read as. *)
Lemma carrying_reads {T : Type} (sorted : list (object * T)) :
  ∀ ranks, length ranks = length sorted →
  let ranked :=
    zip_with (λ scored r, (with_rank scored.1 r, scored.2)) sorted ranks in
  ranked.*1 = zip_with with_rank sorted.*1 ranks
  ∧ ranked.*2 = sorted.*2
  ∧ (λ entry, get entry.1 "rank") <$> ranked
    = (λ r, VNumber (F64.of_nat r)) <$> ranks
  ∧ ∀ property, property ≠ "rank"%string →
      (λ entry, get entry.1 property) <$> ranked
      = (λ scored, get scored.1 property) <$> sorted.
Proof.
  induction sorted as [|s sorted IH]; intros [|r ranks] Hlen; try done.
  injection Hlen as Hlen.
  destruct (IH ranks Hlen) as (IH1 & IH2 & IH3 & IH4).
  cbv zeta. cbn [zip_with fmap list_fmap fst snd].
  split; [by f_equal|]. split; [by f_equal|].
  split; [rewrite with_rank_rank; by f_equal|].
  intros property Hp. rewrite with_rank_other by done. f_equal. by apply IH4.
Qed.

Lemma carrying_filter_reads {T : Type} (v : float) (property : string)
    (sorted : list (object * T)) :
  property ≠ "rank"%string →
  ∀ ranks, length ranks = length sorted →
  (λ entry, get entry.1 property)
    <$> List.filter (λ entry, scored_at v entry.1)
          (zip_with (λ scored r, (with_rank scored.1 r, scored.2))
             sorted ranks)
  = (λ scored, get scored.1 property)
      <$> List.filter (λ scored, scored_at v scored.1) sorted.
Proof.
  intros Hp.
  induction sorted as [|s sorted IH]; intros [|r ranks] Hlen; try done.
  cbn [zip_with List.filter fst snd].
  assert (Hsame : scored_at v (with_rank s.1 r) = scored_at v s.1)
    by (unfold scored_at; by rewrite with_rank_final_score).
  rewrite Hsame. injection Hlen as Hlen.
  destruct (scored_at v s.1); cbn [fmap list_fmap fst];
    [rewrite with_rank_other by done; f_equal|]; by apply IH.
Qed.

Lemma carrying_filter_carried {T : Type} (v : float)
    (sorted : list (object * T)) :
  ∀ ranks, length ranks = length sorted →
  (List.filter (λ entry, scored_at v entry.1)
     (zip_with (λ scored r, (with_rank scored.1 r, scored.2))
        sorted ranks)).*2
  = (List.filter (λ scored, scored_at v scored.1) sorted).*2.
Proof.
  induction sorted as [|s sorted IH]; intros [|r ranks] Hlen; try done.
  cbn [zip_with List.filter fst snd].
  assert (Hsame : scored_at v (with_rank s.1 r) = scored_at v s.1)
    by (unfold scored_at; by rewrite with_rank_final_score).
  rewrite Hsame. injection Hlen as Hlen.
  destruct (scored_at v s.1); cbn [fmap list_fmap snd];
    [f_equal|]; by apply IH.
Qed.

(** X6: when the weights, after the defaults, sum to 1.0 within the
    tolerance and the final score of every submission is a number (not
    NaN), [processChallengeScores] returns one ranked entry for each
    submission, in descending order of final score.  In every property
    other than [rank], and in the breakdown they carry, the entries read as
    the final-score objects of the submissions (the submission's user and
    challenge with what [calculateFinalScore] computes for it) in some
    arrangement.  The [rank] properties read off the entries are numbers
    of which the first is 1, which never decrease, and none of which
    exceeds the position of its entry.  The ranking is the one
    [calculateRankings] gives for these objects. *)
Theorem X6_processChallengeScores_ranks (aiScores : list object)
    (criteria : object) :
  off_by_more_than_tolerance (sum_left (weights_after_defaults criteria))
  = false →
  Forall (λ aiScore,
    ∀ calculation,
      calculateFinalScore aiScore criteria = Returns calculation →
      is_number (finalScore calculation)) aiScores →
  ∃ (finalScores sorted ranked : list (object * Breakdown))
    (ranks : list nat),
    processChallengeScores (Some aiScores) criteria = Returns ranked
    ∧ Forall2 (λ aiScore scored,
         ∃ calculation,
           calculateFinalScore aiScore criteria = Returns calculation
           ∧ scored = final_score_object aiScore calculation)
        aiScores finalScores
    ∧ sorted ≡ₚ finalScores
    ∧ (∀ property, property ≠ "rank"%string →
         (λ entry, get entry.1 property) <$> ranked
         = (λ scored, get scored.1 property) <$> sorted)
    ∧ ranked.*2 = sorted.*2
    ∧ Sorted score_ge ranked.*1
    ∧ (λ entry, get entry.1 "rank") <$> ranked
      = (λ r, VNumber (F64.of_nat r)) <$> ranks
    ∧ length ranks = length aiScores
    ∧ (aiScores ≠ [] → ranks !! 0 = Some 1)
    ∧ (∀ k r r', ranks !! k = Some r → ranks !! S k = Some r' → r ≤ r')
    ∧ (∀ k r, ranks !! k = Some r → r ≤ k + 1)
    ∧ ranked.*1 = calculateRankings (Some finalScores.*1)
    ∧ ranked
      = zip_with (λ scored r, (with_rank scored.1 r, scored.2)) sorted ranks.
Proof.
  intros Hok Hnumbers.
  destruct (Array_map_score_one criteria aiScores Hok) as (fs & Hfs & Hall).
  assert (Hlen : length fs = length aiScores)
    by (symmetry; by eapply Forall2_length).
  assert (Hnum : Forall numeric fs.*1).
  { apply Forall_fmap. clear Hfs Hlen.
    induction Hall as [|a s l fs' (c & Hc & ->) _ IH]; [constructor|].
    apply Forall_cons in Hnumbers as [Ha Hnumbers].
    constructor; [|by apply IH].
    destruct (Ha c Hc) as [Hd Hn]. exists (finalScore c).
    split; [split; [|done]|done].
    apply (final_score_object_reads a c). }
  set (sorted := Array_sort (λ a b, byFinalScoreDesc a.1 b.1) fs).
  set (ranks := assigned_ranks 0 sorted.*1 1 VNull).
  set (ranked :=
    zip_with (λ scored r, (with_rank scored.1 r, scored.2)) sorted ranks).
  assert (Hout : calculateRankings_carrying (Some fs) = ranked).
  { destruct (decide (fs = [])) as [->|Hne]; [done|].
    by apply calculateRankings_carrying_nonempty. }
  assert (Hranks : length ranks = length sorted)
    by (subst ranks; by rewrite assigned_ranks_length, length_fmap).
  destruct (carrying_reads sorted ranks Hranks)
    as (Hfst & Hsnd & Hrank & Hrest).
  fold ranked in Hfst, Hsnd, Hrank, Hrest.
  destruct (assigned_ranks_bounds sorted.*1 0 1 VNull) as [Hb Hm]; [lia|].
  exists fs, sorted, ranked, ranks.
  split.
  { destruct aiScores as [|a l].
    - apply Forall2_nil_inv_l in Hall. by subst fs.
    - unfold processChallengeScores. rewrite Hfs. by rewrite Hout. }
  split; [done|]. split; [apply Array_sort_perm|].
  split; [done|]. split; [done|].
  split.
  { rewrite Hfst. apply zip_with_rank_sorted.
    subst sorted. rewrite (Array_sort_map fst byFinalScoreDesc fs).
    by apply Array_sort_sorted. }
  split; [done|].
  split; [rewrite Hranks; subst sorted; by rewrite Array_sort_length|].
  split.
  { intros Hne. subst ranks.
    destruct sorted as [|s sorted'] eqn:Hs; [|reflexivity].
    apply Array_sort_nil_inv in Hs. subst fs.
    apply Forall2_nil_inv_r in Hall. done. }
  split; [exact Hm|].
  split; [intros k r Hk; apply Hb in Hk; lia|].
  split; [by rewrite <- Hout, calculateRankings_carrying_fst|done].
Qed.

End ProcessChallengeScoresLaws.

Section ValidatedRanking.
Context `{Builtins}.

Lemma number_nonneg_numeric (o : object) (x : float) :
  get o "finalScore" = VNumber x → number_nonneg x → numeric o.
Proof. intros Ho [[Hd Hn] _]. exists x. by repeat split. Qed.

Lemma Array_sort_carrying_stable {T : Type} (l : list (object * T))
    (v : float) :
  Forall numeric l.*1 →
  List.filter (λ scored, scored_at v scored.1)
    (Array_sort (λ a b, byFinalScoreDesc a.1 b.1) l)
  = List.filter (λ scored, scored_at v scored.1) l.
Proof.
  intros Hnum. apply Array_sort_filter. intros a b Ha Hb Pa Pb.
  rewrite Forall_fmap, Forall_forall in Hnum.
  destruct (Hnum a Ha) as (x & Hx & Hnx).
  destruct (Hnum b Hb) as (y & Hy & Hny).
  change (sorts_after byFinalScoreDesc a.1 b.1 = false).
  rewrite (sorts_after_numeric a.1 b.1 x y) by done.
  unfold scored_at in Pa, Pb.
  destruct Hx as [Hx _], Hy as [Hy _]. rewrite Hx in Pa. rewrite Hy in Pb.
  by apply (eqb_same_not_ltb x y v).
Qed.

(** X7: the leaderboard of validated input.  When every submission passes
    [validateAIScore], the weights pass the range test of
    [validateCriteria], all of them are JSON numbers, and
    [processChallengeScores] returns, then what it returns has one entry
    for each submission, in descending order of final score; the [rank]
    read off an entry is its standard competition rank, one more than the
    number of submissions with a strictly higher final score; and for
    every final score [v] the returned entries with final score [v] read,
    in every property other than [rank] and in the breakdown they carry,
    as the final-score objects of the submissions with final score [v], in
    the order of the submissions. *)
Theorem X7_validated_leaderboard (aiScores : list object) (criteria : object)
    (ranked : list (object * Breakdown)) :
  Forall (λ aiScore,
    json_scores aiScore ∧ isValid (validateAIScore aiScore) = true) aiScores →
  json_weights criteria →
  (∀ field, field ∈ weightFields →
     weight_out_of_range criteria field = false) →
  processChallengeScores (Some aiScores) criteria = Returns ranked →
  ∃ finalScores sorted : list (object * Breakdown),
    Forall2 (λ aiScore scored,
       ∃ calculation,
         calculateFinalScore aiScore criteria = Returns calculation
         ∧ scored = final_score_object aiScore calculation)
      aiScores finalScores
    ∧ length ranked = length aiScores
    ∧ Sorted score_ge ranked.*1
    ∧ (∀ entry, entry ∈ ranked →
         get entry.1 "rank"
         = VNumber (F64.of_nat (competition_rank finalScores.*1 entry.1)))
    ∧ (∀ (v : float) (property : string), property ≠ "rank"%string →
         (λ entry, get entry.1 property)
           <$> List.filter (λ entry, scored_at v entry.1) ranked
         = (λ scored, get scored.1 property)
             <$> List.filter (λ scored, scored_at v scored.1) finalScores)
    ∧ (∀ v : float,
         (List.filter (λ entry, scored_at v entry.1) ranked).*2
         = (List.filter (λ scored, scored_at v scored.1) finalScores).*2)
    ∧ sorted ≡ₚ finalScores
    ∧ Sorted score_ge sorted.*1
    ∧ (∀ v, List.filter (λ scored, scored_at v scored.1) sorted
            = List.filter (λ scored, scored_at v scored.1) finalScores)
    ∧ ranked
      = (λ scored,
           (with_rank scored.1 (competition_rank finalScores.*1 scored.1),
            scored.2)) <$> sorted.
Proof.
  intros Hvalid Hjw Hweights Hret.
  destruct (processChallengeScores_returns aiScores criteria ranked Hret)
    as (fs & Hall & ->).
  assert (Hnum : Forall numeric fs.*1).
  { apply Forall_fmap.
    clear Hret. induction Hall as [|a s l fs' (c & Hc & ->) _ IH];
      [constructor|].
    apply Forall_cons in Hvalid as [[Hjs Hv] Hvalid].
    constructor; [|by apply IH].
    pose proof (validated_result_nonneg a criteria c Hjs Hjw Hv Hweights Hc)
      as Hnn.
    apply Forall_cons in Hnn as [Hfinal _].
    apply (number_nonneg_numeric _ (finalScore c)); [|done].
    apply (final_score_object_reads a c). }
  assert (Hlen : length fs = length aiScores)
    by (symmetry; by eapply Forall2_length).
  set (sorted := Array_sort (λ a b, byFinalScoreDesc a.1 b.1) fs).
  assert (Hfst : sorted.*1 = Array_sort byFinalScoreDesc fs.*1)
    by apply (Array_sort_map fst byFinalScoreDesc fs).
  set (ranks := assigned_ranks 0 sorted.*1 1 VNull).
  assert (Hranks : length ranks = length sorted)
    by (subst ranks; by rewrite assigned_ranks_length, length_fmap).
  assert (Hout : calculateRankings_carrying (Some fs)
                 = zip_with (λ scored r, (with_rank scored.1 r, scored.2))
                     sorted ranks).
  { destruct (decide (fs = [])) as [->|Hne]; [done|].
    by apply calculateRankings_carrying_nonempty. }
  assert (Hcomp : ranks = competition_rank fs.*1 <$> sorted.*1).
  { subst ranks. rewrite Hfst. by apply assigned_ranks_competition. }
  destruct (carrying_reads sorted ranks Hranks) as (Hr1 & _ & Hrank & _).
  exists fs, sorted.
  split; [done|]. rewrite Hout.
  split.
  { rewrite length_zip_with, Hranks. subst sorted.
    rewrite Array_sort_length. lia. }
  split.
  { rewrite Hr1. apply zip_with_rank_sorted.
    rewrite Hfst. by apply Array_sort_sorted. }
  split.
  { intros entry Hentry.
    apply list_elem_of_lookup in Hentry as [k Hk].
    apply lookup_zip_with_Some in Hk as (s & r & -> & Hs & Hr).
    cbn [fst]. rewrite with_rank_rank. do 2 f_equal.
    rewrite Hcomp, list_lookup_fmap, list_lookup_fmap, Hs in Hr.
    injection Hr as <-.
    apply competition_rank_same; [|by rewrite with_rank_final_score].
    by apply Forall_Forall2_diag, Forall_forall. }
  split.
  { intros v property Hp. rewrite carrying_filter_reads by done.
    unfold sorted. by rewrite Array_sort_carrying_stable. }
  split.
  { intros v. rewrite carrying_filter_carried by done.
    unfold sorted. by rewrite Array_sort_carrying_stable. }
  split; [apply Array_sort_perm|].
  split; [rewrite Hfst; by apply Array_sort_sorted|].
  split; [intros v; by apply Array_sort_carrying_stable|].
  rewrite Hcomp, <- list_fmap_compose, zip_with_fmap_r, zip_with_diag.
  done.
Qed.

End ValidatedRanking.

Lemma test_scores_validated :
  Forall (λ aiScore,
    json_scores aiScore ∧ isValid (validateAIScore aiScore) = true)
    test_scores.
Proof.
  repeat apply Forall_cons_2; try apply Forall_nil_2;
    (split; [|vm_compute; reflexivity]);
    intros field Hfield; unfold scoreFields in Hfield;
    repeat (apply elem_of_cons in Hfield as [->|Hfield];
            [vm_compute; try done; by split|]);
    by apply elem_of_nil in Hfield.
Qed.

Lemma default_criteria_in_range :
  ∀ field, field ∈ weightFields →
    weight_out_of_range default_criteria field = false.
Proof.
  intros field Hfield. unfold weightFields in Hfield.
  repeat (apply elem_of_cons in Hfield as [->|Hfield];
          [vm_compute; reflexivity|]).
  by apply elem_of_nil in Hfield.
Qed.

Lemma default_criteria_within_tolerance :
  @off_by_more_than_tolerance example_builtins
    (@sum_left example_builtins (weights_after_defaults default_criteria))
  = false.
Proof. vm_compute. reflexivity. Qed.

Lemma X4_validated_scores_are_numbers_witness :
  json_scores test_score ∧ json_weights default_criteria
  ∧ isValid (validateAIScore test_score) = true
  ∧ (∀ field, field ∈ weightFields →
       weight_out_of_range default_criteria field = false)
  ∧ ∃ r, @calculateFinalScore example_builtins test_score default_criteria
         = Returns r
      ∧ Forall number_nonneg
          [ finalScore r; logicContribution r; clarityContribution r;
            testingContribution r; efficiencyContribution r;
            apiUiContribution r; edgeCasesContribution r;
            creativityContribution r ].
Proof.
  pose proof test_scores_validated as Hv.
  apply Forall_cons in Hv as [[Hjs Hvalid] _].
  split; [exact Hjs|]. split; [exact default_criteria_json|].
  split; [exact Hvalid|]. split; [exact default_criteria_in_range|].
  eexists. split; [vm_compute; reflexivity|].
  apply (@X4_validated_scores_are_numbers example_builtins test_score
           default_criteria);
    [exact Hjs|exact default_criteria_json|exact Hvalid
    |exact default_criteria_in_range|vm_compute; reflexivity].
Defined.

Lemma test_scores_numeric :
  Forall (λ aiScore,
    ∀ calculation,
      @calculateFinalScore example_builtins aiScore default_criteria
      = Returns calculation →
      is_number (finalScore calculation)) test_scores.
Proof.
  eapply Forall_impl; [exact test_scores_validated|].
  intros aiScore [Hjs Hvalid] calculation Hc.
  pose proof (@validated_result_nonneg example_builtins aiScore
                default_criteria calculation Hjs default_criteria_json
                Hvalid default_criteria_in_range Hc) as Hnn.
  apply Forall_cons in Hnn as [[Hnum _] _]. exact Hnum.
Qed.

Lemma X6_processChallengeScores_ranks_witness :
  @off_by_more_than_tolerance example_builtins
    (@sum_left example_builtins (weights_after_defaults default_criteria))
  = false
  ∧ Forall (λ aiScore,
      ∀ calculation,
        @calculateFinalScore example_builtins aiScore default_criteria
        = Returns calculation →
        is_number (finalScore calculation)) test_scores
  ∧ ∃ (ranked : list (object * Breakdown)) (ranks : list nat),
      @processChallengeScores example_builtins (Some test_scores)
        default_criteria
      = Returns ranked
      ∧ Sorted score_ge ranked.*1
      ∧ (λ entry, get entry.1 "rank") <$> ranked
        = (λ r, VNumber (F64.of_nat r)) <$> ranks
      ∧ length ranks = length test_scores
      ∧ (test_scores ≠ [] → ranks !! 0 = Some 1).
Proof.
  split; [exact default_criteria_within_tolerance|].
  split; [exact test_scores_numeric|].
  destruct (@X6_processChallengeScores_ranks example_builtins test_scores
              default_criteria default_criteria_within_tolerance
              test_scores_numeric)
    as (fs & sorted & ranked & ranks & Hret & _ & _ & _ & _ & Hsorted
        & Hrank & Hlen & Hfirst & _).
  exists ranked, ranks. by repeat split.
Defined.

Lemma X7_validated_leaderboard_witness :
  Forall (λ aiScore,
    json_scores aiScore ∧ isValid (validateAIScore aiScore) = true)
    test_scores
  ∧ json_weights default_criteria
  ∧ (∀ field, field ∈ weightFields →
       weight_out_of_range default_criteria field = false)
  ∧ ∃ ranked,
      @processChallengeScores example_builtins (Some test_scores)
        default_criteria = Returns ranked
      ∧ ∃ finalScores : list (object * Breakdown),
          length ranked = length test_scores
          ∧ Sorted score_ge ranked.*1
          ∧ (∀ entry, entry ∈ ranked →
               get entry.1 "rank"
               = VNumber
                   (F64.of_nat (competition_rank finalScores.*1 entry.1))).
Proof.
  split; [exact test_scores_validated|].
  split; [exact default_criteria_json|].
  split; [exact default_criteria_in_range|].
  destruct (@processChallengeScores_total example_builtins test_scores
              default_criteria default_criteria_within_tolerance)
    as [ranked Hret].
  exists ranked. split; [exact Hret|].
  destruct (@X7_validated_leaderboard example_builtins test_scores
              default_criteria ranked test_scores_validated
              default_criteria_json default_criteria_in_range Hret)
    as (fs & sorted & _ & Hlen & Hsorted & Hrank & _).
  exists fs. by repeat split.
Defined.

(** ** The score validator and what the aggregation does without it *)

Section ScoreAcceptance.
Context `{Builtins}.

(** X8: [validateAIScore] accepts a submission whose sub-scores are JSON
    values exactly when each of the seven required fields is present
    (neither [undefined] nor [null]) and every sub-score that is present is
    a number between 0 and 100. *)
Theorem X8_validateAIScore_accepts_iff (aiScore : object) :
  json_scores aiScore →
  isValid (validateAIScore aiScore) = true
  ↔ (∀ field, field ∈ required → present (get aiScore field) = true)
    ∧ (∀ field, field ∈ scoreFields →
         present (get aiScore field) = true →
         number_in (F64.of_Z 0) (F64.of_Z 100) (get aiScore field)).
Proof.
  intros Hjson. rewrite validateAIScore_accepts. split.
  - intros [Hreq Hrange]. split.
    + intros f Hf. specialize (Hreq f Hf). unfold missing in Hreq.
      by apply negb_false_iff in Hreq.
    + intros f Hf. apply score_in_range_iff; [by apply Hjson|by apply Hrange].
  - intros [Hreq Hrange]. split.
    + intros f Hf. unfold missing. by rewrite (Hreq f Hf).
    + intros f Hf. apply score_in_range_iff; [by apply Hjson|by apply Hrange].
Qed.

Lemma round2_NaN : round2 F64.NaN = F64.NaN.
Proof. reflexivity. Qed.

Lemma add_NaN_r (x : float) : F64.add x F64.NaN = F64.NaN.
Proof. by destruct x. Qed.

Lemma add_NaN_l (x : float) : F64.add F64.NaN x = F64.NaN.
Proof. reflexivity. Qed.

Lemma js_mul_undefined (w : value) : js_mul VUndefined w = F64.NaN.
Proof. reflexivity. Qed.

(** X9: the aggregation gives no default to the three sub-scores it
    requires.  When [logic_score], [clarity_score] or [testing_rate] is
    [undefined] and the weights let [calculateFinalScore] return, the
    contribution of that sub-score and the final score are NaN; nothing is
    thrown. *)
Theorem X9_missing_subscore_gives_NaN (aiScore criteria : object)
    (r : ScoreResult) :
  calculateFinalScore aiScore criteria = Returns r →
  (get aiScore "logic_score" = VUndefined →
     logicContribution r = F64.NaN ∧ finalScore r = F64.NaN)
  ∧ (get aiScore "clarity_score" = VUndefined →
       clarityContribution r = F64.NaN ∧ finalScore r = F64.NaN)
  ∧ (get aiScore "testing_rate" = VUndefined →
       testingContribution r = F64.NaN ∧ finalScore r = F64.NaN).
Proof.
  unfold calculateFinalScore.
  destruct (off_by_more_than_tolerance _); [discriminate|].
  intros [= <-].
  cbn [finalScore logicContribution clarityContribution testingContribution].
  split; [|split]; intros Hu; rewrite Hu, js_mul_undefined;
    repeat (rewrite add_NaN_l || rewrite add_NaN_r);
    by rewrite round2_NaN.
Qed.

End ScoreAcceptance.

(** ** The request handlers *)

Section DbSteps.
Context {D : Type}.

Lemma Db_bind_returns {A B : Type} (m : Db D A) (k : A → Db D B)
    (σ σ' : D) (a : A) :
  m σ = (Returns a, σ') → (m ≫= k) σ = k a σ'.
Proof. intros Hm. unfold mbind, Db_bind. by rewrite Hm. Qed.

Lemma Db_bind_throws {A B : Type} (m : Db D A) (k : A → Db D B)
    (σ σ' : D) (message : string) :
  m σ = (Throws message, σ') → (m ≫= k) σ = (Throws message, σ').
Proof. intros Hm. unfold mbind, Db_bind. by rewrite Hm. Qed.

End DbSteps.

Section ValidationGates.
Context `{Builtins} {D R : Type} (db : Database D R).

(** X10: a body that fails validation never reaches the database.
    [POST .../criteria] answers a weight set that [validateCriteria]
    rejects with status 400 and the message of every violation, and
    [POST /api/scores] does the same for a submission that
    [validateAIScore] rejects; in both cases no method of the database is
    called.  A body that passes is handed to the database as it is, and
    the answer is 201 with what the database resolved with, or 500 when it
    rejects; a submission is not stored when creating its user fails. *)
Theorem X10_validation_gates (challengeId : string)
    (criteria aiScore : object) (σ : D) :
  (isValid (validateCriteria criteria) = false →
   post_criteria db challengeId criteria σ
   = ({| status := 400;
         json := JsonErrorDetails "Invalid criteria"
           (((λ field, field +:+ " must be a number between 0 and 1")
               <$> List.filter (weight_out_of_range criteria) weightFields)
            ++ (if off_by_more_than_tolerance (totalWeight criteria)
                then ["Total weight must equal 1.0, got "
                      +:+ ToString (totalWeight criteria)]
                else [])) |}, σ))
  ∧ (isValid (validateCriteria criteria) = true →
     post_criteria db challengeId criteria σ
     = match setRecruiterCriteria db challengeId criteria σ with
       | (Returns result, σ') =>
           ({| status := 201; json := JsonResult result |}, σ')
       | (Throws _, σ') =>
           ({| status := 500; json := JsonError "Failed to set criteria" |},
            σ')
       end)
  ∧ (isValid (validateAIScore aiScore) = false →
     post_scores db aiScore σ
     = ({| status := 400;
           json := JsonErrorDetails "Invalid AI score"
             (((λ field, "Missing required field: " +:+ field)
                 <$> List.filter (missing aiScore) required)
              ++ ((λ field, field +:+ " must be a number between 0 and 100")
                    <$> List.filter (score_out_of_range aiScore)
                          scoreFields)) |}, σ))
  ∧ (isValid (validateAIScore aiScore) = true →
     post_scores db aiScore σ
     = match createUser db (get aiScore "user_id") (get aiScore "user_id")
               (get aiScore "email") σ with
       | (Returns _, σ') =>
           match submitAIScore db aiScore σ' with
           | (Returns result, σ'') =>
               ({| status := 201; json := JsonResult result |}, σ'')
           | (Throws _, σ'') =>
               ({| status := 500;
                   json := JsonError "Failed to submit AI score" |}, σ'')
           end
       | (Throws _, σ') =>
           ({| status := 500; json := JsonError "Failed to submit AI score" |},
            σ')
       end).
Proof.
  split; [|split; [|split]].
  - intros Hinv. unfold post_criteria, try_catch. cbv zeta.
    rewrite Hinv. cbn [negb]. unfold mret, Db_ret.
    by rewrite validateCriteria_errors.
  - intros Hval. unfold post_criteria, try_catch. cbv zeta.
    rewrite Hval. cbn [negb]. unfold mbind, Db_bind, mret, Db_ret.
    by destruct (setRecruiterCriteria db challengeId criteria σ) as [[] ?].
  - intros Hinv. unfold post_scores, try_catch. cbv zeta.
    rewrite Hinv. cbn [negb]. unfold mret, Db_ret.
    by rewrite validateAIScore_errors.
  - intros Hval. unfold post_scores, try_catch. cbv zeta.
    rewrite Hval. cbn [negb]. unfold mbind, Db_bind, mret, Db_ret.
    destruct (createUser db _ _ _ σ) as [[] σ']; [|done].
    by destruct (submitAIScore db aiScore σ') as [[] ?].
Qed.

End ValidationGates.

Section RankingHandlers.
Context `{Builtins} {D R : Type} (db : Database D R).

Lemma save_rankings_app (done rest : list (object * Breakdown)) (σ σ' : D) :
  save_rankings db done σ = (Returns tt, σ') →
  save_rankings db (done ++ rest) σ = save_rankings db rest σ'.
Proof.
  revert σ. induction done as [|ranking done IH]; intros σ; cbn.
  - unfold mret, Db_ret. by intros [= ->].
  - unfold mbind, Db_bind.
    destruct (saveFinalRanking db (ranking_record ranking) σ) as [[r|m] σ1];
      [|discriminate].
    apply IH.
Qed.

Lemma save_rankings_rejected (failed : object * Breakdown)
    (rest : list (object * Breakdown)) (σ σ' : D) (message : string) :
  saveFinalRanking db (ranking_record failed) σ = (Throws message, σ') →
  save_rankings db (failed :: rest) σ = (Throws message, σ').
Proof. intros Hrej. cbn. by apply Db_bind_throws. Qed.

(** The state after the records of [rankings] have been saved one after
    the other, when every save resolves. *)
Lemma save_rankings_resolved (rankings : list (object * Breakdown)) (σ : D) :
  (∀ record σ0, ∃ result σ1,
     saveFinalRanking db record σ0 = (Returns result, σ1)) →
  save_rankings db rankings σ
  = (Returns tt,
     foldl (λ σ0 ranking,
              (saveFinalRanking db (ranking_record ranking) σ0).2)
       σ rankings).
Proof.
  intros Hres. revert σ. induction rankings as [|ranking rest IH]; intros σ.
  - reflexivity.
  - cbn [save_rankings foldl].
    destruct (Hres (ranking_record ranking) σ) as (r & σ1 & Hs).
    rewrite (Db_bind_returns _ _ _ _ _ Hs), Hs. apply IH.
Qed.

(** X11: a ranking request that fails before the rankings are computed
    writes nothing.  [POST .../calculate-rankings] answers 404 when the
    challenge has no criteria or no submissions, and 500 when a read of the
    database rejects or when the stored weights, after the defaults, do not
    sum to 1.0 within the tolerance; in each of these cases
    [saveFinalRanking] is not called: the database is in the state the
    reads left it in. *)
Theorem X11_failed_ranking_request_saves_nothing (challengeId : string)
    (σ : D) :
  (∀ message σ1,
     getRecruiterCriteria db challengeId σ = (Throws message, σ1) →
     post_calculate_rankings db challengeId σ
     = ({| status := 500; json := JsonError "Failed to calculate rankings" |},
        σ1))
  ∧ (∀ σ1,
       getRecruiterCriteria db challengeId σ = (Returns None, σ1) →
       post_calculate_rankings db challengeId σ
       = ({| status := 404;
             json := JsonError
                       "Recruiter criteria not found for this challenge" |},
          σ1))
  ∧ (∀ criteria σ1,
       getRecruiterCriteria db challengeId σ = (Returns (Some criteria), σ1) →
       (∀ message σ2,
          getAllAIScores db challengeId σ1 = (Throws message, σ2) →
          post_calculate_rankings db challengeId σ
          = ({| status := 500;
                json := JsonError "Failed to calculate rankings" |}, σ2))
       ∧ (∀ σ2,
            getAllAIScores db challengeId σ1 = (Returns [], σ2) →
            post_calculate_rankings db challengeId σ
            = ({| status := 404;
                  json := JsonError "No AI scores found for this challenge" |},
               σ2))
       ∧ (∀ aiScores σ2,
            getAllAIScores db challengeId σ1 = (Returns aiScores, σ2) →
            aiScores ≠ [] →
            off_by_more_than_tolerance
              (sum_left (weights_after_defaults criteria)) = true →
            post_calculate_rankings db challengeId σ
            = ({| status := 500;
                  json := JsonError "Failed to calculate rankings" |}, σ2))).
Proof.
  split; [|split].
  - intros m σ1 Hc. unfold post_calculate_rankings, try_catch.
    by rewrite (Db_bind_throws _ _ _ _ _ Hc).
  - intros σ1 Hc. unfold post_calculate_rankings, try_catch.
    by rewrite (Db_bind_returns _ _ _ _ _ Hc).
  - intros criteria σ1 Hc. split; [|split].
    + intros m σ2 Hs. unfold post_calculate_rankings, try_catch.
      rewrite (Db_bind_returns _ _ _ _ _ Hc).
      by rewrite (Db_bind_throws _ _ _ _ _ Hs).
    + intros σ2 Hs. unfold post_calculate_rankings, try_catch.
      rewrite (Db_bind_returns _ _ _ _ _ Hc).
      by rewrite (Db_bind_returns _ _ _ _ _ Hs).
    + intros aiScores σ2 Hs Hne Hoff.
      unfold post_calculate_rankings, try_catch.
      rewrite (Db_bind_returns _ _ _ _ _ Hc).
      rewrite (Db_bind_returns _ _ _ _ _ Hs).
      destruct aiScores as [|a l]; [done|]. cbn [length Nat.eqb].
      assert (Hthrow : ∃ message,
        processChallengeScores (Some (a :: l)) criteria = Throws message).
      { unfold processChallengeScores.
        rewrite (Array_map_throws (score_one criteria) (a :: l) _
                   ltac:(done) (λ x, score_one_throws criteria x Hoff)).
        eauto. }
      destruct Hthrow as [m Hm].
      by rewrite (Db_bind_throws (call _) _ σ2 σ2 m)
        by (unfold call; by rewrite Hm).
Qed.

End RankingHandlers.

Section RankingHandlersSaving.
Context `{Builtins} {D R : Type} (db : Database D R).

Lemma processChallengeScores_length (aiScores : list object)
    (criteria : object) (rankings : list (object * Breakdown)) :
  processChallengeScores (Some aiScores) criteria = Returns rankings →
  length rankings = length aiScores.
Proof.
  intros Hret.
  destruct (processChallengeScores_returns aiScores criteria rankings Hret)
    as (fs & Hall & ->).
  apply Forall2_length in Hall. rewrite Hall.
  destruct (decide (fs = [])) as [->|Hne]; [done|].
  rewrite calculateRankings_carrying_nonempty by done.
  rewrite length_zip_with, assigned_ranks_length, length_fmap.
  rewrite Array_sort_length. lia.
Qed.

(** What the handler does once the rankings are computed. *)
Lemma post_calculate_rankings_saving (challengeId : string)
    (criteria : object) (aiScores : list object)
    (rankings : list (object * Breakdown)) (σ σ1 σ2 : D) :
  getRecruiterCriteria db challengeId σ = (Returns (Some criteria), σ1) →
  getAllAIScores db challengeId σ1 = (Returns aiScores, σ2) →
  aiScores ≠ [] →
  processChallengeScores (Some aiScores) criteria = Returns rankings →
  post_calculate_rankings db challengeId σ
  = match save_rankings db rankings σ2 with
    | (Returns _, σ3) =>
        ({| status := 200;
            json := JsonRankings "Rankings calculated successfully"
                      (length rankings) (take 10 rankings) |}, σ3)
    | (Throws _, σ3) =>
        ({| status := 500; json := JsonError "Failed to calculate rankings" |},
         σ3)
    end.
Proof.
  intros Hc Hs Hne Hret. unfold post_calculate_rankings, try_catch.
  rewrite (Db_bind_returns _ _ _ _ _ Hc).
  rewrite (Db_bind_returns _ _ _ _ _ Hs).
  destruct aiScores as [|a l]; [done|]. cbn [length Nat.eqb].
  rewrite (Db_bind_returns (call _) _ σ2 σ2 rankings)
    by (unfold call; by rewrite Hret).
  unfold mbind at 1, Db_bind at 1.
  by destruct (save_rankings db rankings σ2) as [[[]|m] σ3].
Qed.

(** X12: what a ranking request writes.  When the challenge has criteria
    whose weights, after the defaults, sum to 1.0 within the tolerance, and
    at least one submission, [POST .../calculate-rankings] computes the
    rankings, one for each submission, and saves their records one after
    the other in ranking order.  When every save resolves it answers 200
    with the number of submissions as [totalParticipants] and the first ten
    rankings as preview.  When a save rejects it answers 500 and stops: the
    rankings saved before stay saved and the later ones are not saved. *)
Theorem X12_ranking_request_saves_in_order (challengeId : string)
    (criteria : object) (aiScores : list object) (σ σ1 σ2 : D) :
  getRecruiterCriteria db challengeId σ = (Returns (Some criteria), σ1) →
  getAllAIScores db challengeId σ1 = (Returns aiScores, σ2) →
  aiScores ≠ [] →
  off_by_more_than_tolerance (sum_left (weights_after_defaults criteria))
  = false →
  ∃ rankings : list (object * Breakdown),
    processChallengeScores (Some aiScores) criteria = Returns rankings
    ∧ length rankings = length aiScores
    ∧ ((∀ record σ0, ∃ result σ',
          saveFinalRanking db record σ0 = (Returns result, σ')) →
       post_calculate_rankings db challengeId σ
       = ({| status := 200;
             json := JsonRankings "Rankings calculated successfully"
                       (length aiScores) (take 10 rankings) |},
          foldl (λ σ0 ranking,
                   (saveFinalRanking db (ranking_record ranking) σ0).2)
            σ2 rankings))
    ∧ (∀ saved failed rest σ3 σ4 message,
         rankings = saved ++ failed :: rest →
         save_rankings db saved σ2 = (Returns tt, σ3) →
         saveFinalRanking db (ranking_record failed) σ3
         = (Throws message, σ4) →
         post_calculate_rankings db challengeId σ
         = ({| status := 500;
               json := JsonError "Failed to calculate rankings" |}, σ4)).
Proof.
  intros Hc Hs Hne Hok.
  destruct (processChallengeScores_total aiScores criteria Hok)
    as [rankings Hret].
  pose proof (processChallengeScores_length _ _ _ Hret) as Hlen.
  exists rankings. split; [done|]. split; [done|]. split.
  - intros Hres.
    rewrite (post_calculate_rankings_saving _ _ _ _ _ _ _ Hc Hs Hne Hret).
    rewrite (save_rankings_resolved db rankings σ2 Hres). by rewrite Hlen.
  - intros saved failed rest σ3 σ4 m -> Hsaved Hrej.
    rewrite (post_calculate_rankings_saving _ _ _ _ _ _ _ Hc Hs Hne Hret).
    rewrite (save_rankings_app db saved (failed :: rest) σ2 σ3 Hsaved).
    by rewrite (save_rankings_rejected db failed rest σ3 σ4 m Hrej).
Qed.

End RankingHandlersSaving.

Lemma X8_validateAIScore_accepts_iff_witness :
  json_scores test_score
  ∧ (isValid (validateAIScore test_score) = true
     ↔ (∀ field, field ∈ required → present (get test_score field) = true)
       ∧ (∀ field, field ∈ scoreFields →
            present (get test_score field) = true →
            number_in (F64.of_Z 0) (F64.of_Z 100) (get test_score field))).
Proof.
  pose proof test_scores_validated as Hv.
  apply Forall_cons in Hv as [[Hjs _] _].
  split; [exact Hjs|].
  exact (X8_validateAIScore_accepts_iff test_score Hjs).
Defined.

Lemma X9_missing_subscore_gives_NaN_witness :
  ∃ r, @calculateFinalScore example_builtins ∅ ∅ = Returns r
    ∧ get (∅ : object) "logic_score" = VUndefined
    ∧ logicContribution r = F64.NaN ∧ finalScore r = F64.NaN.
Proof.
  eexists. split; [vm_compute; reflexivity|]. split; [reflexivity|].
  refine (proj1 (@X9_missing_subscore_gives_NaN example_builtins ∅ ∅ _ _) _);
    [vm_compute; reflexivity|reflexivity].
Defined.

Lemma X12_ranking_request_saves_in_order_witness :
  let db := example_db (Some default_criteria) test_scores in
  getRecruiterCriteria db "test-challenge-1" []
  = (Returns (Some default_criteria), [])
  ∧ getAllAIScores db "test-challenge-1" [] = (Returns test_scores, [])
  ∧ test_scores ≠ []
  ∧ @off_by_more_than_tolerance example_builtins
      (@sum_left example_builtins (weights_after_defaults default_criteria))
    = false
  ∧ ∃ rankings : list (object * Breakdown),
      @processChallengeScores example_builtins (Some test_scores)
        default_criteria = Returns rankings
      ∧ length rankings = length test_scores
      ∧ @post_calculate_rankings example_builtins _ _ db "test-challenge-1" []
        = ({| status := 200;
              json := JsonRankings "Rankings calculated successfully"
                        (length test_scores) (take 10 rankings) |},
           foldl (λ σ0 ranking,
                    (saveFinalRanking db (ranking_record ranking) σ0).2)
             [] rankings).
Proof.
  cbv zeta.
  split; [reflexivity|]. split; [reflexivity|]. split; [discriminate|].
  split; [exact default_criteria_within_tolerance|].
  destruct (@X12_ranking_request_saves_in_order example_builtins _ _
              (example_db (Some default_criteria) test_scores)
              "test-challenge-1" default_criteria test_scores [] [] []
              eq_refl eq_refl ltac:(discriminate)
              default_criteria_within_tolerance)
    as (rankings & Hret & Hlen & Hall & _).
  exists rankings. split; [exact Hret|]. split; [exact Hlen|].
  apply Hall. intros record σ0. by exists tt, (σ0 ++ [record]).
Defined.

(** ** The validator's sum and the aggregator's sum *)

Section TwoSums.
Context `{Builtins}.

Lemma same_number_refl (x : float) : same_number x x.
Proof. by left. Qed.

Lemma add_same_l (p p' x : float) :
  same_number p p' → same_number (F64.add p x) (F64.add p' x).
Proof.
  intros [->|(s & s' & -> & ->)]; [by left|].
  destruct x as [sx|sx| |sx mx ex]; try (by left).
  right. destruct s, s', sx; cbn; eauto.
Qed.

Lemma fold_add_same (l : list float) (p p' : float) :
  same_number p p' →
  same_number (fold_left F64.add l p) (fold_left F64.add l p').
Proof.
  revert p p'. induction l as [|x l IH]; intros p p' Hp; [done|].
  cbn [fold_left]. by apply IH, add_same_l.
Qed.

Lemma add_zero_same (x : float) : same_number (F64.add (F64.of_Z 0) x) x.
Proof.
  destruct x as [sx|sx| |sx mx ex]; try (by left).
  right. destruct sx; cbn; eauto.
Qed.

Lemma off_same (t t' : float) :
  same_number t t' →
  off_by_more_than_tolerance (VNumber t)
  = off_by_more_than_tolerance (VNumber t').
Proof.
  intros [->|(s & s' & -> & ->)]; [done|]. by destruct s, s'.
Qed.

Lemma checked_weight_cases (v : value) :
  checked_weight v →
  v = VUndefined ∨ v = VNull
  ∨ ∃ x, v = VNumber x ∧ is_number x
      ∧ F64.leb (F64.of_Z 0) x = true ∧ F64.leb x (F64.of_Z 1) = true.
Proof.
  intros [Hjson Hin].
  destruct v as [| |b|x|str]; auto;
    try (by destruct Hin as (x & Hx & _)).
  destruct Hin as (x' & [= <-] & Hlo & Hhi); [done|].
  right. right. exists x. by repeat split; try apply Hjson.
Qed.

Lemma js_add_numbers (a b : value) :
  (a = VNull ∨ ∃ x, a = VNumber x) → (b = VNull ∨ ∃ x, b = VNumber x) →
  js_add a b = VNumber (F64.add (ToNumber a) (ToNumber b)).
Proof. by intros [->|[x ->]] [->|[y ->]]. Qed.

Lemma fold_js_add_numbers (ws : list value) (p : float) :
  Forall (λ w, w = VNull ∨ ∃ x, w = VNumber x) ws →
  fold_left js_add ws (VNumber p)
  = VNumber (fold_left F64.add (ToNumber <$> ws) p).
Proof.
  intros Hws. revert p. induction Hws as [|w ws Hw _ IH]; intros p; [done|].
  cbn [fold_left fmap list_fmap].
  rewrite js_add_numbers by eauto. apply IH.
Qed.

(** The aggregator's total is the sum, from the left, of its weights read
    as numbers. *)
Lemma sum_left_numbers (criteria : object) :
  (∀ field, field ∈ weightFields → checked_weight (get criteria field)) →
  ∃ a rest, weights_as_numbers criteria = a :: rest
    ∧ sum_left (weights_after_defaults criteria)
      = VNumber (fold_left F64.add rest a).
Proof.
  intros Hw.
  assert (Hnum : Forall (λ w, w = VNull ∨ ∃ x, w = VNumber x)
                   (weights_after_defaults criteria)).
  { assert (Hone : ∀ field d, field ∈ weightFields →
      let w := with_default (VNumber d) (get criteria field) in
      w = VNull ∨ ∃ x, w = VNumber x).
    { intros f d Hf. cbv zeta.
      destruct (checked_weight_cases _ (Hw f Hf))
        as [->|[->|(x & -> & _)]]; cbn; eauto. }
    unfold weights_after_defaults.
    repeat apply Forall_cons_2; try apply Forall_nil_2;
      apply Hone; unfold weightFields; listed. }
  unfold weights_as_numbers.
  destruct (weights_after_defaults criteria) as [|w1 [|w2 ws]] eqn:Hws;
    [done|done|].
  apply Forall_cons in Hnum as [H1 Hnum].
  apply Forall_cons in Hnum as [H2 Hnum].
  eexists _, _. split; [reflexivity|].
  cbn [sum_left fold_left fmap list_fmap].
  rewrite js_add_numbers by done. by apply fold_js_add_numbers.
Qed.

Lemma weight_sum_fold (criteria : object) :
  weight_sum criteria
  = fold_left F64.add (weights_or_zero criteria) (F64.of_Z 0).
Proof. reflexivity. Qed.

End TwoSums.

(** ** Rounding without overflow, and how far a sum is from the exact one *)

Section NoOverflow.
Local Open Scope Z_scope.

Lemma round_finish_no_overflow (s : bool) (m1 : positive) (E : Z) :
  -1074 ≤ E ≤ 970 → Z.pos m1 ≤ 2 ^ 53 →
  match shr_m (shr_fexp F64.prec F64.emax (Z.pos m1) E loc_Exact).1 with
  | 0 => S754_zero s
  | Z.pos m =>
      if (shr_fexp F64.prec F64.emax (Z.pos m1) E loc_Exact).2
           <=? F64.emax - F64.prec
      then S754_finite s m
             (shr_fexp F64.prec F64.emax (Z.pos m1) E loc_Exact).2
      else S754_infinity s
  | Z.neg _ => S754_nan
  end ≠ S754_infinity s.
Proof.
  intros HE Hle.
  pose proof (digits2_pos_bounds m1) as [Hlo Hhi].
  set (d := Z.pos (digits2_pos m1)) in *.
  assert (Hd : d ≤ 54).
  { destruct (Z.le_gt_cases d 54) as [|Hgt]; [done|].
    assert (2 ^ 54 ≤ 2 ^ (d - 1)) by (apply Z.pow_le_mono_r; lia).
    change (2 ^ 54) with (2 * 2 ^ 53) in *. lia. }
  assert (Hexp : (shr_fexp F64.prec F64.emax (Z.pos m1) E loc_Exact).2
                 ≤ E + 1).
  { destruct (Z.le_gt_cases
                (fexp F64.prec F64.emax (Zdigits2 (Z.pos m1) + E)) E)
      as [Hk|Hk].
    - rewrite shr_fexp_keep by done. cbn. lia.
    - destruct (shr_fexp_shift (Z.pos m1) E loc_Exact) as (mrs & Hs & _);
        [lia|done|].
      rewrite Hs. cbn [snd]. rewrite fexp64. simpl Zdigits2. fold d. lia. }
  destruct (shr_m _) as [|m|m]; try done.
  destruct (Z.leb_spec
              (shr_fexp F64.prec F64.emax (Z.pos m1) E loc_Exact).2
              (F64.emax - F64.prec)) as [|Hgt]; [done|].
  change (F64.emax - F64.prec) with 971 in Hgt. lia.
Qed.

(** A magnitude below [2^1023] does not round to an infinity. *)
Lemma binary_round_no_overflow (s : bool) (m : positive) (e : Z) :
  Z.pos (digits2_pos m) + e ≤ 1023 →
  binary_round F64.prec F64.emax s m e ≠ S754_infinity s.
Proof.
  intros Hmag. unfold binary_round. rewrite fexp64.
  pose proof (digits2_pos_bounds m) as [Hlo Hhi].
  set (d := Z.pos (digits2_pos m)) in *.
  set (E := Z.max (d + e - 53) (-1074)).
  assert (Hd : 0 < d) by (subst d; lia).
  assert (HE : -1074 ≤ E ≤ 970) by lia.
  destruct (Z.le_gt_cases E e) as [Hle|Hgt].
  - destruct (shl_align_spec m e E Hle) as (mz & -> & Hmz).
    rewrite binary_round_aux_unfold. cbv zeta.
    assert (Hdz : Z.pos (digits2_pos mz) = d + (e - E)).
    { apply (digits2_pos_shift m); [lia|done]. }
    rewrite (shr_fexp_keep (Z.pos mz) E loc_Exact)
      by (rewrite fexp64; simpl Zdigits2; rewrite Hdz; lia).
    cbn [fst snd shr_record_of_loc shr_m loc_of_shr_record round_nearest_even].
    pose proof (digits2_pos_bounds mz) as [Hzlo Hzhi]. rewrite Hdz in Hzhi.
    apply round_finish_no_overflow; [done|].
    assert (2 ^ (d + (e - E)) ≤ 2 ^ 53) by (apply Z.pow_le_mono_r; lia). lia.
  - assert (Hal : shl_align m e E = (m, e)).
    { unfold shl_align. destruct (E - e) eqn:HEe; try done. lia. }
    rewrite Hal, binary_round_aux_unfold. cbv zeta.
    destruct (shr_fexp_shift (Z.pos m) e loc_Exact) as (mrs & Hs & Hm).
    { lia. } { rewrite fexp64. simpl Zdigits2. fold d E. lia. }
    rewrite fexp64 in Hs, Hm. simpl Zdigits2 in Hs, Hm. fold d E in Hs, Hm.
    rewrite Hs. cbn [fst snd]. rewrite Hm.
    set (q := Z.pos m / 2 ^ (E - e)).
    assert (Hpow : 0 < 2 ^ (E - e)) by (apply Z.pow_pos_nonneg; lia).
    assert (Hq53 : q < 2 ^ 53).
    { apply Z.div_lt_upper_bound; [done|].
      rewrite <- Z.pow_add_r by lia.
      assert (2 ^ d ≤ 2 ^ (E - e + 53)) by (apply Z.pow_le_mono_r; lia). lia. }
    pose proof (round_nearest_even_bounds q (loc_of_shr_record mrs)) as Hrne.
    destruct (round_nearest_even q (loc_of_shr_record mrs)) as [|m1|m1] eqn:Hm1.
    + rewrite (shr_fexp_keep 0 E loc_Exact) by (rewrite fexp64; simpl; lia).
      done.
    + apply round_finish_no_overflow; [done|lia].
    + assert (0 ≤ q) by (apply Z.div_pos; lia). lia.
Qed.

End NoOverflow.

Section SumError.
Local Open Scope Z_scope.

Lemma finite_nonneg_inv (x : float) :
  finite_nonneg x →
  (∃ s, x = S754_zero s)
  ∨ ∃ m e, x = S754_finite false m e
      ∧ bounded F64.prec F64.emax m e = true.
Proof.
  intros [Hx Hfin].
  destruct (number_nonneg_inv x Hx) as [?|[->|?]]; auto. done.
Qed.

Lemma finite_nonneg_finite (m : positive) (e : Z) :
  bounded F64.prec F64.emax m e = true →
  finite_nonneg (S754_finite false m e).
Proof. intros Hb. split; [by apply finite_is_nonneg|done]. Qed.

Lemma finite_nonneg_zero (s : bool) : finite_nonneg (S754_zero s).
Proof. done. Qed.

(** Rounding a positive magnitude [p * 2^ez] below 16, at an exponent of
    the format: the result is finite and within [2^-50] of it.  On the
    integer scale [2^-50] is [2^1024]. *)
Lemma binary_round_close (p : positive) (ez : Z) :
  -1074 ≤ ez → Z.pos p * 2 ^ (ez + 1074) < 2 ^ 1077 →
  let r := binary_round F64.prec F64.emax false p ez in
  finite_nonneg r
  ∧ Z.pos p * 2 ^ (ez + 1074) - 2 ^ 1024 ≤ F64.scaled r
    ≤ Z.pos p * 2 ^ (ez + 1074) + 2 ^ 1024.
Proof.
  intros Hez Hsmall. cbv zeta.
  pose proof (digits2_pos_bounds p) as [Hlo Hhi].
  set (d := Z.pos (digits2_pos p)) in *.
  assert (Hd0 : 0 < d) by (subst d; lia).
  assert (HU : 0 < 2 ^ (ez + 1074)) by (apply Z.pow_pos_nonneg; lia).
  assert (Hd : d + ez ≤ 3).
  { assert (Hlt : 2 ^ (d - 1 + (ez + 1074)) < 2 ^ 1077).
    { rewrite Z.pow_add_r by lia. nia. }
    apply Z.pow_lt_mono_r_iff in Hlt; lia. }
  pose proof (binary_round_no_overflow false p ez ltac:(fold d; lia)) as Hno.
  destruct (binary_round_spec false p ez)
    as [Hr|[(Hr & Hlt & Hq)|(m' & e' & Hr & Hb & HE & Hexact & Hcut)]].
  - done.
  - exfalso. fold d in Hlt, Hq.
    assert (HEq : Z.max (d + ez - 53) (-1074) = d + ez - 53) by lia.
    rewrite HEq in Hq.
    assert (0 < 2 ^ (d + ez - 53 - ez)) by (apply Z.pow_pos_nonneg; lia).
    apply Z.div_small_iff in Hq; [|lia].
    assert (2 ^ (d + ez - 53 - ez) ≤ 2 ^ (d - 1))
      by (apply Z.pow_le_mono_r; lia).
    lia.
  - fold d in HE, Hexact, Hcut.
    set (E := Z.max (d + ez - 53) (-1074)) in *.
    rewrite Hr. split; [by apply finite_nonneg_finite|].
    cbn [F64.scaled cond_Zopp].
    assert (HE1074 : 0 < 2 ^ (E + 1074)) by (apply Z.pow_pos_nonneg; lia).
    assert (Hshift : Z.pos m' * 2 ^ (e' + 1074)
                     = Z.pos m' * 2 ^ (e' - E) * 2 ^ (E + 1074)).
    { rewrite <- Z.mul_assoc, <- Z.pow_add_r by lia. do 2 f_equal. lia. }
    rewrite Hshift.
    assert (Htop : 2 ^ (E + 1074) ≤ 2 ^ 1024)
      by (apply Z.pow_le_mono_r; lia).
    destruct (Z.le_gt_cases E ez) as [Hle|Hgt].
    + rewrite (Hexact Hle).
      assert (Hsame : Z.pos p * 2 ^ (ez - E) * 2 ^ (E + 1074)
                      = Z.pos p * 2 ^ (ez + 1074)).
      { rewrite <- Z.mul_assoc, <- Z.pow_add_r by lia. do 2 f_equal. lia. }
      rewrite Hsame. lia.
    + specialize (Hcut Hgt).
      set (G := 2 ^ (E - ez)) in *.
      assert (HG : 0 < G) by (apply Z.pow_pos_nonneg; lia).
      assert (HGU : G * 2 ^ (ez + 1074) = 2 ^ (E + 1074)).
      { subst G. rewrite <- Z.pow_add_r by lia. f_equal. lia. }
      pose proof (Z.div_mod (Z.pos p) G ltac:(lia)) as Hdm.
      pose proof (Z.mod_pos_bound (Z.pos p) G HG) as Hmod.
      set (q := Z.pos p / G) in *.
      set (A := Z.pos m' * 2 ^ (e' - E)) in *.
      rewrite <- HGU in *.
      set (U := 2 ^ (ez + 1074)) in *.
      assert (H1 : q * (G * U) ≤ A * (G * U))
        by (apply Z.mul_le_mono_nonneg_r; lia).
      assert (H2 : A * (G * U) ≤ (q + 1) * (G * U))
        by (apply Z.mul_le_mono_nonneg_r; lia).
      assert (H3 : q * G * U ≤ Z.pos p * U)
        by (apply Z.mul_le_mono_nonneg_r; lia).
      assert (H4 : Z.pos p * U ≤ (q + 1) * G * U)
        by (apply Z.mul_le_mono_nonneg_r; lia).
      lia.
Qed.

(** The sum of two finite numbers that are zero or above, while it stays
    below 8, is finite and within [2^-50] of the exact sum. *)
Lemma add_close (x y : float) :
  finite_nonneg x → finite_nonneg y →
  F64.scaled x + F64.scaled y < 2 ^ 1077 →
  finite_nonneg (F64.add x y)
  ∧ F64.scaled x + F64.scaled y - 2 ^ 1024 ≤ F64.scaled (F64.add x y)
    ≤ F64.scaled x + F64.scaled y + 2 ^ 1024.
Proof.
  intros Hx Hy Hsmall.
  assert (Heps : 0 < 2 ^ 1024) by (by apply Z.pow_pos_nonneg).
  set (eps := 2 ^ 1024) in *. set (top := 2 ^ 1077) in *.
  destruct (finite_nonneg_inv x Hx) as [[sx ->]|(mx & ex & -> & Hbx)];
    destruct (finite_nonneg_inv y Hy) as [[sy ->]|(my & ey & -> & Hby)].
  - split; [by destruct sx, sy|]. clearbody eps top.
    destruct sx, sy; cbn; lia.
  - split; [done|]. clearbody eps top. cbn [F64.add SFadd F64.scaled]. lia.
  - split; [done|]. clearbody eps top. cbn [F64.add SFadd F64.scaled]. lia.
  - rewrite add_finite. cbn [cond_Zopp F64.scaled] in *.
    destruct (bounded_spec _ _ Hbx) as (_ & Hex & _).
    destruct (bounded_spec _ _ Hby) as (_ & Hey & _).
    set (ez := Z.min ex ey) in *.
    assert (HU : 0 < 2 ^ (ez + 1074)) by (apply Z.pow_pos_nonneg; lia).
    assert (Hsx : Z.pos mx * 2 ^ (ex + 1074)
                  = Z.pos mx * 2 ^ (ex - ez) * 2 ^ (ez + 1074)).
    { rewrite <- Z.mul_assoc, <- Z.pow_add_r by lia. do 2 f_equal. lia. }
    assert (Hsy : Z.pos my * 2 ^ (ey + 1074)
                  = Z.pos my * 2 ^ (ey - ez) * 2 ^ (ez + 1074)).
    { rewrite <- Z.mul_assoc, <- Z.pow_add_r by lia. do 2 f_equal. lia. }
    assert (0 < 2 ^ (ex - ez)) by (apply Z.pow_pos_nonneg; lia).
    assert (0 < 2 ^ (ey - ez)) by (apply Z.pow_pos_nonneg; lia).
    rewrite Hsx, Hsy in *. rewrite <- Z.mul_add_distr_r in *.
    destruct (Z.pos mx * 2 ^ (ex - ez) + Z.pos my * 2 ^ (ey - ez))
      as [|p|p] eqn:Hp; [nia| |nia].
    cbn [binary_normalize].
    subst eps top. apply binary_round_close; [lia|done].
Qed.

End SumError.

Section SumOfWeights.
Local Open Scope Z_scope.

(** Adding up, from the left, at most a few numbers between 0 and 1: the
    result is finite and off the exact sum by at most [2^-50] for each
    addition. *)
Lemma fold_add_close (l : list float) (p : float) :
  Forall (λ x, finite_nonneg x ∧ F64.scaled x ≤ 2 ^ 1074) l →
  finite_nonneg p →
  F64.scaled p + Z.of_nat (length l) * (2 ^ 1074 + 2 ^ 1024) < 2 ^ 1077 →
  finite_nonneg (fold_left F64.add l p)
  ∧ F64.scaled p + foldr Z.add 0 (F64.scaled <$> l)
      - Z.of_nat (length l) * 2 ^ 1024
    ≤ F64.scaled (fold_left F64.add l p)
    ≤ F64.scaled p + foldr Z.add 0 (F64.scaled <$> l)
      + Z.of_nat (length l) * 2 ^ 1024.
Proof.
  assert (Heps : 0 < 2 ^ 1024) by (by apply Z.pow_pos_nonneg).
  assert (Hone : 0 < 2 ^ 1074) by (by apply Z.pow_pos_nonneg).
  intros Hl. revert p.
  induction Hl as [|x l [Hx Hx1] _ IH]; intros p Hp Hroom.
  - cbn. split; [done|]. lia.
  - cbn [fold_left length fmap list_fmap foldr] in *.
    assert (Hx0 : 0 ≤ F64.scaled x).
    { destruct (finite_nonneg_inv x Hx) as [[s ->]|(m & e & -> & _)];
        cbn; [lia|]. apply Z.mul_nonneg_nonneg; [lia|].
      apply Z.pow_nonneg; lia. }
    destruct (add_close p x Hp Hx) as [Hfin Hclose].
    { set (eps := 2 ^ 1024) in *. set (one := 2 ^ 1074) in *.
      set (top := 2 ^ 1077) in *. clearbody eps one top. lia. }
    destruct (IH (F64.add p x) Hfin) as [Hfin' Hclose'].
    { set (eps := 2 ^ 1024) in *. set (one := 2 ^ 1074) in *.
      set (top := 2 ^ 1077) in *. clearbody eps one top. lia. }
    split; [done|].
    set (eps := 2 ^ 1024) in *. set (one := 2 ^ 1074) in *.
    set (top := 2 ^ 1077) in *. clearbody eps one top. lia.
Qed.

(** A total of more than 1.015625 is off 1.0 by more than the tolerance. *)
Lemma far_above_one `{Builtins} (t : float) :
  finite_nonneg t → 2 ^ 1074 + 2 ^ 1068 ≤ F64.scaled t →
  off_by_more_than_tolerance (VNumber t) = true.
Proof.
  intros Ht Hfar.
  destruct (finite_nonneg_inv t Ht) as [[s ->]|(m & e & -> & Hb)].
  { cbn in Hfar. assert (0 < 2 ^ 1074) by (by apply Z.pow_pos_nonneg).
    assert (0 < 2 ^ 1068) by (by apply Z.pow_pos_nonneg).
    set (a := 2 ^ 1074) in *. set (b := 2 ^ 1068) in *. clearbody a b. lia. }
  unfold off_by_more_than_tolerance, js_sub, F64.Math_abs. cbn [ToNumber].
  rewrite of_Z_1, sub_finite. cbn [cond_Zopp F64.scaled] in *.
  destruct (bounded_spec _ _ Hb) as (_ & He & _).
  set (ez := Z.min e (-52)) in *.
  assert (HU : 0 < 2 ^ (ez + 1074)) by (apply Z.pow_pos_nonneg; lia).
  assert (Hm : Z.pos m * 2 ^ (e + 1074)
               = Z.pos m * 2 ^ (e - ez) * 2 ^ (ez + 1074)).
  { rewrite <- Z.mul_assoc, <- Z.pow_add_r by lia. do 2 f_equal. lia. }
  assert (H1 : 2 ^ 1074
               = 4503599627370496 * 2 ^ (-52 - ez) * 2 ^ (ez + 1074)).
  { change 4503599627370496 with (2 ^ 52).
    rewrite <- !Z.pow_add_r by lia. f_equal. lia. }
  assert (H6 : 2 ^ 1068 = 2 ^ (-6 - ez) * 2 ^ (ez + 1074)).
  { rewrite <- Z.pow_add_r by lia. f_equal. lia. }
  rewrite Hm, H1, H6 in Hfar.
  set (M := Z.pos m * 2 ^ (e - ez)
            - 4503599627370496 * 2 ^ (-52 - ez)) in *.
  assert (HM : 2 ^ (-6 - ez) ≤ M).
  { apply (Z.mul_le_mono_pos_r _ _ (2 ^ (ez + 1074))); [done|].
    subst M. lia. }
  assert (0 < 2 ^ (-6 - ez)) by (apply Z.pow_pos_nonneg; lia).
  destruct M as [|p|p] eqn:HMp; [lia| |lia].
  cbn [binary_normalize]. apply far_from_tolerance; lia.
Qed.

End SumOfWeights.

Section ValidatorAndAggregator.
Context `{Builtins}.
Local Open Scope Z_scope.

(** One weight as the two functions read it: [a] in the aggregation,
    after the default [d], and [w] in the validator. *)
Lemma weight_pair (d : float) (v : value) :
  finite_nonneg d → F64.scaled d ≤ 2 ^ 1074 → checked_weight v →
  let a := ToNumber (with_default (VNumber d) v) in
  let w := weight_or_zero v in
  finite_nonneg a ∧ finite_nonneg w
  ∧ 0 ≤ F64.scaled w ≤ F64.scaled a ∧ F64.scaled a ≤ 2 ^ 1074
  ∧ (v = VUndefined → F64.scaled a = F64.scaled d ∧ F64.scaled w = 0)
  ∧ (v ≠ VUndefined → a = w).
Proof.
  intros Hd Hd1 Hv. cbv zeta.
  assert (Hone : 0 < 2 ^ 1074) by (by apply Z.pow_pos_nonneg).
  assert (Hd0 : 0 ≤ F64.scaled d).
  { destruct (finite_nonneg_inv d Hd) as [[s ->]|(m & e & -> & _)];
      cbn; [lia|]. apply Z.mul_nonneg_nonneg; [lia|].
    apply Z.pow_nonneg; lia. }
  destruct (checked_weight_cases v Hv)
    as [->|[->|(x & -> & Hx & Hlo & Hhi)]];
    cbn [with_default ToNumber weight_or_zero].
  - change (F64.scaled (F64.of_Z 0)) with 0.
    split; [done|]. split; [done|]. split; [lia|]. split; [done|].
    split; [done|]. by intros [].
  - change (F64.scaled (F64.of_Z 0)) with 0.
    change (F64.scaled F64.zero) with 0.
    split; [done|]. split; [done|]. split; [lia|]. split; [lia|].
    split; [done|]. done.
  - assert (Hfin : finite_nonneg x)
      by (by apply (in_range_finite_nonneg (F64.of_Z 1))).
    assert (H1 : is_number (F64.of_Z 1)) by done.
    assert (H0 : is_number (F64.of_Z 0)) by done.
    rewrite leb_scaled in Hlo, Hhi by done.
    apply Z.leb_le in Hlo, Hhi.
    change (F64.scaled (F64.of_Z 1)) with (2 ^ 1074) in Hhi.
    change (F64.scaled (F64.of_Z 0)) with 0 in Hlo.
    split; [done|]. split; [done|]. split; [lia|]. split; [done|].
    split; [done|]. done.
Qed.

Lemma defaults_on_scale :
  Forall (λ d, finite_nonneg d ∧ 2 ^ 1070 ≤ F64.scaled d ≤ 2 ^ 1074)
    [F64.lit 25 2; F64.lit 30 2; F64.lit 20 2; F64.lit 15 2; F64.lit 10 2]
  ∧ F64.lit 0 1 = F64.of_Z 0
  ∧ F64.scaled (F64.lit 99 2) = 8917127262193582 * 2 ^ 1021.
Proof.
  split; [|split; vm_compute; reflexivity].
  repeat apply Forall_cons_2; try apply Forall_nil_2;
    (split; [done|]); split; apply Z.leb_le; vm_compute; reflexivity.
Qed.

End ValidatorAndAggregator.

Section Dichotomy.
Context `{Builtins}.
Local Open Scope Z_scope.

(** The seven weights, each as the aggregation reads it and as the
    validator reads it. *)
Lemma weight_pairs (criteria : object) :
  (∀ field, field ∈ weightFields → checked_weight (get criteria field)) →
  Forall2 (λ a w,
      finite_nonneg a ∧ finite_nonneg w
      ∧ 0 ≤ F64.scaled w ≤ F64.scaled a ∧ F64.scaled a ≤ 2 ^ 1074)
    (weights_as_numbers criteria) (weights_or_zero criteria)
  ∧ (∀ field, field ∈ defaulted_nonzero → get criteria field = VUndefined →
       foldr Z.add 0 (F64.scaled <$> weights_or_zero criteria) + 2 ^ 1070
       ≤ foldr Z.add 0 (F64.scaled <$> weights_as_numbers criteria))
  ∧ ((∀ field, field ∈ defaulted_nonzero → get criteria field ≠ VUndefined) →
     weights_as_numbers criteria = weights_or_zero criteria).
Proof.
  intros Hw.
  destruct defaults_on_scale as (Hdef & Hzero & _).
  rewrite !Forall_cons in Hdef.
  destruct Hdef as ((D25 & L25 & U25) & (D30 & L30 & U30) & (D20 & L20 & U20)
                    & (D15 & L15 & U15) & (D10 & L10 & U10) & _).
  assert (D0 : finite_nonneg (F64.lit 0 1)) by (by rewrite Hzero).
  assert (U0 : F64.scaled (F64.lit 0 1) ≤ 2 ^ 1074).
  { rewrite Hzero. change (F64.scaled (F64.of_Z 0)) with 0.
    by apply Z.pow_nonneg. }
  pose proof (weight_pair _ _ D25 U25
                (Hw "logic_weight"%string ltac:(unfold weightFields; listed)))
    as (A1 & W1 & O1 & B1 & G1 & E1).
  pose proof (weight_pair _ _ D30 U30
                (Hw "clarity_weight"%string ltac:(unfold weightFields; listed)))
    as (A2 & W2 & O2 & B2 & G2 & E2).
  pose proof (weight_pair _ _ D0 U0
                (Hw "testing_weight"%string ltac:(unfold weightFields; listed)))
    as (A3 & W3 & O3 & B3 & G3 & E3).
  pose proof (weight_pair _ _ D0 U0
                (Hw "efficiency_weight"%string
                   ltac:(unfold weightFields; listed)))
    as (A4 & W4 & O4 & B4 & G4 & E4).
  pose proof (weight_pair _ _ D20 U20
                (Hw "api_ui_weight"%string ltac:(unfold weightFields; listed)))
    as (A5 & W5 & O5 & B5 & G5 & E5).
  pose proof (weight_pair _ _ D15 U15
                (Hw "edge_cases_weight"%string
                   ltac:(unfold weightFields; listed)))
    as (A6 & W6 & O6 & B6 & G6 & E6).
  pose proof (weight_pair _ _ D10 U10
                (Hw "creativity_weight"%string
                   ltac:(unfold weightFields; listed)))
    as (A7 & W7 & O7 & B7 & G7 & E7).
  unfold weights_as_numbers, weights_after_defaults, weights_or_zero,
    weightFields.
  cbn [fmap list_fmap foldr].
  set (a1 := ToNumber (with_default _ (get criteria "logic_weight"))) in *.
  set (a2 := ToNumber (with_default _ (get criteria "clarity_weight"))) in *.
  set (a3 := ToNumber (with_default _ (get criteria "testing_weight"))) in *.
  set (a4 := ToNumber (with_default _ (get criteria "efficiency_weight")))
    in *.
  set (a5 := ToNumber (with_default _ (get criteria "api_ui_weight"))) in *.
  set (a6 := ToNumber (with_default _ (get criteria "edge_cases_weight")))
    in *.
  set (a7 := ToNumber (with_default _ (get criteria "creativity_weight")))
    in *.
  set (w1 := weight_or_zero (get criteria "logic_weight")) in *.
  set (w2 := weight_or_zero (get criteria "clarity_weight")) in *.
  set (w3 := weight_or_zero (get criteria "testing_weight")) in *.
  set (w4 := weight_or_zero (get criteria "efficiency_weight")) in *.
  set (w5 := weight_or_zero (get criteria "api_ui_weight")) in *.
  set (w6 := weight_or_zero (get criteria "edge_cases_weight")) in *.
  set (w7 := weight_or_zero (get criteria "creativity_weight")) in *.
  split; [|split].
  - repeat apply Forall2_cons_2; try apply Forall2_nil_2; done.
  - intros f Hf Hundef. unfold defaulted_nonzero in Hf.
    set (c := 2 ^ 1070) in *. set (one := 2 ^ 1074) in *.
    repeat (apply elem_of_cons in Hf as [->|Hf]);
      [ destruct (G1 Hundef) | destruct (G2 Hundef) | destruct (G5 Hundef)
      | destruct (G6 Hundef) | destruct (G7 Hundef)
      | by apply elem_of_nil in Hf ];
      clearbody c one a1 a2 a3 a4 a5 a6 a7 w1 w2 w3 w4 w5 w6 w7; lia.
  - intros Hgiven.
    assert (Hzero' : ∀ v, v = VUndefined →
      ToNumber (with_default (VNumber (F64.lit 0 1)) v) = weight_or_zero v).
    { intros v ->. cbn. exact Hzero. }
    assert (H3 : a3 = w3).
    { destruct (decide (get criteria "testing_weight" = VUndefined));
        [by apply Hzero'|by apply E3]. }
    assert (H4 : a4 = w4).
    { destruct (decide (get criteria "efficiency_weight" = VUndefined));
        [by apply Hzero'|by apply E4]. }
    rewrite H3, H4.
    rewrite (E1 (Hgiven "logic_weight"%string
                   ltac:(unfold defaulted_nonzero; listed))).
    rewrite (E2 (Hgiven "clarity_weight"%string
                   ltac:(unfold defaulted_nonzero; listed))).
    rewrite (E5 (Hgiven "api_ui_weight"%string
                   ltac:(unfold defaulted_nonzero; listed))).
    rewrite (E6 (Hgiven "edge_cases_weight"%string
                   ltac:(unfold defaulted_nonzero; listed))).
    rewrite (E7 (Hgiven "creativity_weight"%string
                   ltac:(unfold defaulted_nonzero; listed))).
    reflexivity.
Qed.

End Dichotomy.

Section DichotomyProof.
Context `{Builtins}.
Local Open Scope Z_scope.

Lemma pairs_bounded (as_ ws : list float) :
  Forall2 (λ a w,
      finite_nonneg a ∧ finite_nonneg w
      ∧ 0 ≤ F64.scaled w ≤ F64.scaled a ∧ F64.scaled a ≤ 2 ^ 1074)
    as_ ws →
  Forall (λ x, finite_nonneg x ∧ F64.scaled x ≤ 2 ^ 1074) as_
  ∧ Forall (λ x, finite_nonneg x ∧ F64.scaled x ≤ 2 ^ 1074) ws.
Proof.
  induction 1 as [|a w as_ ws (Ha & Hw & Hle & Hone) _ [IHa IHw]].
  - by split.
  - split; constructor; try done. split; [done|]. lia.
Qed.

(** A weight set that passes the validator's sum test while a weight with
    a default that is not zero is left out fails the aggregator's. *)
Lemma omitted_default_off (criteria : object) :
  (∀ field, field ∈ weightFields → checked_weight (get criteria field)) →
  off_by_more_than_tolerance (VNumber (weight_sum criteria)) = false →
  (∃ field, field ∈ defaulted_nonzero ∧ get criteria field = VUndefined) →
  off_by_more_than_tolerance (sum_left (weights_after_defaults criteria))
  = true.
Proof.
  intros Hw Hoff (f & Hf & Hundef).
  destruct (weight_pairs criteria Hw) as (Hpairs & Hgap & _).
  specialize (Hgap f Hf Hundef).
  destruct (sum_left_numbers criteria Hw) as (a & rest & Hlist & ->).
  assert (Hlen : length (weights_as_numbers criteria) = 7%nat) by done.
  assert (Hlen' : length (weights_or_zero criteria) = 7%nat) by done.
  rewrite weight_sum_fold in Hoff.
  rewrite Hlist in Hpairs, Hgap, Hlen.
  generalize dependent (weights_or_zero criteria). intros ws Hoff Hpairs Hgap Hws.
  destruct (pairs_bounded _ _ Hpairs) as [Has Hws'].
  apply Forall_cons in Has as [[Ha Ha1] Hrest].
  assert (Hrlen : length rest = 6%nat) by (cbn in Hlen; lia).
  destruct defaults_on_scale as (_ & _ & H99).
  assert (HW : 0 < 2 ^ 1021) by (by apply Z.pow_pos_nonneg).
  assert (E1024 : 2 ^ 1024 = 8 * 2 ^ 1021) by reflexivity.
  assert (E1068 : 2 ^ 1068 = 140737488355328 * 2 ^ 1021) by reflexivity.
  assert (E1070 : 2 ^ 1070 = 562949953421312 * 2 ^ 1021) by reflexivity.
  assert (E1074 : 2 ^ 1074 = 9007199254740992 * 2 ^ 1021) by reflexivity.
  assert (E1077 : 2 ^ 1077 = 72057594037927936 * 2 ^ 1021) by reflexivity.
  destruct (fold_add_close ws (F64.of_Z 0) Hws') as [HS HSclose]; [done| |].
  { rewrite Hws. change (F64.scaled (F64.of_Z 0)) with 0.
    change (Z.of_nat 7) with 7. rewrite E1024, E1074, E1077.
    set (W := 2 ^ 1021) in *. clearbody W. lia. }
  destruct (fold_add_close rest a Hrest Ha) as [HT HTclose].
  { rewrite Hrlen. change (Z.of_nat 6) with 6.
    rewrite E1024, E1074, E1077 in *.
    set (W := 2 ^ 1021) in *. clearbody W. lia. }
  set (S := fold_left F64.add ws (F64.of_Z 0)) in *.
  set (T := fold_left F64.add rest a) in *.
  assert (HS99 : F64.scaled (F64.lit 99 2) ≤ F64.scaled S).
  { rewrite off_by_more_than_tolerance_number in Hoff.
    destruct HS as [[[HSd HSn] _] _].
    destruct (tolerance_bounds S HSd HSn Hoff) as [Hlo _].
    rewrite leb_scaled in Hlo by done. by apply Z.leb_le in Hlo. }
  apply far_above_one; [done|].
  rewrite Hws in HSclose. rewrite Hrlen in HTclose.
  change (Z.of_nat 7) with 7 in HSclose. change (Z.of_nat 6) with 6 in HTclose.
  change (F64.scaled (F64.of_Z 0)) with 0 in HSclose.
  cbn [fmap list_fmap foldr] in Hgap.
  rewrite H99 in HS99.
  rewrite E1024, E1068, E1070, E1074 in *.
  set (W := 2 ^ 1021) in *.
  set (sumA := foldr Z.add 0 (F64.scaled <$> rest)) in *.
  set (sumW := foldr Z.add 0 (F64.scaled <$> ws)) in *.
  clearbody W sumA sumW S T. lia.
Qed.

(** When no weight with a default that is not zero is left out, the two
    sums are the same number and the two tests agree. *)
Lemma given_weights_agree (criteria : object) :
  (∀ field, field ∈ weightFields → checked_weight (get criteria field)) →
  (∀ field, field ∈ defaulted_nonzero → get criteria field ≠ VUndefined) →
  off_by_more_than_tolerance (sum_left (weights_after_defaults criteria))
  = off_by_more_than_tolerance (VNumber (weight_sum criteria)).
Proof.
  intros Hw Hgiven.
  destruct (weight_pairs criteria Hw) as (_ & _ & Hsame).
  specialize (Hsame Hgiven).
  destruct (sum_left_numbers criteria Hw) as (a & rest & Hlist & ->).
  rewrite weight_sum_fold, <- Hsame, Hlist. cbn [fold_left].
  apply off_same, fold_add_same.
  destruct (add_zero_same a) as [->|(s & s' & Hs & ->)]; [by left|].
  right. rewrite Hs. eauto.
Qed.

End DichotomyProof.

(** ** The validator and the aggregator on the same weights *)

Section ValidatorVersusAggregator.
Context `{Builtins}.

(** X14.  For weights that are JSON values and that [validateCriteria]
    accepts, [calculateFinalScore] throws exactly when the criteria leave
    out ([undefined]) one of the five weights whose default in
    [calculateFinalScore] is not zero: [logic_weight], [clarity_weight],
    [api_ui_weight], [edge_cases_weight] or [creativity_weight].  The
    validator counts a missing weight as 0, the aggregator as its default;
    the sub-scores play no part. *)
Theorem X14_accepted_weights_throw_iff_default_omitted
    (aiScore criteria : object) :
  json_weights criteria →
  isValid (validateCriteria criteria) = true →
  (∃ message, calculateFinalScore aiScore criteria = Throws message)
  ↔ ∃ field, field ∈ defaulted_nonzero ∧ get criteria field = VUndefined.
Proof.
  intros Hjson Hvalid.
  apply validateCriteria_accepts in Hvalid as [Hrange Hoff].
  assert (Hin : ∀ field, field ∈ weightFields →
                  present (get criteria field) = true →
                  number_in (F64.of_Z 0) (F64.of_Z 1) (get criteria field)).
  { intros field Hfield. apply weight_in_range_iff; [by apply Hjson|].
    by apply Hrange. }
  assert (Hw : ∀ field, field ∈ weightFields →
                 checked_weight (get criteria field)).
  { intros field Hfield. split; [by apply Hjson|by apply Hin]. }
  destruct (totalWeight_weight_sum criteria Hjson Hin) as (Htotal & _).
  rewrite Htotal in Hoff.
  rewrite calculateFinalScore_throws_iff. split.
  - intros Hthrow.
    destruct (decide (Exists (λ field, get criteria field = VUndefined)
                        defaulted_nonzero)) as [Hex|Hnone].
    + apply Exists_exists in Hex as (field & Hfield & Hundef).
      by exists field.
    + rewrite given_weights_agree in Hthrow; [congruence|done|].
      intros field Hfield Hundef. apply Hnone, Exists_exists.
      by exists field.
  - intros Hex. by apply omitted_default_off.
Qed.

End ValidatorVersusAggregator.

Lemma test_criteria_json : json_weights test_criteria.
Proof.
  intros field Hfield. unfold weightFields in Hfield.
  repeat (apply elem_of_cons in Hfield as [->|Hfield];
          [vm_compute; by split|]).
  by apply elem_of_nil in Hfield.
Qed.

Lemma X14_accepted_weights_throw_iff_default_omitted_witness :
  json_weights test_criteria
  ∧ isValid (@validateCriteria example_builtins test_criteria) = true
  ∧ ((∃ message,
        @calculateFinalScore example_builtins test_score test_criteria
        = Throws message)
     ↔ ∃ field, field ∈ defaulted_nonzero
                ∧ get test_criteria field = VUndefined).
Proof.
  split; [exact test_criteria_json|].
  split; [vm_compute; reflexivity|].
  apply (@X14_accepted_weights_throw_iff_default_omitted example_builtins
           test_score test_criteria);
    [exact test_criteria_json|vm_compute; reflexivity].
Defined.
